(** * Request-shaping core of codeb-cms: rate limiter, counters, batching,
      circuit breaker and request metrics.

    Shallow embedding of
      - app/lib/middleware/rate-limiter.server.ts   (module [RateLimiter])
      - app/lib/cdn/static-optimizer.server.ts      (modules [StaticOptimizer],
                                                     [ViewCounter], [CircuitBreaker])
      - the realtime load-balancing module          (module [MessageBatcher])
      - the performance monitor                     (module [Monitor])

    Promises are modelled by their settled result: an [outcome] is either a
    value or a thrown error.  The clock ([Date.now()]) and the random
    tie-breaker ([math.random()]) are explicit arguments. *)

From stdpp Require Import gmap strings list fin_maps pretty.
From Stdlib Require Import ZArith Lia Ascii.

Local Open Scope Z_scope.

(** The settled result of a call: a returned value or a thrown [Error]
    (represented by its message). *)
Inductive outcome (T : Type) : Type :=
| Returns (v : T)
| Throws (e : string).
Arguments Returns {T} v.
Arguments Throws {T} e.

(* ================================================================== *)
(** ** Circuit breaker (static-optimizer.server.ts, section 6)        *)
(* ================================================================== *)

Module CircuitBreaker.

Inductive phase : Type := closed | open | half_open.

Record CircuitState : Type := mkCircuit {
  failures : Z;
  lastFailure : Z;
  state : phase
}.

Definition CIRCUIT_THRESHOLD : Z := 5.
Definition CIRCUIT_TIMEOUT : Z := 30000.

(** What a call does besides returning: the functions it invokes and the
    line it logs when a circuit opens. *)
Inductive event : Type :=
| CallPrimary
| CallFallback
| LogOpened (name : string) (failures : Z).

Record call_result (T : Type) : Type := mkCall {
  states : gmap string CircuitState;
  result : outcome T;
  trace : list event
}.
Arguments mkCall {T}.
Arguments states {T}.
Arguments result {T}.
Arguments trace {T}.

(** [circuitStates.get(name) || { failures: 0, lastFailure: 0, state: 'closed' }] *)
Definition get_state (cs : gmap string CircuitState) (name : string) : CircuitState :=
  default (mkCircuit 0 0 closed) (cs !! name).

Section Call.
Context {T : Type}.

(** The [catch] branch of [withCircuitBreaker]: [st] is the state object as
    it is when [fn] rejects with [err]. *)
Definition on_failure (name : string) (fallback : option (outcome T)) (now : Z)
    (cs : gmap string CircuitState) (st : CircuitState) (err : string)
    (pre : list event) : call_result T :=
  let f := failures st + 1 in
  let opened := CIRCUIT_THRESHOLD <=? f in
  let st' := mkCircuit f now (if opened then open else state st) in
  let log := if opened then [LogOpened name f] else [] in
  let cs' := <[name := st']> cs in
  match fallback with
  | Some r => mkCall cs' r (pre ++ log ++ [CallFallback])
  | None => mkCall cs' (Throws err) (pre ++ log)
  end.

(** The [try] block of [withCircuitBreaker], entered with state object [st]:
    [fn] is the settled result of [await fn()]. *)
Definition attempt (name : string) (fn : outcome T) (fallback : option (outcome T))
    (now : Z) (cs : gmap string CircuitState) (st : CircuitState) : call_result T :=
  match fn with
  | Returns v =>
      match state st with
      | half_open => mkCall (<[name := mkCircuit 0 0 closed]> cs) (Returns v) [CallPrimary]
      | _ => mkCall cs (Returns v) [CallPrimary]
      end
  | Throws err => on_failure name fallback now cs st err [CallPrimary]
  end.

(** [withCircuitBreaker(name, fn, fallback)] at time [now]. *)
Definition withCircuitBreaker (name : string) (fn : outcome T)
    (fallback : option (outcome T)) (now : Z)
    (cs : gmap string CircuitState) : call_result T :=
  let st := get_state cs name in
  match state st with
  | open =>
      if CIRCUIT_TIMEOUT <? now - lastFailure st then
        let st' := mkCircuit (failures st) (lastFailure st) half_open in
        attempt name fn fallback now (<[name := st']> cs) st'
      else
        match fallback with
        | Some r => mkCall cs r [CallFallback]
        | None => mkCall cs (Throws ("Circuit breaker open for " +:+ name)) []
        end
  | _ => attempt name fn fallback now cs st
  end.

(** One call of a workload, and the state map after a sequence of calls. *)
Record call : Type := mkReq {
  c_name : string;
  c_fn : outcome T;
  c_fallback : option (outcome T);
  c_now : Z
}.

Definition step (cs : gmap string CircuitState) (c : call) : gmap string CircuitState :=
  states (withCircuitBreaker (c_name c) (c_fn c) (c_fallback c) (c_now c) cs).

Definition run (cs : gmap string CircuitState) (cl : list call) : gmap string CircuitState :=
  foldl step cs cl.

Definition is_failure (c : call) : bool :=
  match c_fn c with Throws _ => true | Returns _ => false end.

(** Number of calls of [cl] on operation [name] whose primary function fails. *)
Definition failures_of (name : string) (cl : list call) : Z :=
  Z.of_nat (length (filter (λ c, c_name c = name ∧ is_failure c = true) cl)).

(** States the breaker can be in: reached from the empty map by calls. *)
Inductive reachable : gmap string CircuitState → Prop :=
| reach_init : reachable ∅
| reach_step cs c : reachable cs → reachable (step cs c).

End Call.
Arguments call : clear implicits.
Arguments reachable : clear implicits.

(** The invariant of stored states: between calls no circuit is half-open,
    a circuit that is not closed has accumulated at least the threshold, and
    a closed one less than the threshold. *)
Definition tripped_ok (st : CircuitState) : Prop :=
  state st ≠ closed → CIRCUIT_THRESHOLD ≤ failures st.

Definition well_formed (cs : gmap string CircuitState) : Prop :=
  ∀ name st, cs !! name = Some st →
    state st ≠ half_open ∧ tripped_ok st ∧
    (state st = closed → failures st < CIRCUIT_THRESHOLD).

(** A sample workload: five failures of "db" at times 1..5. *)
Definition db_fails (t : Z) : call Z := mkReq "db" (Throws "down") None t.

Definition tripped : gmap string CircuitState :=
  run ∅ [db_fails 1; db_fails 2; db_fails 3; db_fails 4; db_fails 5].

End CircuitBreaker.

(* ================================================================== *)
(** ** Message batching (realtime load-balancing module, section 1)   *)
(* ================================================================== *)

Module MessageBatcher.

(** Payloads are JSON values ([data: any]). *)
#[local] Unset Elimination Schemes.
Inductive json : Type :=
| JNull
| JBool (b : bool)
| JNum (n : Z)
| JStr (s : string)
| JArr (items : list json)
| JObj (fields : list (string * json)).
#[local] Set Elimination Schemes.

Record QueuedMessage : Type := mkMsg {
  channel : string;
  data : json;
  timestamp : Z
}.

Definition maxSize : nat := 100.
Definition maxWaitMs : Z := 50.
Definition flushIntervalMs : Z := 100.

(** Module state: [messageQueue] and [batchTimer] (the time at which the
    pending timer fires, when one is set). *)
Record batcher : Type := mkBatcher {
  messageQueue : list QueuedMessage;
  batchTimer : option Z
}.

Inductive log_line : Type :=
| LogFlushed (messages channels : nat)
| LogPublishFailed (e : string).

Record flush_result : Type := mkFlush {
  after : batcher;
  published : list (string * json);
  log : list log_line;
  returns : outcome unit
}.

(** [const existing = channelGroups.get(c) || []; existing.push(d);
    channelGroups.set(c, existing)] on a [Map], which iterates in the order
    in which its keys were first set. *)
Fixpoint group_push (groups : list (string * list json)) (c : string) (d : json)
    : list (string * list json) :=
  match groups with
  | [] => [(c, [d])]
  | (c', ds) :: rest =>
      if decide (c' = c) then (c', ds ++ [d]) :: rest
      else (c', ds) :: group_push rest c d
  end.

Definition channelGroups (messages : list QueuedMessage) : list (string * list json) :=
  foldl (λ groups msg, group_push groups (channel msg) (data msg)) [] messages.

(** The payload handed to [publishToChannel] for one channel group. *)
Definition payload_of (dataArray : list json) : json :=
  match dataArray with
  | [d] => d
  | _ => JObj [("type", JStr "batch");
               ("messages", JArr dataArray);
               ("count", JNum (Z.of_nat (length dataArray)))]
  end.

(** [Promise.all]: fulfilled when every promise is, rejected with a
    rejection of one of them otherwise (here the first in list order). *)
Fixpoint Promise_all (ps : list (outcome unit)) : outcome unit :=
  match ps with
  | [] => Returns ()
  | Returns _ :: rest => Promise_all rest
  | Throws e :: _ => Throws e
  end.

Section Flush.
(** The delivery service: the settled result of [publishToChannel(c, d)]. *)
Variable publishToChannel : string → json → outcome unit.

Definition flushMessageQueue (b : batcher) : flush_result :=
  (* clearTimeout(batchTimer); batchTimer = null *)
  match messageQueue b with
  | [] => mkFlush (mkBatcher [] None) [] [] (Returns ())
  | messages =>
      (* messageQueue.splice(0) empties the queue *)
      let groups := channelGroups messages in
      let calls := map (λ g, (g.1, payload_of g.2)) groups in
      let publishPromises := map (λ p, publishToChannel p.1 p.2) calls in
      match Promise_all publishPromises with
      | Returns _ =>
          mkFlush (mkBatcher [] None) calls
            [LogFlushed (length messages) (length groups)] (Returns ())
      | Throws e =>
          mkFlush (mkBatcher [] None) calls [LogPublishFailed e] (Returns ())
      end
  end.

Definition queueMessage (c : string) (d : json) (now : Z) (b : batcher) : flush_result :=
  let queue := messageQueue b ++ [mkMsg c d now] in
  if decide (maxSize ≤ length queue)%nat then
    flushMessageQueue (mkBatcher queue (batchTimer b))
  else
    match batchTimer b with
    | Some t => mkFlush (mkBatcher queue (Some t)) [] [] (Returns ())
    | None => mkFlush (mkBatcher queue (Some (now + maxWaitMs))) [] [] (Returns ())
    end.

End Flush.

(** The group stored for a channel ([[]] when the channel has none). *)
Fixpoint group_of (c : string) (groups : list (string * list json)) : list json :=
  match groups with
  | [] => []
  | (c', ds) :: rest => if decide (c' = c) then ds else group_of c rest
  end.

(** Payloads queued for channel [c], in enqueue order. *)
Definition pending_for (c : string) (q : list QueuedMessage) : list json :=
  data <$> filter (λ m, channel m = c) q.

(** Publishes of one flush addressed to channel [c]. *)
Definition published_to (c : string) (r : flush_result) : list (string * json) :=
  filter (λ p, p.1 = c) (published r).

(** A sample queue (three messages to A and one to B) and a delivery
    service that rejects every publish. *)
Definition three_A_one_B : batcher :=
  mkBatcher [mkMsg "A" (JNum 1) 10; mkMsg "A" (JNum 2) 11;
             mkMsg "B" (JNum 3) 12; mkMsg "A" (JNum 4) 13] (Some 60).

Definition delivery_down : string → json → outcome unit :=
  λ _ _, Throws "unreachable".

End MessageBatcher.

(* ================================================================== *)
(** ** Sorted-set window store (the Redis commands the limiters use)   *)
(* ================================================================== *)

Module Redis.

(** A member ["<now>:<random>"]: the timestamp and the random tie-breaker. *)
Definition member : Type := Z * N.

(** One sorted-set key: member ↦ score, and the time at which the key
    expires when a TTL is set. *)
Record zkey : Type := mkZKey {
  members : gmap member Z;
  expireAt : option Z
}.

(** A key with a TTL is gone once the clock has passed its expiry time. *)
Definition expired (k : zkey) (now : Z) : bool :=
  match expireAt k with
  | Some e => e <? now
  | None => false
  end.

(** The key as a command issued at time [now] finds it. *)
Definition live (s : gmap string zkey) (key : string) (now : Z) : option zkey :=
  match s !! key with
  | Some k => if expired k now then None else Some k
  | None => None
  end.

(** The sorted set and the TTL a command issued at time [now] sees under
    [key]: an expired or absent key is the empty set. *)
Definition zget (s : gmap string zkey) (key : string) (now : Z) : gmap member Z :=
  default ∅ (members <$> live s key now).

Definition ttl_of (s : gmap string zkey) (key : string) (now : Z) : option Z :=
  live s key now ≫= expireAt.

(** Writing back a sorted set: a sorted set without members does not exist
    as a key. *)
Definition zput (s : gmap string zkey) (key : string) (z : gmap member Z)
    (ttl : option Z) : gmap string zkey :=
  if decide (z = ∅) then delete key s else <[key := mkZKey z ttl]> s.

(** [ZREMRANGEBYSCORE key -inf max]: what remains is strictly above [max]. *)
Definition zremrangebyscore_upto (max : Z) (z : gmap member Z) : gmap member Z :=
  filter (λ e, max < e.2) z.

(** [ZREMRANGEBYSCORE key min max]. *)
Definition zremrangebyscore (min max : Z) (z : gmap member Z) : gmap member Z :=
  filter (λ e, ¬ (min ≤ e.2 ≤ max)) z.

(** [ZADD key score member] and [ZCARD key]. *)
Definition zadd (score : Z) (m : member) (z : gmap member Z) : gmap member Z :=
  <[m := score]> z.

Definition zcard (z : gmap member Z) : Z := Z.of_nat (size z).

(** The commands on the store, each issued at time [now]. *)
Definition ZREMRANGEBYSCORE_upto (key : string) (max now : Z) (s : gmap string zkey)
    : gmap string zkey :=
  zput s key (zremrangebyscore_upto max (zget s key now)) (ttl_of s key now).

Definition ZREMRANGEBYSCORE (key : string) (min max now : Z) (s : gmap string zkey)
    : gmap string zkey :=
  zput s key (zremrangebyscore min max (zget s key now)) (ttl_of s key now).

Definition ZADD (key : string) (score : Z) (m : member) (now : Z) (s : gmap string zkey)
    : gmap string zkey :=
  <[key := mkZKey (zadd score m (zget s key now)) (ttl_of s key now)]> s.

Definition ZCARD (key : string) (now : Z) (s : gmap string zkey) : Z :=
  zcard (zget s key now).

(** [PEXPIRE key ms]: a timeout that is not positive deletes the key. *)
Definition PEXPIRE (key : string) (ms now : Z) (s : gmap string zkey)
    : gmap string zkey :=
  match live s key now with
  | Some k =>
      if ms <=? 0 then delete key s
      else <[key := mkZKey (members k) (Some (now + ms))]> s
  | None => s
  end.

(** The members stored under [key], expired or not. *)
Definition zstored (s : gmap string zkey) (key : string) : gmap member Z :=
  default ∅ (members <$> s !! key).

(** The sorted set that holds exactly the entries of [l], each scored with
    its timestamp. *)
Definition zset_of (l : list member) : gmap member Z :=
  foldl (λ z m, zadd m.1 m z) ∅ l.

End Redis.

(* ================================================================== *)
(** ** Sliding-window limiter (rate-limiter.server.ts)                 *)
(* ================================================================== *)

Module RateLimiter.
Import Redis.

Record RateLimitConfig : Type := mkConfig {
  windowMs : Z;
  maxRequests : Z;
  keyPrefix : option string;
  (** the settled result of the [onLimit] callback, when one is configured *)
  onLimit : option (outcome unit)
}.

(** The predefined classes of [RATE_LIMITS]. *)
Inductive limit_class : Type :=
| api | auth | register | participation | post | comment | like | upload
| search | websocket.

Definition RATE_LIMITS (c : limit_class) : RateLimitConfig :=
  match c with
  | api => mkConfig (60 * 1000) 100 (Some "rl:api") None
  | auth => mkConfig (5 * 60 * 1000) 10 (Some "rl:auth") None
  | register => mkConfig (60 * 60 * 1000) 5 (Some "rl:register") None
  | participation => mkConfig 1000 5 (Some "rl:participation") None
  | post => mkConfig (60 * 1000) 10 (Some "rl:post") None
  | comment => mkConfig (60 * 1000) 30 (Some "rl:comment") None
  | like => mkConfig 1000 10 (Some "rl:like") None
  | upload => mkConfig (60 * 1000) 20 (Some "rl:upload") None
  | search => mkConfig (60 * 1000) 60 (Some "rl:search") None
  | websocket => mkConfig (60 * 1000) 10 (Some "rl:ws") None
  end.

Record RateLimitResult : Type := mkResult {
  allowed : bool;
  remaining : Z;
  total : Z;
  resetAt : Z;
  retryAfter : option Z
}.

(** The in-process statistics of the module ([stats]), written only by
    [recordRateLimitStat]. *)
Record Stats : Type := mkStats {
  totalChecks : Z;
  blocked : Z;
  blockedIPs : gmap string Z
}.

Definition recordRateLimitStat (key : string) (allowed : bool) (st : Stats) : Stats :=
  if allowed then mkStats (totalChecks st + 1) (blocked st) (blockedIPs st)
  else mkStats (totalChecks st + 1) (blocked st + 1)
         (<[key := default 0 (blockedIPs st !! key) + 1]> (blockedIPs st)).

(** The state the module works on: the window store and [stats]. *)
Record world : Type := mkWorld {
  store : gmap string zkey;
  stats : Stats
}.

Inductive effect : Type :=
| ConsoleError (msg err : string)
| OnLimit (identifier : string) (count : Z).

Record check_result : Type := mkCheck {
  world_after : world;
  answer : outcome RateLimitResult;
  effects : list effect
}.

(** [`${keyPrefix}:${identifier}`], with ['rl'] as default prefix. *)
Definition key_of (config : RateLimitConfig) (identifier : string) : string :=
  default "rl" (keyPrefix config) +:+ ":" +:+ identifier.

(** The Lua script, run atomically at time [now] with
    [KEYS[1] = key], [ARGV = windowStart, now, maxRequests, windowMs];
    [rnd] is the value of [math.random()]. *)
Definition script (s : gmap string zkey) (key : string)
    (windowStart now maxRequests windowMs : Z) (rnd : N)
    : gmap string zkey * (Z * Z) :=
  let s1 := ZREMRANGEBYSCORE_upto key windowStart now s in
  let count := ZCARD key now s1 in
  if count <? maxRequests then
    let s2 := ZADD key now (now, rnd) now s1 in
    let s3 := PEXPIRE key windowMs now s2 in
    (s3, (1, count + 1))
  else
    (s1, (0, count)).

(** [Math.ceil(a / b)] for integers, [b > 0] (numbers are taken in the range
    in which JS arithmetic on integers is exact). *)
Definition ceil_div (a b : Z) : Z := - ((- a) / b).

(** [checkRateLimit(identifier, config)] at time [now]; [redis_error] is
    [Some err] when [redis.eval] throws [err] (store unreachable). *)
Definition checkRateLimit (redis_error : option string) (identifier : string)
    (config : RateLimitConfig) (now : Z) (rnd : N) (w : world) : check_result :=
  let key := key_of config identifier in
  let windowStart := now - windowMs config in
  let fail_open err w' pre :=
    mkCheck w'
      (Returns (mkResult true (maxRequests config) (maxRequests config)
                  (now + windowMs config) None))
      (pre ++ [ConsoleError "[RateLimit] Redis error:" err]) in
  match redis_error with
  | Some err => fail_open err w []
  | None =>
      let '(s', (allowed, count)) :=
        script (store w) key windowStart now (maxRequests config) (windowMs config) rnd in
      let w' := mkWorld s' (stats w) in
      let remaining := Z.max 0 (maxRequests config - count) in
      let resetAt := now + windowMs config in
      let res := mkResult (allowed =? 1) remaining (maxRequests config) resetAt
                   (if allowed =? 0 then Some (ceil_div (windowMs config) 1000) else None) in
      if allowed =? 0 then
        match onLimit config with
        | Some (Throws err) => fail_open err w' [OnLimit identifier count]
        | Some (Returns _) => mkCheck w' (Returns res) [OnLimit identifier count]
        | None => mkCheck w' (Returns res) []
        end
      else mkCheck w' (Returns res) []
  end.

(** A sequence of checks of one identifier under one class with the store
    reachable: the final state and the answers in order. *)
Fixpoint check_all (identifier : string) (config : RateLimitConfig)
    (reqs : list member) (w : world) : world * list (outcome RateLimitResult) :=
  match reqs with
  | [] => (w, [])
  | (now, rnd) :: rest =>
      let r := checkRateLimit None identifier config now rnd w in
      let '(w', answers) := check_all identifier config rest (world_after r) in
      (w', answer r :: answers)
  end.

(** The answer to an admitted check that leaves [left] requests, and to a
    rejected one. *)
Definition admitted (config : RateLimitConfig) (now left : Z) : RateLimitResult :=
  mkResult true left (maxRequests config) (now + windowMs config) None.

Definition rejected (config : RateLimitConfig) (now : Z) : RateLimitResult :=
  mkResult false 0 (maxRequests config) (now + windowMs config)
    (Some (ceil_div (windowMs config) 1000)).

(** The answers the specification expects for [reqs] when [left] requests
    are left before the first of them. *)
Fixpoint countdown (config : RateLimitConfig) (left : Z) (reqs : list member)
    : list (outcome RateLimitResult) :=
  match reqs with
  | [] => []
  | (now, _) :: rest =>
      Returns (admitted config now (left - 1)) :: countdown config (left - 1) rest
  end.

(** The state of one window key while a burst that started at [t0] is being
    served: nothing stored before the first check, afterwards exactly the
    entries of the admitted checks, with a TTL that ends no earlier than
    [deadline]. *)
Definition window_inv (key : string) (deadline : Z) (served : list member)
    (s : gmap string zkey) : Prop :=
  (served = [] ∧ s !! key = None) ∨
  (∃ e, s !! key = Some (mkZKey (zset_of served) (Some e)) ∧ deadline ≤ e).

(** A metric is a counter of [stats] or of the store: one is recorded when
    either of them changes. *)
Definition records_metric (before after : world) : Prop :=
  stats after ≠ stats before ∨ store after ≠ store before.

(** The end-to-end scenario of the specification: identifier "u1" under the
    class with [windowMs = 1000] and [maxRequests = 5], five checks at
    t = 0 on an empty store. *)
Definition fresh : world := mkWorld ∅ (mkStats 0 0 ∅).

Definition burst_u1 : list member := [(0, 1%N); (0, 2%N); (0, 3%N); (0, 4%N); (0, 5%N)].

End RateLimiter.

(* ================================================================== *)
(** ** Pipeline limiter (static-optimizer.server.ts, section 5)        *)
(* ================================================================== *)

Module StaticOptimizer.
Import Redis.

Record RateLimitConfig : Type := mkConfig {
  windowMs : Z;
  maxRequests : Z
}.

Inductive limit_type : Type := api | auth | participation | upload.

Definition type_name (t : limit_type) : string :=
  match t with
  | api => "api" | auth => "auth" | participation => "participation"
  | upload => "upload"
  end.

Definition RATE_LIMITS (t : limit_type) : RateLimitConfig :=
  match t with
  | api => mkConfig 60000 100
  | auth => mkConfig 300000 10
  | participation => mkConfig 1000 5
  | upload => mkConfig 60000 20
  end.

Record RateLimitResult : Type := mkResult {
  allowed : bool;
  remaining : Z;
  resetAt : Z
}.

(** [checkRateLimit(identifier, type)] at time [now] with [Math.random()]
    equal to [rnd]: the four pipelined commands run in order. *)
Definition checkRateLimit (identifier : string) (type : limit_type) (now : Z) (rnd : N)
    (s : gmap string zkey) : gmap string zkey * RateLimitResult :=
  let config := RATE_LIMITS type in
  let key := "ratelimit:" +:+ type_name type +:+ ":" +:+ identifier in
  let s1 := ZREMRANGEBYSCORE key 0 (now - windowMs config) now s in
  let s2 := ZADD key now (now, rnd) now s1 in
  let count := ZCARD key now s2 in
  let s3 := PEXPIRE key (windowMs config) now s2 in
  (s3, mkResult (count <=? maxRequests config)
         (Z.max 0 (maxRequests config - count))
         (now + windowMs config)).

Fixpoint check_all (identifier : string) (type : limit_type) (reqs : list member)
    (s : gmap string zkey) : gmap string zkey * list RateLimitResult :=
  match reqs with
  | [] => (s, [])
  | (now, rnd) :: rest =>
      let '(s1, r) := checkRateLimit identifier type now rnd s in
      let '(s2, rs) := check_all identifier type rest s1 in
      (s2, r :: rs)
  end.

End StaticOptimizer.

(* ================================================================== *)
(** ** View counters (static-optimizer.server.ts, section 3)           *)
(* ================================================================== *)

Module ViewCounter.

(** A counter key of the key-value store: its integer value and the TTL in
    seconds, when one was set. *)
Record entry : Type := mkEntry {
  value : Z;
  ttl : option Z
}.

Inductive command : Type :=
| INCR (key : string)
| EXPIRE (key : string) (seconds : Z)
| KEYS (pattern : string)
| GET (key : string)
| DEL (keys : list string).

(** [CACHE_KEYS.VIEW_COUNTER] *)
Definition VIEW_COUNTER (postId : string) : string := "counter:views:" +:+ postId.

(** [INCR key]: an absent key counts as 0; the TTL of the key is kept. *)
Definition incr (key : string) (s : gmap string entry) : gmap string entry * Z :=
  let v := default 0 (value <$> s !! key) + 1 in
  (<[key := mkEntry v (s !! key ≫= ttl)]> s, v).

(** [EXPIRE key seconds] *)
Definition expire (key : string) (seconds : Z) (s : gmap string entry) : gmap string entry :=
  alter (λ e, mkEntry (value e) (Some seconds)) key s.

Record incr_result : Type := mkIncr {
  kv_next : gmap string entry;
  newCount : Z;
  issued : list command
}.

Definition incrementViewCount (postId : string) (s : gmap string entry) : incr_result :=
  let key := VIEW_COUNTER postId in
  let '(s1, newCount) := incr key s in
  if newCount =? 1 then
    mkIncr (expire key 86400 s1) newCount [INCR key; EXPIRE key 86400]
  else
    mkIncr s1 newCount [INCR key].

(** [n] successive calls of [incrementViewCount(postId)]. *)
Fixpoint increment_times (n : nat) (postId : string) (s : gmap string entry)
    : gmap string entry :=
  match n with
  | O => s
  | S n' => increment_times n' postId (kv_next (incrementViewCount postId s))
  end.

(** [key.split(':').pop()]: the part after the last [':']. *)
Fixpoint last_segment_from (acc s : string) : string :=
  match s with
  | EmptyString => acc
  | String c rest =>
      if Ascii.eqb c ":"%char then last_segment_from "" rest
      else last_segment_from (acc +:+ String c "") rest
  end.

Definition last_segment (key : string) : string := last_segment_from "" key.

(** [redis.keys('counter:views:*')]: the keys that start with the prefix, in
    the order in which the store enumerates them. *)
Definition view_counter_keys (s : gmap string entry) : list string :=
  filter (λ k, String.prefix "counter:views:" k = true) (map_to_list s).*1.

(** The [updates] array built from the keys and their values. *)
Definition update_of (s : gmap string entry) (key : string) : option (string * Z) :=
  let postId := last_segment key in
  let count := default 0 (value <$> s !! key) in
  if decide (postId ≠ "" ∧ 0 < count) then Some (postId, count) else None.

Definition updates_of (s : gmap string entry) (keys : list string) : list (string * Z) :=
  omap (update_of s) keys.

(** [db.post.update({ where: { id }, data: { views: { increment } } })] for
    each update in turn; [None] when a post does not exist. *)
Fixpoint apply_updates (db : gmap string Z) (updates : list (string * Z))
    : option (gmap string Z) :=
  match updates with
  | [] => Some db
  | (id, views) :: rest =>
      match db !! id with
      | Some v => apply_updates (<[id := v + views]> db) rest
      | None => None
      end
  end.

(** [db.$transaction(...)]: all updates or none; [db_error] is [Some err]
    when the relational store fails for a reason of its own. *)
Definition transaction (db_error : option string) (db : gmap string Z)
    (updates : list (string * Z)) : outcome (gmap string Z) :=
  match db_error with
  | Some err => Throws err
  | None =>
      match apply_updates db updates with
      | Some db' => Returns db'
      | None => Throws "Record to update not found"
      end
  end.

(** [redis.del(...keys)] *)
Definition del (keys : list string) (s : gmap string entry) : gmap string entry :=
  foldr delete s keys.

Record flush_result : Type := mkFlush {
  kv_after : gmap string entry;
  db_after : gmap string Z;
  (** the transactions that committed, each with its updates *)
  committed : list (list (string * Z));
  deleted : list string;
  returned : outcome Z
}.

Definition flushViewCounters (db_error : option string) (s : gmap string entry)
    (db : gmap string Z) : flush_result :=
  let keys := view_counter_keys s in
  match keys with
  | [] => mkFlush s db [] [] (Returns 0)
  | _ =>
      let updates := updates_of s keys in
      match updates with
      | [] => mkFlush s db [] [] (Returns 0)
      | _ =>
          match transaction db_error db updates with
          | Throws err => mkFlush s db [] [] (Throws err)
          | Returns db' =>
              mkFlush (del keys s) db' [updates] keys
                (Returns (Z.of_nat (length updates)))
          end
      end
  end.

(** Entity ids are taken without [':'] (the separator of the key). *)
Fixpoint no_colon (id : string) : bool :=
  match id with
  | EmptyString => true
  | String c rest => negb (Ascii.eqb c ":"%char) && no_colon rest
  end.

(** Every view counter of the store belongs to an existing post. *)
Definition counters_of_posts (s : gmap string entry) (db : gmap string Z) : Prop :=
  ∀ k, k ∈ view_counter_keys s →
    ∃ id, k = VIEW_COUNTER id ∧ no_colon id = true ∧ is_Some (db !! id).

(** The delta a list of updates applies to post [id]. *)
Definition delta_for (id : string) (updates : list (string * Z)) : Z :=
  foldr Z.add 0 (snd <$> filter (λ u, u.1 = id) updates).

(** A sample state: post "p2" has three views pending, posts "p1" and "p2"
    exist. *)
Definition sample_kv : gmap string entry :=
  {[ VIEW_COUNTER "p2" := mkEntry 3 (Some 86400) ]}.

Definition sample_db : gmap string Z := {[ "p1" := 10; "p2" := 20 ]}.

End ViewCounter.

(* ================================================================== *)
(** ** Request metrics (performance monitor)                           *)
(* ================================================================== *)

Module Monitor.

(** Paths are ASCII strings, as [url.pathname] is. *)

Definition is_digit (c : ascii) : bool :=
  let n := nat_of_ascii c in (48 <=? n)%nat && (n <=? 57)%nat.

(** [[a-z0-9]] under the [i] flag. *)
Definition is_alnum (c : ascii) : bool :=
  let n := nat_of_ascii c in
  is_digit c || ((97 <=? n)%nat && (n <=? 122)%nat) || ((65 <=? n)%nat && (n <=? 90)%nat).

(** [.] matches everything but a line terminator. *)
Definition is_dot (c : ascii) : bool :=
  let n := nat_of_ascii c in negb ((n =? 10)%nat || (n =? 13)%nat).

(** Length of the longest prefix whose characters satisfy [p] (a greedy
    [p*]). *)
Fixpoint run_length (p : ascii → bool) (s : string) : nat :=
  match s with
  | String c rest => if p c then S (run_length p rest) else O
  | EmptyString => O
  end.

(** [s.replace(/re/g, by)]: [matcher s] is the length of the match of the
    expression at the start of [s], when there is one; [skip] counts the
    characters of the current match still to be dropped. *)
Fixpoint replace_all (matcher : string → option nat) (by_ : string)
    (skip : nat) (s : string) : string :=
  match s with
  | EmptyString => EmptyString
  | String c rest =>
      match skip with
      | S k => replace_all matcher by_ k rest
      | O =>
          match matcher s with
          | Some (S k) => by_ +:+ replace_all matcher by_ k rest
          | _ => String c (replace_all matcher by_ O rest)
          end
      end
  end.

(** [/\/[a-z0-9]{24,}/gi] *)
Definition match_id (s : string) : option nat :=
  match s with
  | String c rest =>
      if Ascii.eqb c "/"%char then
        let n := run_length is_alnum rest in
        if (24 <=? n)%nat then Some (S n) else None
      else None
  | EmptyString => None
  end.

(** [/\/\d+/g] *)
Definition match_num (s : string) : option nat :=
  match s with
  | String c rest =>
      if Ascii.eqb c "/"%char then
        let n := run_length is_digit rest in
        if (1 <=? n)%nat then Some (S n) else None
      else None
  | EmptyString => None
  end.

(** [/\?.*/g] *)
Definition match_query (s : string) : option nat :=
  match s with
  | String c rest =>
      if Ascii.eqb c "?"%char then Some (S (run_length is_dot rest)) else None
  | EmptyString => None
  end.

Definition normalizePath (path : string) : string :=
  replace_all match_query "" O
    (replace_all match_num "/:num" O
       (replace_all match_id "/:id" O path)).

(** The commands [recordRequest] puts in its pipeline. *)
Inductive command : Type :=
| INCR (key : string)
| EXPIRE (key : string) (seconds : Z)
| LPUSH (key : string) (v : Z)
| LTRIM (key : string) (start stop : Z)
| HINCRBY (key field : string) (by_ : Z).

Definition REQUEST_COUNT (minute : string) : string := "metrics:requests:" +:+ minute.
Definition REQUEST_LATENCY (minute : string) : string := "metrics:latency:" +:+ minute.
Definition ERROR_COUNT (minute : string) : string := "metrics:errors:" +:+ minute.
Definition ERROR_BY_TYPE (type : string) : string := "metrics:errors:type:" +:+ type.
Definition ENDPOINT_STATS (minute : string) : string := "metrics:endpoint:" +:+ minute.

(** [recordRequest(path, method, statusCode, latencyMs)] during [minute]
    ([getCurrentMinute()]); latencies are whole milliseconds. *)
Definition recordRequest (minute path method : string) (statusCode latencyMs : Z)
    : list command :=
  [INCR (REQUEST_COUNT minute); EXPIRE (REQUEST_COUNT minute) 3600;
   LPUSH (REQUEST_LATENCY minute) latencyMs; LTRIM (REQUEST_LATENCY minute) 0 999;
   EXPIRE (REQUEST_LATENCY minute) 3600] ++
  (if 400 <=? statusCode then
     [INCR (ERROR_COUNT minute); EXPIRE (ERROR_COUNT minute) 3600;
      INCR (ERROR_BY_TYPE (if 500 <=? statusCode then "5xx" else "4xx"))]
   else []) ++
  (let normalizedPath := normalizePath path in
   [HINCRBY (ENDPOINT_STATS minute) (method +:+ ":" +:+ normalizedPath +:+ ":count") 1;
    HINCRBY (ENDPOINT_STATS minute) (method +:+ ":" +:+ normalizedPath +:+ ":latency")
      latencyMs;
    EXPIRE (ENDPOINT_STATS minute) 3600]).

(** [HINCRBY] on one hash, kept in the order in which fields were created. *)
Fixpoint hincrby (field : string) (by_ : Z) (hash : list (string * Z)) : list (string * Z) :=
  match hash with
  | [] => [(field, by_)]
  | (f, v) :: rest =>
      if decide (f = field) then (f, v + by_) :: rest
      else (f, v) :: hincrby field by_ rest
  end.

(** [HGETALL key] after the commands [cmds] ran on an empty store. *)
Definition hgetall (key : string) (cmds : list command) : list (string * Z) :=
  foldl (λ hash cmd,
           match cmd with
           | HINCRBY k field by_ => if decide (k = key) then hincrby field by_ hash else hash
           | _ => hash
           end) [] cmds.

(** [s.split(':')] *)
Fixpoint split_from (acc s : string) : list string :=
  match s with
  | EmptyString => [acc]
  | String c rest =>
      if Ascii.eqb c ":"%char then acc :: split_from "" rest
      else split_from (acc +:+ String c "") rest
  end.

Definition split_colon (s : string) : list string := split_from "" s.

Record endpoint_data : Type := mkData {
  d_count : Z;
  totalLatency : Z
}.

Record endpoint_stat : Type := mkStat {
  path : string;
  method : string;
  count : Z;
  avgLatencyMs : Z
}.

(** The [endpoints] map: [set] of a new key appends, of an existing key
    updates in place. *)
Fixpoint endpoints_update (key : string) (f : endpoint_data → endpoint_data)
    (endpoints : list (string * endpoint_data)) : list (string * endpoint_data) :=
  match endpoints with
  | [] => [(key, f (mkData 0 0))]
  | (k, d) :: rest =>
      if decide (k = key) then (k, f d) :: rest
      else (k, d) :: endpoints_update key f rest
  end.

(** One iteration of the loop over [Object.entries(stats)]; the values of
    the hash are the integers [HINCRBY] keeps, which [parseInt] reads back. *)
Definition parse_entry (endpoints : list (string * endpoint_data)) (entry : string * Z)
    : list (string * endpoint_data) :=
  match split_colon entry.1 with
  | method :: path :: metric :: _ =>
      endpoints_update (method +:+ ":" +:+ path)
        (λ d, if decide (metric = "count") then mkData entry.2 (totalLatency d)
              else if decide (metric = "latency") then mkData (d_count d) entry.2
              else d)
        endpoints
  | _ => endpoints
  end.

(** [Math.round(a / b)] for integers, [b > 0]. *)
Definition round_div (a b : Z) : Z := (2 * a + b) / (2 * b).

Definition to_stat (e : string * endpoint_data) : endpoint_stat :=
  let parts := split_colon e.1 in
  mkStat (nth 1 parts "") (nth 0 parts "") (d_count e.2)
    (if 0 <? d_count e.2 then round_div (totalLatency e.2) (d_count e.2) else 0).

(** [sort((a, b) => b.count - a.count)]: stable, by decreasing count. *)
Fixpoint insert_by_count (x : endpoint_stat) (sorted : list endpoint_stat)
    : list endpoint_stat :=
  match sorted with
  | [] => [x]
  | y :: rest =>
      if count y <=? count x then x :: y :: rest
      else y :: insert_by_count x rest
  end.

Definition sort_by_count (l : list endpoint_stat) : list endpoint_stat :=
  foldr insert_by_count [] l.

Definition parseEndpointStats (stats : list (string * Z)) : list endpoint_stat :=
  take 10 (sort_by_count (to_stat <$> foldl parse_entry [] stats)).

(** What [getPerformanceMetrics] reports as [topEndpoints] for [minute]
    after the requests [reqs] (path, method, status, latency) were recorded
    in that minute. *)
Definition topEndpoints (minute : string) (reqs : list (string * string * Z * Z))
    : list endpoint_stat :=
  parseEndpointStats
    (hgetall (ENDPOINT_STATS minute)
       (concat ((λ r, recordRequest minute r.1.1.1 r.1.1.2 r.1.2 r.2) <$> reqs))).

(** A minute of traffic: three views of posts by numeric id and one request
    to each of ten static pages. *)
Definition sample_traffic : list (string * string * Z * Z) :=
  [("/posts/101", "GET", 200, 12); ("/posts/102", "GET", 200, 14);
   ("/posts/103", "GET", 200, 16);
   ("/a", "GET", 200, 5); ("/b", "GET", 200, 5); ("/c", "GET", 200, 5);
   ("/d", "GET", 200, 5); ("/e", "GET", 200, 5); ("/f", "GET", 200, 5);
   ("/g", "GET", 200, 5); ("/h", "GET", 200, 5); ("/i", "GET", 200, 5);
   ("/j", "GET", 200, 5)].

(** Whether character [c] occurs in [s]. *)
Fixpoint has_char (c : ascii) (s : string) : bool :=
  match s with
  | EmptyString => false
  | String c' rest => Ascii.eqb c' c || has_char c rest
  end.

(** Whether the first character of [s] satisfies [p], and whether some
    ['/'] of [s] is directly followed by a digit (the start of a numeric
    segment). *)
Definition starts_with (p : ascii → bool) (s : string) : bool :=
  match s with
  | String c _ => p c
  | EmptyString => false
  end.

Fixpoint slash_digit (s : string) : bool :=
  match s with
  | EmptyString => false
  | String c rest => (Ascii.eqb c "/" && starts_with is_digit rest) || slash_digit rest
  end.

(** Counts never increase along the list. *)
Fixpoint descending (l : list endpoint_stat) : Prop :=
  match l with
  | x :: (y :: _) as rest => count y ≤ count x ∧ descending rest
  | _ => True
  end.

End Monitor.

(* ================================================================== *)
(** ** Security score (security-scanner.server.ts)                     *)
(* ================================================================== *)

Module Scanner.

Inductive severity : Type := low | medium | high | critical.

Record Vulnerability : Type := mkVuln {
  v_id : string;
  v_severity : severity;
  v_description : string
}.

Definition severityWeights (s : severity) : Z :=
  match s with
  | critical => 25
  | high => 15
  | medium => 5
  | low => 1
  end.

(** [vulnerabilities.reduce((sum, v) => sum + severityWeights[v.severity], 0)] *)
Definition totalDeductions (vulnerabilities : list Vulnerability) : Z :=
  foldl (λ sum v, sum + severityWeights (v_severity v)) 0 vulnerabilities.

Definition getSecurityScore (vulnerabilities : list Vulnerability) : Z :=
  match vulnerabilities with
  | [] => 100
  | _ => Z.max 0 (100 - totalDeductions vulnerabilities)
  end.

End Scanner.

(* ================================================================== *)
(** ** Channel sharding and bulk notifications (realtime module,       *)
(**    sections 3 and 6)                                               *)
(* ================================================================== *)

Module Sharding.

Definition SHARD_COUNT : Z := 16.

(** [ToInt32]: the signed 32-bit value of an integer. *)
Definition to_int32 (x : Z) : Z := (x + 2 ^ 31) mod 2 ^ 32 - 2 ^ 31.

(** [a << n] and [a & b] on numbers. *)
Definition shl32 (a n : Z) : Z := to_int32 (Z.shiftl (to_int32 a) n).
Definition and32 (a b : Z) : Z := to_int32 (Z.land (to_int32 a) (to_int32 b)).

(** One round of the loop of [getUserShard] for code unit [char]. *)
Definition hash_step (hash : Z) (char : ascii) : Z :=
  let hash := (shl32 hash 5 - hash) + Z.of_nat (nat_of_ascii char) in
  and32 hash hash.

Fixpoint hash_loop (hash : Z) (userId : string) : Z :=
  match userId with
  | EmptyString => hash
  | String char rest => hash_loop (hash_step hash char) rest
  end.

(** The polynomial the loop evaluates, without wrap-around:
    h ↦ 31·h + c for each code unit. *)
Fixpoint poly31 (hash : Z) (userId : string) : Z :=
  match userId with
  | EmptyString => hash
  | String char rest => poly31 (31 * hash + Z.of_nat (nat_of_ascii char)) rest
  end.

(** [Math.abs(hash) % SHARD_COUNT] *)
Definition getUserShard (userId : string) : Z :=
  Z.rem (Z.abs (hash_loop 0 userId)) SHARD_COUNT.

Definition getShardedChannel (baseChannel userId : string) : string :=
  baseChannel +:+ ":shard" +:+ pretty (getUserShard userId).

(** The channels [broadcastToAllShards] addresses:
    [Array.from({ length: SHARD_COUNT }, (_, i) => `${baseChannel}:shard${i}`)]. *)
Definition shard_channels (baseChannel : string) : list string :=
  (λ i, baseChannel +:+ ":shard" +:+ pretty i) <$> seqZ 0 SHARD_COUNT.

(** [sendBulkNotifications]: the loop
    [for (i = 0; i < channels.length; i += batchSize)] with
    [channels.slice(i, i + batchSize)]; [fuel] bounds the number of rounds. *)
Definition batchSize : nat := 50.

Fixpoint batches_from (fuel i : nat) (channels : list string) : list (list string) :=
  match fuel with
  | O => []
  | S fuel' =>
      if (i <? length channels)%nat then
        take batchSize (drop i channels) :: batches_from fuel' (i + batchSize) channels
      else []
  end.

Definition batches (channels : list string) : list (list string) :=
  batches_from (S (length channels)) 0 channels.

(** The broadcasts are awaited one after the other: the first that fails
    ends the function with its error. *)
Fixpoint broadcast_each (broadcastToChannels : list string → outcome unit)
    (bs : list (list string)) : list (list string) * outcome unit :=
  match bs with
  | [] => ([], Returns ())
  | b :: rest =>
      match broadcastToChannels b with
      | Returns _ =>
          let '(sent, res) := broadcast_each broadcastToChannels rest in
          (b :: sent, res)
      | Throws e => ([b], Throws e)
      end
  end.

(** The broadcasts attempted, in order, and the result of the call. *)
Definition sendBulkNotifications (broadcastToChannels : list string → outcome unit)
    (userIds : list string) : list (list string) * outcome unit :=
  let channels := (λ id, "$user:" +:+ id) <$> userIds in
  broadcast_each broadcastToChannels (batches channels).

End Sharding.

(* ================================================================== *)
(** ** Client address, response headers and the [rateLimit] helper     *)
(**    (rate-limiter.server.ts, sections 4 to 8)                       *)
(* ================================================================== *)

Module ClientIP.
Import Monitor.

(** [[0-9a-fA-F]] *)
Definition is_hex (c : ascii) : bool :=
  let n := nat_of_ascii c in
  is_digit c || ((97 <=? n)%nat && (n <=? 102)%nat) || ((65 <=? n)%nat && (n <=? 70)%nat).

Fixpoint string_drop (n : nat) (s : string) : string :=
  match n, s with
  | S k, String _ rest => string_drop k rest
  | _, _ => s
  end.

(** [/^(p{1,max}sep){groups}p{1,max}$/] for a separator outside the class
    [p]: each group is a whole run of 1 to [max] characters of [p]. *)
Fixpoint match_groups (p : ascii → bool) (max : nat) (sep : ascii) (groups : nat)
    (s : string) : bool :=
  let n := run_length p s in
  if (1 <=? n)%nat && (n <=? max)%nat then
    match groups, string_drop n s with
    | O, EmptyString => true
    | S g, String c rest => Ascii.eqb c sep && match_groups p max sep g rest
    | _, _ => false
    end
  else false.

(** [ipv4Regex.test(ip) || ipv6Regex.test(ip)] *)
Definition isValidIP (ip : string) : bool :=
  match_groups is_digit 3 "." 3 ip || match_groups is_hex 4 ":" 7 ip.

(** White space of [String.prototype.trim] among the characters a header
    value can hold. *)
Definition is_space (c : ascii) : bool :=
  let n := nat_of_ascii c in
  ((9 <=? n)%nat && (n <=? 13)%nat) || (n =? 32)%nat || (n =? 160)%nat.

Fixpoint trim_start (s : string) : string :=
  match s with
  | String c rest => if is_space c then trim_start rest else s
  | EmptyString => EmptyString
  end.

Definition trim (s : string) : string :=
  String.rev (trim_start (String.rev (trim_start s))).

(** [value.split(',')[0]] *)
Fixpoint before_comma (s : string) : string :=
  match s with
  | String c rest => if Ascii.eqb c "," then EmptyString else String c (before_comma rest)
  | EmptyString => EmptyString
  end.

Definition proxy_headers : list string :=
  ["cf-connecting-ip"; "x-real-ip"; "x-forwarded-for"; "x-client-ip"; "true-client-ip"].

(** The loop of [getClientIP] over the remaining header names. *)
Fixpoint first_valid (headers : gmap string string) (names : list string) : option string :=
  match names with
  | [] => None
  | header :: rest =>
      match headers !! header with
      | Some value =>
          if decide (value = "") then first_valid headers rest
          else
            let ip := trim (before_comma value) in
            if isValidIP ip then Some ip else first_valid headers rest
      | None => first_valid headers rest
      end
  end.

Definition getClientIP (headers : gmap string string) : string :=
  default "127.0.0.1" (first_valid headers proxy_headers).

(** Whether every character of [s] satisfies [p]. *)
Fixpoint all_chars (p : ascii → bool) (s : string) : bool :=
  match s with
  | String c rest => p c && all_chars p rest
  | EmptyString => true
  end.

End ClientIP.

Module RateLimitHttp.
Import Redis RateLimiter ClientIP.

Record Response : Type := mkResponse {
  status : Z;
  headers : gmap string string;
  body : MessageBatcher.json
}.

(** A number used as a condition: [undefined] and [0] are false. *)
Definition truthy (n : option Z) : bool :=
  match n with
  | Some r => negb (r =? 0)
  | None => false
  end.

Definition setRateLimitHeaders (headers : gmap string string) (result : RateLimitResult)
    : gmap string string :=
  let h1 := <["X-RateLimit-Limit" := pretty (total result)]> headers in
  let h2 := <["X-RateLimit-Remaining" := pretty (remaining result)]> h1 in
  let h3 := <["X-RateLimit-Reset" := pretty (ceil_div (resetAt result) 1000)]> h2 in
  if negb (allowed result) && truthy (retryAfter result) then
    <["Retry-After" := pretty (default 0 (retryAfter result))]> h3
  else h3.

(** The body before [JSON.stringify], which leaves out an undefined
    [retryAfter]. *)
Definition createRateLimitResponse (result : RateLimitResult) : Response :=
  mkResponse 429
    (setRateLimitHeaders {[ "Content-Type" := "application/json" ]} result)
    (MessageBatcher.JObj
       ([("error", MessageBatcher.JStr "Too Many Requests");
         ("message", MessageBatcher.JStr "요청 한도를 초과했습니다. 잠시 후 다시 시도해주세요.")] ++
        match retryAfter result with
        | Some r => [("retryAfter", MessageBatcher.JNum r)]
        | None => []
        end)).

(** [userId || getClientIP(request)] *)
Definition limiter_key (userId : option string) (request_headers : gmap string string)
    : string :=
  match userId with
  | Some u => if decide (u = "") then getClientIP request_headers else u
  | None => getClientIP request_headers
  end.

(** [rateLimit(request, type, userId)]: the world after the check and the
    response, [None] when the request may pass. *)
Definition rateLimit (redis_error : option string) (request_headers : gmap string string)
    (type : limit_class) (userId : option string) (now : Z) (rnd : N) (w : world)
    : world * outcome (option Response) :=
  let config := RATE_LIMITS type in
  let key := limiter_key userId request_headers in
  let c := checkRateLimit redis_error key config now rnd w in
  match answer c with
  | Returns result =>
      if allowed result then (world_after c, Returns None)
      else (world_after c, Returns (Some (createRateLimitResponse result)))
  | Throws e => (world_after c, Throws e)
  end.

(** [resetRateLimitStats()] and a sequence of [recordRateLimitStat] calls. *)
Definition resetRateLimitStats : Stats := mkStats 0 0 ∅.

Definition record_all (calls : list (string * bool)) (st : Stats) : Stats :=
  foldl (λ st c, recordRateLimitStat c.1 c.2 st) st calls.

(** The number of calls of [calls] that were blocked, and of those with
    key [key]. *)
Definition blocked_calls (calls : list (string * bool)) : Z :=
  Z.of_nat (length (filter (λ c, c.2 = false) calls)).

Definition blocked_calls_of (key : string) (calls : list (string * bool)) : Z :=
  Z.of_nat (length (filter (λ c, c.1 = key ∧ c.2 = false) calls)).

End RateLimitHttp.

(* ================================================================== *)
(** ** Workloads: bursts on the pipeline limiter, pending view counts, *)
(**    operations on the batcher, the monitor's keys                   *)
(* ================================================================== *)

Module PipelineBurst.
Import Redis StaticOptimizer.

(** The answers to a burst when [count] entries are in the window before
    its first check: every check counts, admitted or not. *)
Fixpoint tally (type : limit_type) (count : Z) (reqs : list member)
    : list RateLimitResult :=
  match reqs with
  | [] => []
  | (now, _) :: rest =>
      mkResult (count + 1 <=? maxRequests (RATE_LIMITS type))
        (Z.max 0 (maxRequests (RATE_LIMITS type) - (count + 1)))
        (now + windowMs (RATE_LIMITS type))
      :: tally type (count + 1) rest
  end.

Definition key_of (type : limit_type) (identifier : string) : string :=
  "ratelimit:" +:+ type_name type +:+ ":" +:+ identifier.

End PipelineBurst.

Module ViewCounterStore.
Import ViewCounter.

(** The views counted for post [id] and not yet flushed. *)
Definition pending (s : gmap string entry) (id : string) : Z :=
  match s !! VIEW_COUNTER id with
  | Some e => Z.max 0 (value e)
  | None => 0
  end.

(** [CACHE_KEYS.PARTICIPATION_COUNTER] *)
Definition PARTICIPATION_COUNTER (eventId : string) : string :=
  "counter:participations:" +:+ eventId.

End ViewCounterStore.

Module BatcherOps.
Import MessageBatcher.

(** What can happen to the batcher: a call of [queueMessage], or a flush
    started by the timer or the interval. *)
Inductive op : Type :=
| Enqueue (c : string) (d : json) (now : Z)
| Flush.

Section Ops.
Variable publishToChannel : string → json → outcome unit.

Definition apply_op (b : batcher) (o : op) : flush_result :=
  match o with
  | Enqueue c d now => queueMessage publishToChannel c d now b
  | Flush => flushMessageQueue publishToChannel b
  end.

Definition run_ops (b : batcher) (ops : list op) : batcher :=
  foldl (λ b o, after (apply_op b o)) b ops.

End Ops.

(** The message an operation adds to the queue. *)
Definition enqueued (o : op) : list QueuedMessage :=
  match o with
  | Enqueue c d now => [mkMsg c d now]
  | Flush => []
  end.

(** Between calls the queue is shorter than [maxSize], and a queue that is
    not empty has its timer armed. *)
Definition batcher_ok (b : batcher) : Prop :=
  (length (messageQueue b) < maxSize)%nat ∧
  (messageQueue b ≠ [] → is_Some (batchTimer b)).

End BatcherOps.

Module MonitorStore.
Import Monitor.

(** A recorded request: the minute it falls in and the arguments of
    [recordRequest]. *)
Record request : Type := mkRequest {
  r_minute : string;
  r_path : string;
  r_method : string;
  r_status : Z;
  r_latency : Z
}.

(** The commands of a sequence of [recordRequest] calls, each pipeline
    executed in turn. *)
Definition pipelines (reqs : list request) : list command :=
  concat ((λ r, recordRequest (r_minute r) (r_path r) (r_method r) (r_status r)
                  (r_latency r)) <$> reqs).

(** [LTRIM key start stop] on a list: negative indexes count from the end,
    an empty range gives the empty list. *)
Definition ltrim (start stop : Z) (l : list Z) : list Z :=
  let len := Z.of_nat (length l) in
  let start' := if start <? 0 then Z.max 0 (len + start) else start in
  let stop' := if stop <? 0 then len + stop else Z.min stop (len - 1) in
  if (stop' <? start') || (len <=? start') then []
  else take (Z.to_nat (stop' - start' + 1)) (drop (Z.to_nat start') l).

(** [LRANGE key 0 -1] and [GET key] of a counter after the commands [cmds]
    ran on an empty store. *)
Definition lrange_all (key : string) (cmds : list command) : list Z :=
  foldl (λ l cmd,
           match cmd with
           | LPUSH k v => if decide (k = key) then v :: l else l
           | LTRIM k start stop => if decide (k = key) then ltrim start stop l else l
           | _ => l
           end) [] cmds.

Definition get_counter (key : string) (cmds : list command) : Z :=
  foldl (λ n cmd,
           match cmd with
           | INCR k => if decide (k = key) then n + 1 else n
           | _ => n
           end) 0 cmds.

(** [HGET] on a hash in creation order. *)
Fixpoint hget (field : string) (hash : list (string * Z)) : option Z :=
  match hash with
  | [] => None
  | (f, v) :: rest => if decide (f = field) then Some v else hget field rest
  end.

(** The two hash fields of an endpoint. *)
Definition count_field (method path : string) : string :=
  method +:+ ":" +:+ path +:+ ":count".

Definition latency_field (method path : string) : string :=
  method +:+ ":" +:+ path +:+ ":latency".

(** The requests of [reqs] that fall in [minute], and among them those of
    an endpoint. *)
Definition in_minute (minute : string) (reqs : list request) : list request :=
  filter (λ r, r_minute r = minute) reqs.

Definition of_endpoint (method path : string) (reqs : list request) : list request :=
  filter (λ r, r_method r = method ∧ normalizePath (r_path r) = path) reqs.

(** No [':'] in a string. *)
Definition colon_free (s : string) : bool := negb (has_char ":" s).

(** Sum of the latencies of requests given as (path, method, status,
    latency). *)
Definition latency_sum (reqs : list (string * string * Z * Z)) : Z :=
  foldr Z.add 0 (snd <$> reqs).

End MonitorStore.

(* ================================================================== *)
(** ** Conditional requests and compression (static-optimizer.server.ts,
       sections 3 to 5)                                                *)
(* ================================================================== *)

Module Conditional.
Import Monitor ClientIP.

Inductive cache_policy : Type :=
  immutable | static | page | api | realtime | private | error.

Definition CACHE_POLICIES (p : cache_policy) : gmap string string :=
  match p with
  | immutable => {[ "Cache-Control" := "public, max-age=31536000, immutable";
                    "Vary" := "Accept-Encoding" ]}
  | static => {[ "Cache-Control" := "public, max-age=86400, stale-while-revalidate=604800";
                 "Vary" := "Accept-Encoding" ]}
  | page => {[ "Cache-Control" := "public, max-age=60, stale-while-revalidate=300";
               "Vary" := "Accept-Encoding, Accept" ]}
  | api => {[ "Cache-Control" := "public, max-age=10, stale-while-revalidate=30";
              "Vary" := "Accept-Encoding, Authorization" ]}
  | realtime => {[ "Cache-Control" := "no-cache, no-store, must-revalidate";
                   "Pragma" := "no-cache"; "Expires" := "0" ]}
  | private => {[ "Cache-Control" := "private, max-age=60";
                  "Vary" := "Accept-Encoding, Authorization, Cookie" ]}
  | error => {[ "Cache-Control" := "no-cache" ]}
  end.

(** [s.split(',')] *)
Fixpoint split_comma_from (acc s : string) : list string :=
  match s with
  | EmptyString => [acc]
  | String c rest =>
      if Ascii.eqb c "," then acc :: split_comma_from "" rest
      else split_comma_from (acc +:+ String c "") rest
  end.

Definition split_comma (s : string) : list string := split_comma_from "" s.

(** The double quote character. *)
Definition dquote : string := String "034" "".

Record conditional : Type := mkConditional {
  notModified : bool;
  c_headers : gmap string string
}.

Record Response : Type := mkResponse {
  status : Z;
  headers : gmap string string;
  body : option string
}.

(** [ifNoneMatch.split(',').map((t) => t.trim())] *)
Definition tags_of (ifNoneMatch : string) : list string := trim <$> split_comma ifNoneMatch.

Section Library.
(** The library functions the module calls: the hex digest of the MD5 hash,
    [Date.prototype.toUTCString] and [new Date(s)] (dates are milliseconds
    since the epoch; [None] is the invalid date, which compares false with
    everything). *)
Variable md5_hex : string → string.
Variable toUTCString : Z → string.
Variable parseDate : string → option Z.

Definition generateETag (content : string) : string :=
  dquote +:+ String.substring 0 16 (md5_hex content) +:+ dquote.

(** [checkConditionalRequest(request, etag, lastModified)]; the request
    headers are keyed by lower-case name ([Headers.get] ignores case), and a
    header that is absent or empty is falsy. *)
Definition checkConditionalRequest (request_headers : gmap string string)
    (etag : string) (lastModified : option Z) : conditional :=
  let headers :=
    match lastModified with
    | Some d => <["Last-Modified" := toUTCString d]> {[ "ETag" := etag ]}
    | None => {[ "ETag" := etag ]}
    end in
  let by_tag :=
    match request_headers !! "if-none-match" with
    | Some ifNoneMatch =>
        if decide (ifNoneMatch = "") then false
        else
          let tags := tags_of ifNoneMatch in
          bool_decide (etag ∈ tags) || bool_decide ("*" ∈ tags)
    | None => false
    end in
  if by_tag then mkConditional true headers
  else
    let by_date :=
      match lastModified with
      | Some d =>
          match request_headers !! "if-modified-since" with
          | Some ifModifiedSince =>
              if decide (ifModifiedSince = "") then false
              else match parseDate ifModifiedSince with
                   | Some clientDate => d <=? clientDate
                   | None => false
                   end
          | None => false
          end
      | None => false
      end in
    mkConditional by_date headers.

Definition createNotModifiedResponse (headers : gmap string string) : Response :=
  mkResponse 304 (<["Content-Length" := "0"]> headers) None.

(** [etag || generateETag(jsonString)] *)
Definition responseETag (jsonString : string) (etag : option string) : string :=
  match etag with
  | Some e => if decide (e = "") then generateETag jsonString else e
  | None => generateETag jsonString
  end.

(** [createOptimizedJsonResponse]; [jsonString] is [JSON.stringify(data)].
    In the object literal later spreads win. *)
Definition createOptimizedJsonResponse (jsonString : string)
    (request_headers : gmap string string) (cachePolicy : cache_policy)
    (etag : option string) (lastModified : option Z) : Response :=
  let c := checkConditionalRequest request_headers (responseETag jsonString etag)
             lastModified in
  if notModified c then createNotModifiedResponse (c_headers c)
  else
    mkResponse 200
      (c_headers c ∪ CACHE_POLICIES cachePolicy ∪
       {[ "Content-Type" := "application/json; charset=utf-8" ]})
      (Some jsonString).

End Library.

(** [s.includes(sub)] *)
Fixpoint includes (sub s : string) : bool :=
  String.prefix sub s ||
  match s with
  | String _ rest => includes sub rest
  | EmptyString => false
  end.

(** [detectCompressionSupport]: the argument is the [Accept-Encoding]
    header, [None] when absent. *)
Definition detectCompressionSupport (acceptEncodingHeader : option string) : option string :=
  let acceptEncoding := default "" acceptEncodingHeader in
  if includes "br" acceptEncoding then Some "br"
  else if includes "gzip" acceptEncoding then Some "gzip"
  else if includes "deflate" acceptEncoding then Some "deflate"
  else None.

Definition isCompressible (contentType : string) : bool :=
  existsb (λ type, includes type contentType)
    ["text/"; "application/json"; "application/javascript"; "application/xml";
     "image/svg+xml"].

(** A sample digest function for examples. *)
Definition sample_digest : string → string := λ _, "9e107d9d372bb6826bd81d3542a419d6".

End Conditional.

(* ================================================================== *)
(** ** System health (security-scanner.server.ts, monitor section 5)   *)
(* ================================================================== *)

Module Health.

Inductive health_status : Type := healthy | degraded | unhealthy.

Record SystemHealth : Type := mkHealth {
  h_status : health_status;
  database : bool;
  redis : bool;
  centrifugo : bool;
  warnings : list string
}.

Definition succeeded {T : Type} (r : outcome T) : bool :=
  match r with Returns _ => true | Throws _ => false end.

(** [checkSystemHealth()]: the arguments are the settled results of
    [redis.ping()], of the database query and of [centrifugo.info()]. *)
Definition checkSystemHealth (ping query info : outcome unit) : SystemHealth :=
  let w1 := if succeeded ping then [] else ["Redis 연결 실패"] in
  let w2 := if succeeded query then w1 else w1 ++ ["데이터베이스 연결 실패"] in
  let w3 := if succeeded info then w2 else w2 ++ ["Centrifugo 연결 실패"] in
  let healthyCount :=
    length (filter (λ b, b = true) [succeeded query; succeeded ping; succeeded info]) in
  let status :=
    if decide (healthyCount = 0%nat) then unhealthy
    else if decide (healthyCount < 3)%nat then degraded
    else healthy in
  mkHealth status (succeeded query) (succeeded ping) (succeeded info) w3.

End Health.

(* ================================================================== *)
(** ** Request tracking (request-tracker.server.ts)                    *)
(* ================================================================== *)

Module RequestTracker.
Import Monitor MonitorStore.

Section Handler.
(** Values a handler returns and values it throws; [response_status] is
    the status of a value that is a [Response]. *)
Context {T E : Type}.
Variable response_status : T → option Z.

Inductive settled : Type :=
| Fulfilled (v : T)
| Rejected (e : E).

(** What a wrapper does: how it settles and the calls of the monitor's
    [recordRequest] it makes. *)
Record tracked : Type := mkTracked {
  settles : settled;
  recorded : list request
}.

(** [endRequestTracking(tracking, request, statusCode)] at time [now]
    during [minute]; a failure of the recording is swallowed. *)
Definition endRequestTracking (startTime : Z) (minute pathname method : string)
    (statusCode now : Z) : list request :=
  [mkRequest minute pathname method statusCode (now - startTime)].

(** [withRequestTracking(request, handler)]: started at [startTime], the
    handler settles as [handler] at time [now]. *)
Definition withRequestTracking (minute pathname method : string) (startTime now : Z)
    (handler : settled) : tracked :=
  match handler with
  | Fulfilled response =>
      let statusCode := default 200 (response_status response) in
      mkTracked (Fulfilled response)
        (endRequestTracking startTime minute pathname method statusCode now)
  | Rejected error =>
      mkTracked (Rejected error)
        (endRequestTracking startTime minute pathname method 500 now)
  end.

(** [withSampledTracking]: [shouldSample] is [Math.random() < sampleRate]. *)
Definition withSampledTracking (shouldSample : bool) (minute pathname method : string)
    (startTime now : Z) (handler : settled) : tracked :=
  if shouldSample then withRequestTracking minute pathname method startTime now handler
  else mkTracked handler [].

End Handler.
Arguments settled : clear implicits.
Arguments tracked : clear implicits.

End RequestTracker.


(* ================================================================== *)
(** * Part II: properties                                              *)
(* ================================================================== *)

Module CircuitBreakerFacts.
Import CircuitBreaker.

Section Facts.
Context {T : Type}.
Implicit Types (cs : gmap string CircuitState) (st : CircuitState)
  (fn : outcome T) (fallback : option (outcome T)) (name : string).

Lemma get_state_Some cs name st : cs !! name = Some st → get_state cs name = st.
Proof. unfold get_state. by intros ->. Qed.

Lemma get_state_None cs name : cs !! name = None → get_state cs name = mkCircuit 0 0 closed.
Proof. unfold get_state. by intros ->. Qed.

Lemma states_other name name' fn fallback now cs :
  name ≠ name' →
  states (withCircuitBreaker name fn fallback now cs) !! name' = cs !! name'.
Proof.
  intros Hne. unfold withCircuitBreaker, attempt, on_failure.
  repeat (case_match; simpl); rewrite ?lookup_insert_ne; done.
Qed.

Lemma well_formed_step cs (c : call T) : well_formed cs → well_formed (step cs c).
Proof.
  intros Hwf name st. unfold step.
  destruct (decide (c_name c = name)) as [<-|Hne];
    [|rewrite states_other; [apply Hwf | done]].
  pose proof (Hwf (c_name c)) as Hn.
  unfold withCircuitBreaker, attempt, on_failure, get_state, tripped_ok in *.
  destruct (cs !! c_name c) as [s0|] eqn:Hs0; simpl in *.
  - destruct (Hn s0 eq_refl) as (Hh & Ht & Hc).
    destruct s0 as [f l []]; simpl in *; try done;
      repeat (case_match; simpl in *);
      rewrite ?lookup_insert_eq, ?Hs0; intros [= <-]; simpl;
      unfold CIRCUIT_THRESHOLD in *; repeat split; try done; try lia;
      try (specialize (Ht ltac:(done)); lia).
  - repeat (case_match; simpl in *);
      rewrite ?lookup_insert_eq, ?Hs0; try done; intros [= <-]; simpl;
      unfold CIRCUIT_THRESHOLD in *; repeat split; try done; lia.
Qed.

Lemma reachable_well_formed cs : reachable T cs → well_formed cs.
Proof.
  induction 1 as [|cs c _ IH]; [by intros ? ? ?|by apply well_formed_step].
Qed.

Lemma reachable_run cs (cl : list (call T)) : reachable T cs → reachable T (run cs cl).
Proof.
  revert cs. induction cl as [|c cl IH]; intros cs Hr; [done|].
  apply IH. by constructor.
Qed.

(** A successful call on a closed circuit leaves the whole map as it was. *)
Lemma closed_success_unchanged cs name v fallback now :
  state (get_state cs name) = closed →
  withCircuitBreaker name (Returns v) fallback now cs = mkCall cs (Returns v) [CallPrimary].
Proof. intros Hc. unfold withCircuitBreaker, attempt. by rewrite Hc. Qed.

(** A failing call on a closed circuit adds one to the stored count and opens
    the circuit exactly when the new count reaches the threshold. *)
Lemma closed_failure_counts cs name e fallback now :
  state (get_state cs name) = closed →
  get_state (states (withCircuitBreaker name (Throws e) fallback now cs)) name =
    mkCircuit (failures (get_state cs name) + 1) now
      (if CIRCUIT_THRESHOLD <=? failures (get_state cs name) + 1 then open else closed).
Proof.
  intros Hc. unfold withCircuitBreaker, attempt, on_failure. cbv zeta. rewrite Hc.
  destruct fallback; simpl; unfold get_state at 1; by rewrite lookup_insert_eq.
Qed.

Lemma get_state_other name name' fn fallback now cs :
  name ≠ name' →
  get_state (states (withCircuitBreaker name fn fallback now cs)) name' = get_state cs name'.
Proof. intros Hne. unfold get_state. by rewrite states_other. Qed.

Lemma failures_of_cons name (c : call T) cl :
  failures_of name (c :: cl) =
    (if decide (c_name c = name ∧ is_failure c = true) then 1 else 0) + failures_of name cl.
Proof.
  unfold failures_of. rewrite filter_cons.
  destruct (decide _); simpl length; lia.
Qed.

Lemma failures_of_app name (cl1 cl2 : list (call T)) :
  failures_of name (cl1 ++ cl2) = failures_of name cl1 + failures_of name cl2.
Proof. unfold failures_of. rewrite filter_app, length_app. lia. Qed.

Lemma failures_of_nonneg name (cl : list (call T)) : 0 ≤ failures_of name cl.
Proof. unfold failures_of. lia. Qed.

(** While fewer than the threshold of failures have been seen, the circuit
    stays closed and its stored count is the number of failures so far,
    whatever successful calls and calls on other operations come between. *)
Lemma closed_run_counts name (cl : list (call T)) cs :
  state (get_state cs name) = closed →
  failures (get_state cs name) + failures_of name cl < CIRCUIT_THRESHOLD →
  state (get_state (run cs cl) name) = closed ∧
  failures (get_state (run cs cl) name) = failures (get_state cs name) + failures_of name cl.
Proof.
  revert cs. induction cl as [|c cl IH]; intros cs Hc Hlt.
  - simpl. unfold failures_of. simpl. split; [done|lia].
  - rewrite failures_of_cons in Hlt |- *.
    pose proof (failures_of_nonneg name cl) as Hnn.
    change (run cs (c :: cl)) with (run (step cs c) cl).
    assert (state (get_state (step cs c) name) = closed ∧
            failures (get_state (step cs c) name) =
              failures (get_state cs name) +
              (if decide (c_name c = name ∧ is_failure c = true) then 1 else 0))
      as [Hc1 Hf1].
    { unfold step. destruct (decide (c_name c = name)) as [Hn|Hn].
      - destruct c as [cn [v|e] fb t]; simpl in *; subst cn.
        + rewrite closed_success_unchanged by done. simpl.
          destruct (decide _) as [[_ ?]|_]; [done|]. split; [done|lia].
        + destruct (decide _) as [_|Hno]; [|by destruct Hno].
          rewrite closed_failure_counts by done.
          destruct (Z.leb_spec CIRCUIT_THRESHOLD (failures (get_state cs name) + 1));
            [lia|done].
      - destruct (decide _) as [[? _]|_]; [done|].
        rewrite get_state_other by done. split; [done|lia]. }
    destruct (IH (step cs c) Hc1 ltac:(lia)) as [-> ->]. split; [done|lia].
Qed.

End Facts.

(** C3: while a circuit is open and no more than the timeout has elapsed
    since its last failure, a call does not invoke the primary function,
    leaves the state alone, and returns the fallback's result when a fallback
    is given and otherwise throws "Circuit breaker open for <name>".  Once
    more than the timeout has elapsed the call invokes the primary function
    (the half-open trial); if the trial succeeds the circuit is stored as
    closed with failure count 0, and if it fails the circuit is stored as
    open again with the failure time set to the time of the trial. *)
Theorem C3_open_circuit_fast_fail_and_trial {T : Type}
    (cs : gmap string CircuitState) (name : string) (st : CircuitState)
    (fn : outcome T) (fallback : option (outcome T)) (now : Z) :
  reachable T cs →
  cs !! name = Some st →
  state st = open →
  let r := withCircuitBreaker name fn fallback now cs in
  (now - lastFailure st ≤ CIRCUIT_TIMEOUT →
     (CallPrimary ∉ trace r) ∧
     states r = cs ∧
     result r = match fallback with
                | Some v => v
                | None => Throws ("Circuit breaker open for " +:+ name)
                end ∧
     trace r = match fallback with Some _ => [CallFallback] | None => [] end) ∧
  (CIRCUIT_TIMEOUT < now - lastFailure st →
     head (trace r) = Some CallPrimary ∧
     (∀ v, fn = Returns v →
        result r = Returns v ∧ states r !! name = Some (mkCircuit 0 0 closed)) ∧
     (∀ e, fn = Throws e →
        states r !! name = Some (mkCircuit (failures st + 1) now open) ∧
        result r = match fallback with Some v => v | None => Throws e end)).
Proof.
  intros Hr Hst Hopen r. subst r.
  destruct (reachable_well_formed _ Hr name st Hst) as (_ & Htrip & _).
  unfold tripped_ok in Htrip. specialize (Htrip ltac:(by rewrite Hopen)).
  unfold withCircuitBreaker. rewrite (get_state_Some _ _ _ Hst), Hopen.
  split; intros Ht.
  - destruct (Z.ltb_spec CIRCUIT_TIMEOUT (now - lastFailure st)); [lia|].
    destruct fallback; simpl; split_and!; try done;
      [by intros ?%list_elem_of_singleton | apply not_elem_of_nil].
  - destruct (Z.ltb_spec CIRCUIT_TIMEOUT (now - lastFailure st)); [|lia].
    unfold attempt, on_failure. simpl.
    destruct fn as [v|e]; simpl.
    + split; [done|]. split; [|done].
      intros v' [= <-]. by rewrite lookup_insert_eq.
    + destruct (Z.leb_spec CIRCUIT_THRESHOLD (failures st + 1)); [|lia].
      destruct fallback; simpl; (split; [done|]); (split; [done|]);
        intros e' [= <-]; by rewrite lookup_insert_eq.
Qed.

(** C10: a successful call on a closed circuit changes nothing in the state
    map, so the stored failure count is neither reset nor decremented; a call
    after which the stored count is smaller found the circuit not closed and
    its primary function succeeded (the half-open trial); hence, starting
    from a closed circuit with count 0, a workload whose calls on the
    operation fail exactly threshold-many times, in any interleaving with
    successful calls and with calls on other operations, and whose last call
    is such a failure, leaves the circuit open with the threshold as count. *)
Theorem C10_closed_success_keeps_count {T : Type}
    (cs : gmap string CircuitState) (name : string) :
  (state (get_state cs name) = closed →
   ∀ (v : T) fallback now,
     states (withCircuitBreaker name (Returns v) fallback now cs) = cs) ∧
  (∀ (fn : outcome T) fallback now,
     failures (get_state (states (withCircuitBreaker name fn fallback now cs)) name)
       < failures (get_state cs name) →
     state (get_state cs name) ≠ closed ∧ ∃ v, fn = Returns v) ∧
  (state (get_state cs name) = closed →
   failures (get_state cs name) = 0 →
   ∀ (cl : list (call T)) (c : call T),
     c_name c = name → is_failure c = true →
     failures_of name (cl ++ [c]) = CIRCUIT_THRESHOLD →
     state (get_state (run cs (cl ++ [c])) name) = open ∧
     failures (get_state (run cs (cl ++ [c])) name) = CIRCUIT_THRESHOLD).
Proof.
  split_and!.
  - intros Hc v fb now. by rewrite closed_success_unchanged.
  - intros fn fb now. unfold withCircuitBreaker, attempt, on_failure. cbv zeta.
    destruct (get_state cs name) as [f l ph] eqn:Hst. simpl.
    destruct ph, fn as [v|e]; simpl;
      repeat (case_match; simpl); unfold get_state;
      rewrite ?lookup_insert_eq; fold (get_state cs name); rewrite ?Hst; simpl;
      try lia; eauto.
  - intros Hc H0 cl c Hn Hf Hcount.
    rewrite failures_of_app, failures_of_cons in Hcount.
    destruct (decide _) as [_|Hno]; [|by destruct Hno].
    change (failures_of name []) with 0 in Hcount.
    destruct (closed_run_counts name cl cs Hc ltac:(lia)) as [Hc' Hf'].
    unfold run. rewrite foldl_app. simpl. fold (run cs cl).
    unfold step. destruct c as [cn [v|e] fb t]; simpl in *; [done|]. subst cn.
    rewrite (closed_failure_counts _ _ _ _ _ Hc'), Hf', H0.
    destruct (Z.leb_spec CIRCUIT_THRESHOLD (0 + failures_of name cl + 1)); simpl;
      [split; [done|lia] | lia].
Qed.

Lemma C3_open_circuit_witness :
  reachable Z tripped ∧
  tripped !! "db" = Some (mkCircuit 5 5 open) ∧
  result (withCircuitBreaker "db" (Returns 7) (Some (Returns 0)) 100 tripped) = Returns 0 ∧
  trace (withCircuitBreaker "db" (Returns 7) (Some (Returns 0)) 100 tripped) = [CallFallback].
Proof.
  assert (Hr : reachable Z tripped) by (apply reachable_run; constructor).
  assert (Hl : tripped !! "db" = Some (mkCircuit 5 5 open)) by (vm_compute; reflexivity).
  split; [exact Hr|]. split; [exact Hl|].
  destruct (C3_open_circuit_fast_fail_and_trial tripped "db" (mkCircuit 5 5 open)
              (Returns 7) (Some (Returns 0)) 100 Hr Hl eq_refl) as [Hfast _].
  destruct (Hfast ltac:(vm_compute; discriminate)) as (_ & _ & Hres & Htr).
  split; [exact Hres | exact Htr].
Defined.

Lemma C10_closed_success_witness :
  state (get_state (run ∅ [db_fails 1; mkReq "db" (Returns 1) None 2; db_fails 3;
                           mkReq "cache" (Returns 1) None 4; db_fails 5;
                           db_fails 6; mkReq "db" (Returns 2) None 7; db_fails 8]) "db")
    = open.
Proof.
  assert (Hc : state (get_state (∅ : gmap string CircuitState) "db") = closed)
    by (vm_compute; reflexivity).
  assert (H0 : failures (get_state (∅ : gmap string CircuitState) "db") = 0)
    by (vm_compute; reflexivity).
  destruct (C10_closed_success_keeps_count (T:=Z) ∅ "db") as (_ & _ & Hopen).
  refine (proj1 (Hopen Hc H0
    [db_fails 1; mkReq "db" (Returns 1) None 2; db_fails 3;
     mkReq "cache" (Returns 1) None 4; db_fails 5;
     db_fails 6; mkReq "db" (Returns 2) None 7]
    (db_fails 8) eq_refl eq_refl _)).
  vm_compute; reflexivity.
Defined.

End CircuitBreakerFacts.

Module MessageBatcherFacts.
Import MessageBatcher.

Implicit Types (groups : list (string * list json)) (q : list QueuedMessage)
  (c : string) (d : json).

Lemma group_of_cons c c' ds groups :
  group_of c ((c', ds) :: groups) = if decide (c' = c) then ds else group_of c groups.
Proof. done. Qed.

Lemma group_of_absent c groups : c ∉ groups.*1 → group_of c groups = [].
Proof.
  induction groups as [|[c0 ds] groups IH]; [done|]. simpl.
  intros Hnin. apply not_elem_of_cons in Hnin as [Hne Hnin].
  rewrite decide_False by done. by apply IH.
Qed.

Lemma group_of_push c c' d groups :
  group_of c (group_push groups c' d) =
    if decide (c' = c) then group_of c groups ++ [d] else group_of c groups.
Proof.
  induction groups as [|[c0 ds] groups IH]; simpl.
  - by destruct (decide (c' = c)).
  - destruct (decide (c0 = c')) as [->|Hne]; rewrite !group_of_cons.
    + by destruct (decide (c' = c)).
    + rewrite IH. destruct (decide (c0 = c)), (decide (c' = c)); congruence.
Qed.

Lemma keys_push groups c d :
  (group_push groups c d).*1 =
    if decide (c ∈ groups.*1) then groups.*1 else groups.*1 ++ [c].
Proof.
  induction groups as [|[c0 ds] groups IH].
  - simpl. destruct (decide (c ∈ [])) as [Hin|_]; [by apply elem_of_nil in Hin|done].
  - simpl group_push. destruct (decide (c0 = c)) as [->|Hne]; rewrite !fmap_cons; simpl fst.
    + rewrite decide_True; [done|by left].
    + rewrite IH. destruct (decide (c ∈ groups.*1)) as [Hin|Hnin].
      * rewrite decide_True; [done|by right].
      * rewrite decide_False; [done|]. intros [?|?]%elem_of_cons; congruence.
Qed.

Lemma NoDup_keys_push groups c d : NoDup groups.*1 → NoDup (group_push groups c d).*1.
Proof.
  intros Hnd. rewrite keys_push. destruct (decide _); [done|].
  apply NoDup_app. split_and!; [done| |apply NoDup_singleton].
  intros x Hx ->%list_elem_of_singleton. done.
Qed.

Lemma nonempty_push groups c d :
  Forall (λ g, g.2 ≠ []) groups → Forall (λ g, g.2 ≠ []) (group_push groups c d).
Proof.
  induction 1 as [|[c0 ds] groups Hg Hrest IH]; simpl.
  - by repeat constructor.
  - destruct (decide (c0 = c)); constructor; simpl in *; try done.
    by destruct ds.
Qed.

(** Grouping a queue on top of existing groups: keys stay distinct, no group
    is empty, and the group of each channel is extended by that channel's
    payloads in queue order. *)
Lemma fold_groups q groups :
  NoDup groups.*1 → Forall (λ g, g.2 ≠ []) groups →
  let groups' := foldl (λ groups msg, group_push groups (channel msg) (data msg)) groups q in
  NoDup groups'.*1 ∧ Forall (λ g, g.2 ≠ []) groups' ∧
  ∀ c, group_of c groups' = group_of c groups ++ pending_for c q.
Proof.
  revert groups. induction q as [|m q IH]; intros groups Hnd Hne; simpl.
  - split_and!; try done. intros c. unfold pending_for. simpl. by rewrite app_nil_r.
  - destruct (IH (group_push groups (channel m) (data m))
                (NoDup_keys_push _ _ _ Hnd) (nonempty_push _ _ _ Hne)) as (H1 & H2 & H3).
    split_and!; try done. intros c. rewrite H3, group_of_push.
    unfold pending_for. rewrite filter_cons.
    destruct (decide (channel m = c)); simpl; [by rewrite <- app_assoc|done].
Qed.

Lemma channelGroups_spec q :
  NoDup (channelGroups q).*1 ∧ Forall (λ g, g.2 ≠ []) (channelGroups q) ∧
  ∀ c, group_of c (channelGroups q) = pending_for c q.
Proof.
  exact (fold_groups q [] (NoDup_nil_2) (Forall_nil_2 _)).
Qed.

(** With distinct keys, the publishes addressed to one channel are the single
    publish of that channel's group, when it has one. *)
Lemma filter_calls c groups :
  NoDup groups.*1 → Forall (λ g, g.2 ≠ []) groups →
  filter (λ p : string * json, p.1 = c) (map (λ g, (g.1, payload_of g.2)) groups) =
    match group_of c groups with
    | [] => []
    | ds => [(c, payload_of ds)]
    end.
Proof.
  induction groups as [|[c0 ds] groups IH]; intros Hnd Hne; [done|].
  rewrite fmap_cons in Hnd.
  apply NoDup_cons in Hnd as [Hnin Hnd]. apply Forall_cons in Hne as [Hds Hne].
  simpl in Hds, Hnin. simpl map. rewrite filter_cons. simpl.
  destruct (decide (c0 = c)) as [->|Hneq].
  - rewrite IH, (group_of_absent c groups) by done. by destruct ds.
  - by apply IH.
Qed.

Lemma flush_published publishToChannel (b : batcher) :
  published (flushMessageQueue publishToChannel b) =
    map (λ g, (g.1, payload_of g.2)) (channelGroups (messageQueue b)).
Proof.
  unfold flushMessageQueue. destruct (messageQueue b) as [|m q]; [done|].
  by destruct (Promise_all _).
Qed.

(** C6: a flush publishes, for every channel, exactly what that channel has
    pending in the queue, in enqueue order: nothing when nothing is pending,
    the payload itself when one message is pending, and otherwise one object
    {type: 'batch', messages: <the payloads in enqueue order>, count: k}. *)
Theorem C6_flush_groups_by_channel
    (publishToChannel : string → json → outcome unit) (b : batcher) (c : string) :
  published_to c (flushMessageQueue publishToChannel b) =
    match pending_for c (messageQueue b) with
    | [] => []
    | [d] => [(c, d)]
    | ds => [(c, JObj [("type", JStr "batch");
                       ("messages", JArr ds);
                       ("count", JNum (Z.of_nat (length ds)))])]
    end.
Proof.
  unfold published_to. rewrite flush_published.
  destruct (channelGroups_spec (messageQueue b)) as (Hnd & Hne & Hg).
  rewrite filter_calls, Hg by done.
  by destruct (pending_for c (messageQueue b)) as [|d1 [|d2 ds]].
Qed.

(** The scenario of the specification: three messages to A and one to B. *)
Example flush_three_A_one_B :
  published (flushMessageQueue (λ _ _, Returns ()) three_A_one_B) =
    [("A", JObj [("type", JStr "batch");
                 ("messages", JArr [JNum 1; JNum 2; JNum 4]);
                 ("count", JNum 3)]);
     ("B", JNum 3)].
Proof. reflexivity. Qed.

(** C8: whatever the delivery service answers, a flush returns normally and
    leaves the batcher with an empty queue and no timer; when a publish of the
    cycle fails, the only log line is the failure; a following flush publishes
    nothing, so the failed messages are not retried; and [queueMessage]
    returns normally as well. *)
Theorem C8_failed_publish_drops_batch
    (publishToChannel : string → json → outcome unit) (b : batcher) :
  let r := flushMessageQueue publishToChannel b in
  returns r = Returns () ∧
  after r = mkBatcher [] None ∧
  (∀ e, Promise_all (map (λ p, publishToChannel p.1 p.2) (published r)) = Throws e →
        log r = [LogPublishFailed e]) ∧
  (∀ publish', published (flushMessageQueue publish' (after r)) = []) ∧
  (∀ c d now, returns (queueMessage publishToChannel c d now b) = Returns ()).
Proof.
  assert (Hflush : ∀ b', returns (flushMessageQueue publishToChannel b') = Returns () ∧
                         after (flushMessageQueue publishToChannel b') = mkBatcher [] None).
  { intros b'. unfold flushMessageQueue. destruct (messageQueue b'); [done|].
    by destruct (Promise_all _). }
  simpl. destruct (Hflush b) as [Hret Hafter]. split_and!; try done.
  - intros e He. rewrite flush_published in He. unfold flushMessageQueue.
    destruct (messageQueue b) as [|m q]; [done|]. cbv zeta. by rewrite He.
  - intros publish'. by rewrite Hafter.
  - intros c d now. unfold queueMessage. destruct (decide _); [apply Hflush|].
    by destruct (batchTimer b).
Qed.

Lemma C8_failed_publish_witness :
  log (flushMessageQueue delivery_down three_A_one_B) = [LogPublishFailed "unreachable"].
Proof.
  exact (proj1 (proj2 (proj2 (C8_failed_publish_drops_batch delivery_down three_A_one_B)))
           "unreachable" eq_refl).
Defined.

End MessageBatcherFacts.

Module RedisFacts.
Import Redis.

Implicit Types (z : gmap member Z) (s : gmap string zkey) (m : member)
  (l : list member).

Lemma zset_of_snoc l m : zset_of (l ++ [m]) = zadd m.1 m (zset_of l).
Proof. unfold zset_of. by rewrite foldl_app. Qed.

Lemma zset_of_lookup l m :
  zset_of l !! m = if decide (m ∈ l) then Some m.1 else None.
Proof.
  induction l as [|m' l IH] using rev_ind.
  - rewrite decide_False by apply not_elem_of_nil. apply lookup_empty.
  - rewrite zset_of_snoc. unfold zadd. destruct (decide (m' = m)) as [->|Hne].
    + rewrite lookup_insert_eq, decide_True; [done|].
      apply elem_of_app. right. by apply list_elem_of_singleton.
    + rewrite lookup_insert_ne, IH by done.
      destruct (decide (m ∈ l)) as [Hin|Hnin].
      * rewrite decide_True; [done|]. apply elem_of_app. by left.
      * rewrite decide_False; [done|].
        intros [?|?%list_elem_of_singleton]%elem_of_app; congruence.
Qed.

Lemma zset_of_size l : NoDup l → size (zset_of l) = length l.
Proof.
  induction l as [|m l IH] using rev_ind; intros Hnd; [apply map_size_empty|].
  apply NoDup_app in Hnd as (Hnd & Hfresh & _).
  rewrite zset_of_snoc, length_app. unfold zadd.
  rewrite map_size_insert_None, IH; simpl; [lia|done|].
  rewrite zset_of_lookup, decide_False; [done|].
  intros Hin. apply (Hfresh m Hin). by apply list_elem_of_singleton.
Qed.

Lemma zset_of_score l m sc : zset_of l !! m = Some sc → m ∈ l ∧ sc = m.1.
Proof. rewrite zset_of_lookup. destruct (decide (m ∈ l)); naive_solver. Qed.

(** Purging removes nothing when every score is above the bound. *)
Lemma purge_none max z :
  (∀ m sc, z !! m = Some sc → max < sc) → zremrangebyscore_upto max z = z.
Proof.
  intros Hall. unfold zremrangebyscore_upto. apply map_filter_id.
  intros m sc Hm. simpl. by eapply Hall.
Qed.

Lemma purge_subseteq max z : zremrangebyscore_upto max z ⊆ z.
Proof. apply map_filter_subseteq. Qed.

Lemma purge_size max z : (size (zremrangebyscore_upto max z) ≤ size z)%nat.
Proof. apply map_subseteq_size, purge_subseteq. Qed.

Lemma purge_score max z m sc :
  zremrangebyscore_upto max z !! m = Some sc → max < sc ∧ z !! m = Some sc.
Proof.
  unfold zremrangebyscore_upto. intros [? ?]%map_lookup_filter_Some. done.
Qed.

(** Purging an entry that is due makes the set strictly smaller. *)
Lemma purge_size_lt max z m sc :
  z !! m = Some sc → sc ≤ max → (size (zremrangebyscore_upto max z) < size z)%nat.
Proof.
  intros Hm Hsc.
  assert (zremrangebyscore_upto max z ⊆ delete m z) as Hsub.
  { apply map_subseteq_spec. intros m' sc' [Hgt Hm']%purge_score.
    rewrite lookup_delete_ne; [done|]. intros ->. simplify_eq. lia. }
  apply map_subseteq_size in Hsub. rewrite map_size_delete_Some in Hsub by eauto.
  assert (size z ≠ 0%nat); [|lia].
  intros ->%map_size_empty_inv. by rewrite lookup_empty in Hm.
Qed.

Lemma zget_cases s key now : zget s key now = ∅ ∨ zget s key now = zstored s key.
Proof.
  unfold zget, live, zstored. destruct (s !! key) as [k|]; simpl; [|by left].
  destruct (expired k now); [by left|by right].
Qed.

Lemma zget_size s key now : (size (zget s key now) ≤ size (zstored s key))%nat.
Proof.
  destruct (zget_cases s key now) as [->| ->]; [|done].
  rewrite map_size_empty. lia.
Qed.

Lemma live_Some s key now z e :
  s !! key = Some (mkZKey z (Some e)) → now ≤ e →
  live s key now = Some (mkZKey z (Some e)).
Proof.
  intros Hs He. unfold live, expired. rewrite Hs. simpl.
  destruct (Z.ltb_spec e now); [lia|done].
Qed.

Lemma zget_live s key now z e :
  s !! key = Some (mkZKey z (Some e)) → now ≤ e → zget s key now = z.
Proof. intros Hs He. unfold zget. by rewrite (live_Some _ _ _ _ _ Hs He). Qed.

Lemma ttl_of_live s key now z e :
  s !! key = Some (mkZKey z (Some e)) → now ≤ e → ttl_of s key now = Some e.
Proof. intros Hs He. unfold ttl_of. by rewrite (live_Some _ _ _ _ _ Hs He). Qed.

Lemma zget_None s key now : s !! key = None → zget s key now = ∅.
Proof. intros Hs. unfold zget, live. by rewrite Hs. Qed.

(** A key written with the TTL that was found at [now] is live at [now]. *)
Lemma live_insert_ttl s s' key z now :
  live (<[key := mkZKey z (ttl_of s key now)]> s') key now =
    Some (mkZKey z (ttl_of s key now)).
Proof.
  unfold live at 1. rewrite lookup_insert_eq.
  unfold expired, ttl_of, live, expired. simpl.
  destruct (s !! key) as [[z0 [e|]]|]; simpl; try done.
  destruct (e <? now) eqn:He; simpl; [done|by rewrite He].
Qed.

Lemma live_zput s key z now :
  live (zput s key z (ttl_of s key now)) key now =
    if decide (z = ∅) then None else Some (mkZKey z (ttl_of s key now)).
Proof.
  unfold zput. destruct (decide (z = ∅)) as [->|Hne].
  - unfold live. by rewrite lookup_delete_eq.
  - apply live_insert_ttl.
Qed.

Lemma zget_zput s key z now :
  zget (zput s key z (ttl_of s key now)) key now = z.
Proof. unfold zget. rewrite live_zput. by destruct (decide (z = ∅)) as [->|]. Qed.

Lemma zstored_zput s key z ttl : zstored (zput s key z ttl) key = z.
Proof.
  unfold zput, zstored. destruct (decide (z = ∅)) as [->|Hne].
  - by rewrite lookup_delete_eq.
  - by rewrite lookup_insert_eq.
Qed.

Lemma insert_zput s key z ttl k : <[key := k]> (zput s key z ttl) = <[key := k]> s.
Proof.
  unfold zput. destruct (decide (z = ∅)).
  - apply insert_delete_eq.
  - apply insert_insert_eq.
Qed.

Lemma delete_zput s key z ttl : delete key (zput s key z ttl) = delete key s.
Proof.
  unfold zput. destruct (decide (z = ∅)).
  - apply delete_delete_eq.
  - apply delete_insert_eq.
Qed.

Lemma zget_ZADD key score m now s :
  zget (ZADD key score m now s) key now = zadd score m (zget s key now).
Proof. unfold ZADD, zget at 1. by rewrite live_insert_ttl. Qed.

(** [ZADD] followed by [PEXPIRE], both at [now]. *)
Lemma PEXPIRE_ZADD key score m ms now s :
  PEXPIRE key ms now (ZADD key score m now s) =
    if ms <=? 0 then delete key s
    else <[key := mkZKey (zadd score m (zget s key now)) (Some (now + ms))]> s.
Proof.
  unfold PEXPIRE, ZADD. rewrite live_insert_ttl. simpl.
  destruct (ms <=? 0); [apply delete_insert_eq|apply insert_insert_eq].
Qed.

End RedisFacts.

Module RateLimiterFacts.
Import Redis RedisFacts RateLimiter.

(** The script in closed form: what it leaves under the key and what it
    returns, in terms of the set found after the purge. *)
Lemma script_closed (s : gmap string zkey) key windowStart now maxRequests windowMs rnd :
  script s key windowStart now maxRequests windowMs rnd =
    let z := zremrangebyscore_upto windowStart (zget s key now) in
    if zcard z <? maxRequests then
      ((if windowMs <=? 0 then delete key s
        else <[key := mkZKey (zadd now (now, rnd) z) (Some (now + windowMs))]> s),
       (1, zcard z + 1))
    else (zput s key z (ttl_of s key now), (0, zcard z)).
Proof.
  unfold script, ZREMRANGEBYSCORE_upto, ZCARD. cbv zeta. rewrite zget_zput.
  destruct (_ <? _); [|done].
  by rewrite PEXPIRE_ZADD, zget_zput, delete_zput, insert_zput.
Qed.

Section Window.
Variables (identifier : string) (config : RateLimitConfig) (t0 : Z).
Let key := key_of config identifier.
Let W := windowMs config.
Let M := maxRequests config.

Implicit Types (w : world) (served : list member).

Lemma window_inv_zget served w now :
  window_inv key (t0 + W) served (store w) → now < t0 + W →
  zget (store w) key now = zset_of served.
Proof.
  intros [[-> Hs]|(e & Hs & He)] Hnow.
  - by apply zget_None.
  - eapply zget_live; [done|lia].
Qed.

Lemma window_no_purge served now :
  Forall (λ m, t0 ≤ m.1) served → now < t0 + W →
  zremrangebyscore_upto (now - W) (zset_of served) = zset_of served.
Proof.
  intros Hsc Hnow. apply purge_none. intros m sc [Hin ->]%zset_of_score.
  rewrite Forall_forall in Hsc. specialize (Hsc m Hin). simpl in Hsc. lia.
Qed.

(** A check inside the window that finds fewer than [M] entries is admitted
    and its entry is added. *)
Lemma check_admits served w t r :
  window_inv key (t0 + W) served (store w) →
  Forall (λ m, t0 ≤ m.1) served → NoDup served → (t, r) ∉ served →
  Z.of_nat (length served) < M → t0 ≤ t < t0 + W →
  let c := checkRateLimit None identifier config t r w in
  answer c = Returns (admitted config t (M - Z.of_nat (length served) - 1)) ∧
  window_inv key (t0 + W) (served ++ [(t, r)]) (store (world_after c)) ∧
  stats (world_after c) = stats w.
Proof.
  intros Hinv Hsc Hnd Hfresh Hlt Ht.
  unfold checkRateLimit. rewrite script_closed. cbv zeta. fold key W M.
  rewrite (window_inv_zget served w t Hinv) by lia.
  rewrite window_no_purge by (done || lia).
  unfold zcard. rewrite zset_of_size by done.
  destruct (Z.ltb_spec (Z.of_nat (length served)) M); [|lia].
  destruct (Z.leb_spec W 0); [lia|]. simpl.
  split_and!; [|right|done].
  - unfold admitted. fold W M. do 2 f_equal. lia.
  - exists (t + W). split; [|lia].
    rewrite lookup_insert_eq, zset_of_snoc. done.
Qed.

(** A check inside the window that finds [M] entries is rejected and
    leaves the key as it is. *)
Lemma check_rejects served w t r :
  window_inv key (t0 + W) served (store w) → served ≠ [] →
  Forall (λ m, t0 ≤ m.1) served → NoDup served →
  Z.of_nat (length served) = M → t < t0 + W →
  (∀ e, onLimit config ≠ Some (Throws e)) →
  let c := checkRateLimit None identifier config t r w in
  answer c = Returns (rejected config t) ∧
  window_inv key (t0 + W) served (store (world_after c)).
Proof.
  intros Hinv Hne Hsc Hnd Hlen Ht Hcb.
  pose proof (window_inv_zget served w t Hinv Ht) as Hz.
  destruct Hinv as [[-> _]|(e & Hs & He)]; [done|].
  unfold checkRateLimit. rewrite script_closed. cbv zeta. fold key W M.
  rewrite Hz, window_no_purge by done.
  unfold zcard. rewrite zset_of_size by done.
  destruct (Z.ltb_spec (Z.of_nat (length served)) M); [lia|].
  rewrite (ttl_of_live _ _ _ _ _ Hs) by lia.
  unfold zput. rewrite decide_False.
  2:{ intros Hempty. apply (f_equal size) in Hempty.
      rewrite zset_of_size, map_size_empty in Hempty by done. by destruct served. }
  assert (Hres : mkResult (0 =? 1) (Z.max 0 (M - Z.of_nat (length served))) M (t + W)
                   (if 0 =? 0 then Some (ceil_div W 1000) else None) = rejected config t).
  { unfold rejected. fold W M. simpl. f_equal. lia. }
  simpl. simpl in Hres.
  destruct (onLimit config) as [[[]|err]|] eqn:Hon; simpl.
  - rewrite Hres. split; [done|]. right. exists e. by rewrite lookup_insert_eq.
  - by destruct (Hcb err).
  - rewrite Hres. split; [done|]. right. exists e. by rewrite lookup_insert_eq.
Qed.

(** Once the window of the first entry has passed, a check is admitted. *)
Lemma check_after_window served w t r r0 :
  window_inv key (t0 + W) served (store w) → (t0, r0) ∈ served →
  NoDup served → Z.of_nat (length served) = M → t0 + W ≤ t →
  ∃ res, answer (checkRateLimit None identifier config t r w) = Returns res ∧
         allowed res = true.
Proof.
  intros Hinv Hin Hnd Hlen Ht.
  destruct Hinv as [[-> _]|(e & Hs & He)]; [by apply elem_of_nil in Hin|].
  assert (Hsize : Z.of_nat (size (zremrangebyscore_upto (t - W) (zget (store w) key t))) < M).
  { destruct (zget_cases (store w) key t) as [-> | ->].
    - pose proof (purge_size (t - W) (∅ : gmap member Z)) as Hp.
      rewrite map_size_empty in Hp.
      destruct served; [by apply elem_of_nil in Hin | simpl in *; lia].
    - unfold zstored. rewrite Hs. simpl.
      pose proof (purge_size_lt (t - W) (zset_of served) (t0, r0) t0) as Hp.
      rewrite zset_of_lookup, decide_True, zset_of_size in Hp by done.
      specialize (Hp eq_refl ltac:(lia)). lia. }
  unfold checkRateLimit. rewrite script_closed. cbv zeta. fold key W M. unfold zcard.
  destruct (Z.ltb_spec
    (Z.of_nat (size (zremrangebyscore_upto (t - W) (zget (store w) key t)))) M); [|lia].
  simpl. eexists. split; reflexivity.
Qed.

Lemma check_all_cons t r reqs w :
  let c := checkRateLimit None identifier config t r w in
  check_all identifier config ((t, r) :: reqs) w =
    ((check_all identifier config reqs (world_after c)).1,
     answer c :: (check_all identifier config reqs (world_after c)).2).
Proof. simpl. by destruct (check_all _ _ reqs _). Qed.

(** A burst that fits the limit: every check is admitted and the remaining
    count goes down by one each time. *)
Lemma check_all_countdown reqs served w :
  window_inv key (t0 + W) served (store w) →
  Forall (λ m, t0 ≤ m.1) served → NoDup (served ++ reqs) →
  Forall (λ m, t0 ≤ m.1 < t0 + W) reqs →
  Z.of_nat (length (served ++ reqs)) ≤ M →
  (check_all identifier config reqs w).2 =
    countdown config (M - Z.of_nat (length served)) reqs ∧
  window_inv key (t0 + W) (served ++ reqs)
    (store (check_all identifier config reqs w).1).
Proof.
  revert served w. induction reqs as [|[t r] reqs IH]; intros served w Hinv Hsc Hnd Hreq Hlen.
  - simpl. by rewrite app_nil_r.
  - apply Forall_cons in Hreq as [Ht Hreq]. simpl in Ht.
    rewrite length_app in Hlen. simpl in Hlen.
    pose proof Hnd as Hnd'. apply NoDup_app in Hnd' as (Hnd1 & Hfresh & _).
    rewrite check_all_cons. cbv zeta.
    pose proof (check_admits served w t r Hinv Hsc Hnd1) as Hstep. cbv zeta in Hstep.
    destruct Hstep as (Hans & Hinv' & _);
      [intros Hin; apply (Hfresh _ Hin); by left | lia | done |].
    set (c := checkRateLimit None identifier config t r w) in *.
    specialize (IH (served ++ [(t, r)]) (world_after c)).
    rewrite <- app_assoc in IH.
    destruct IH as [IH1 IH2]; try done.
    { apply Forall_app. split; [done|]. constructor; [simpl; lia|constructor]. }
    { rewrite length_app. simpl. lia. }
    cbn [fst snd]. split; [|done]. rewrite Hans, IH1, length_app. cbn [countdown length].
    by replace (M - Z.of_nat (length served + 1)) with (M - Z.of_nat (length served) - 1)
      by lia.
Qed.

End Window.
(** C1: on a window key that holds nothing yet, [maxRequests] checks issued
    within [windowMs] of the first one (with pairwise distinct entries) are all
    admitted, with remaining counts maxRequests-1, ..., 0; a further check
    before the window of the first one ends is rejected with remaining 0 and
    retryAfter = ceil(windowMs/1000); and a check at or after
    [windowMs] past the first one is admitted again. *)
Theorem C1_sliding_window (identifier : string) (config : RateLimitConfig) (w : world)
    (t0 : Z) (r0 : N) (rest : list member) (late again : member) :
  let reqs := (t0, r0) :: rest in
  store w !! key_of config identifier = None →
  Z.of_nat (length reqs) = maxRequests config →
  NoDup reqs →
  Forall (λ m, t0 ≤ m.1 < t0 + windowMs config) reqs →
  late.1 < t0 + windowMs config →
  t0 + windowMs config ≤ again.1 →
  (∀ e, onLimit config ≠ Some (Throws e)) →
  let burst := check_all identifier config reqs w in
  let c_late := checkRateLimit None identifier config late.1 late.2 burst.1 in
  let c_again :=
    checkRateLimit None identifier config again.1 again.2 (world_after c_late) in
  burst.2 = countdown config (maxRequests config) reqs ∧
  answer c_late = Returns (rejected config late.1) ∧
  ∃ res, answer c_again = Returns res ∧ allowed res = true.
Proof.
  intros reqs Hfresh Hlen Hnd Hreq Hlate Hagain Hcb burst c_late c_again.
  assert (Hsc : Forall (λ m : member, t0 ≤ m.1) reqs).
  { eapply Forall_impl; [exact Hreq|]. simpl. intros m ?. lia. }
  destruct (check_all_countdown identifier config t0 reqs [] w) as [Hans Hinv];
    [by left | by apply Forall_nil | done | done | by rewrite <- Hlen |].
  simpl app in Hinv. simpl length in Hans. rewrite Z.sub_0_r in Hans.
  fold burst in Hans, Hinv.
  pose proof (check_rejects identifier config t0 reqs burst.1 late.1 late.2 Hinv)
    as Hrej. cbv zeta in Hrej.
  destruct Hrej as [Hrej Hinv']; try done.
  fold c_late in Hrej, Hinv'.
  split_and!; [done|done|].
  apply (check_after_window identifier config t0 reqs (world_after c_late)
           again.1 again.2 r0); try done.
  by left.
Qed.

Lemma C1_sliding_window_witness :
  (check_all "u1" (RATE_LIMITS participation) burst_u1 fresh).2 =
    [Returns (mkResult true 4 5 1000 None); Returns (mkResult true 3 5 1000 None);
     Returns (mkResult true 2 5 1000 None); Returns (mkResult true 1 5 1000 None);
     Returns (mkResult true 0 5 1000 None)] ∧
  answer (checkRateLimit None "u1" (RATE_LIMITS participation) 100 6
            (check_all "u1" (RATE_LIMITS participation) burst_u1 fresh).1) =
    Returns (mkResult false 0 5 1100 (Some 1)) ∧
  ∃ res,
    answer (checkRateLimit None "u1" (RATE_LIMITS participation) 1100 7
              (world_after
                 (checkRateLimit None "u1" (RATE_LIMITS participation) 100 6
                    (check_all "u1" (RATE_LIMITS participation) burst_u1 fresh).1))) =
      Returns res ∧ allowed res = true.
Proof.
  assert (H1 : store fresh !! key_of (RATE_LIMITS participation) "u1" = None)
    by (vm_compute; reflexivity).
  assert (H2 : NoDup burst_u1) by (by apply (bool_decide_unpack _)).
  assert (H3 : Forall (λ m : member, 0 ≤ m.1 < 0 + windowMs (RATE_LIMITS participation))
                 burst_u1) by (repeat constructor; simpl; lia).
  assert (H4 : ∀ e, onLimit (RATE_LIMITS participation) ≠ Some (Throws e)) by done.
  exact (C1_sliding_window "u1" (RATE_LIMITS participation) fresh 0 1
           [(0, 2%N); (0, 3%N); (0, 4%N); (0, 5%N)] (100, 6%N) (1100, 7%N)
           H1 eq_refl H2 H3 ltac:(simpl; lia) ltac:(simpl; lia) H4).
Defined.

Lemma zcard_zadd_le score m z : zcard (zadd score m z) ≤ zcard z + 1.
Proof.
  unfold zcard, zadd. pose proof (map_size_insert m score z) as Hs.
  destruct (z !! m); simpl in Hs; lia.
Qed.

(** The store after a check with the store reachable is the store the
    script leaves. *)
Lemma world_after_store identifier config now rnd w :
  store (world_after (checkRateLimit None identifier config now rnd w)) =
    (script (store w) (key_of config identifier) (now - windowMs config) now
       (maxRequests config) (windowMs config) rnd).1.
Proof.
  unfold checkRateLimit. destruct (script _ _ _ _ _ _ _) as [s' [a c]]. simpl.
  destruct (a =? 0); [|done]. by destruct (onLimit config) as [[[]|]|].
Qed.

(** One check of the middleware limiter, seen on its window key. *)
Lemma check_window_step identifier config now rnd w :
  let key := key_of config identifier in
  let purged := zremrangebyscore_upto (now - windowMs config) (zget (store w) key now) in
  let c := checkRateLimit None identifier config now rnd w in
  let after := zget (store (world_after c)) key now in
  (zcard purged < maxRequests config → 0 < windowMs config →
     after = zadd now (now, rnd) purged) ∧
  (maxRequests config ≤ zcard purged → after = purged) ∧
  (∀ res, answer c = Returns res → allowed res = false → after = purged) ∧
  (∀ m sc, after !! m = Some sc → now - windowMs config < sc) ∧
  (zcard (zstored (store w) key) ≤ maxRequests config →
     zcard (zstored (store (world_after c)) key) ≤ maxRequests config).
Proof.
  intros key purged c after. subst after c.
  rewrite world_after_store. unfold checkRateLimit. cbv zeta. fold key.
  rewrite !script_closed. cbv zeta. fold purged.
  assert (0 ≤ zcard purged) as Hnn by (unfold zcard; lia).
  destruct (Z.ltb_spec (zcard purged) (maxRequests config)) as [Hlt|Hge]; simpl.
  - destruct (Z.leb_spec (windowMs config) 0) as [HW|HW].
    + assert (zget (delete key (store w)) key now = ∅) as Hgone
        by apply zget_None, lookup_delete_eq.
      split_and!.
      * lia.
      * lia.
      * intros res [= ?]. by subst res.
      * intros m sc. by rewrite Hgone, lookup_empty.
      * intros _. unfold zstored. rewrite lookup_delete_eq. simpl.
        unfold zcard. rewrite map_size_empty. lia.
    + assert (zget (<[key:=mkZKey (zadd now (now, rnd) purged)
                             (Some (now + windowMs config))]> (store w)) key now =
              zadd now (now, rnd) purged) as Hlive.
      { eapply zget_live; [apply lookup_insert_eq|lia]. }
      split_and!.
      * done.
      * lia.
      * intros res [= ?]. by subst res.
      * intros m sc. rewrite Hlive. unfold zadd.
        destruct (decide ((now, rnd) = m)) as [<-|Hne].
        -- rewrite lookup_insert_eq. intros [= <-]. lia.
        -- rewrite lookup_insert_ne by done. by intros [? _]%purge_score.
      * intros _. unfold zstored. rewrite lookup_insert_eq. simpl.
        pose proof (zcard_zadd_le now (now, rnd) purged). lia.
  - rewrite zget_zput. split_and!.
    + lia.
    + done.
    + done.
    + by intros m sc [? _]%purge_score.
    + intros Hle. rewrite zstored_zput.
      pose proof (purge_size (now - windowMs config) (zget (store w) key now)) as Hp.
      pose proof (zget_size (store w) key now). unfold zcard in *. fold purged in Hp. lia.
Qed.

(** From a key that holds at most [maxRequests] entries, no sequence of
    checks makes it hold more. *)
Lemma check_all_bounded identifier config reqs w :
  zcard (zstored (store w) (key_of config identifier)) ≤ maxRequests config →
  zcard (zstored (store (check_all identifier config reqs w).1) (key_of config identifier))
    ≤ maxRequests config.
Proof.
  revert w. induction reqs as [|[t r] reqs IH]; intros w Hle; [done|].
  rewrite (check_all_cons identifier config). cbv zeta. cbn [fst].
  apply IH. by apply check_window_step.
Qed.

(** The pipeline limiter adds its entry on every check, before counting. *)
Lemma pipeline_check_inserts identifier (type : StaticOptimizer.limit_type) now rnd
    (s : gmap string zkey) :
  let config := StaticOptimizer.RATE_LIMITS type in
  let key := "ratelimit:" +:+ StaticOptimizer.type_name type +:+ ":" +:+ identifier in
  let r := StaticOptimizer.checkRateLimit identifier type now rnd s in
  zget r.1 key now =
    zadd now (now, rnd)
      (zremrangebyscore 0 (now - StaticOptimizer.windowMs config) (zget s key now)) ∧
  StaticOptimizer.allowed r.2 =
    (zcard (zget r.1 key now) <=? StaticOptimizer.maxRequests config).
Proof.
  intros config key r. subst r. unfold StaticOptimizer.checkRateLimit. cbv zeta.
  fold config key. cbn [fst snd StaticOptimizer.allowed].
  assert (0 < StaticOptimizer.windowMs config) as HW by (subst config; by destruct type).
  unfold ZREMRANGEBYSCORE, ZCARD. rewrite PEXPIRE_ZADD, zget_ZADD, zget_zput, insert_zput.
  destruct (Z.leb_spec (StaticOptimizer.windowMs config) 0); [lia|].
  erewrite zget_live; [done|apply lookup_insert_eq|lia].
Qed.

(** C2, in the form that holds on the code: in the middleware limiter (rate-limiter.server.ts) a check
    adds its entry exactly when the count after the purge is strictly below
    [maxRequests]; a check that is answered with allowed=false leaves the
    purged set as it is; every entry left after a check is newer than
    now - windowMs; and a key that holds at most [maxRequests] entries never
    holds more after any sequence of checks.  The pipeline limiter
    (static-optimizer.server.ts) instead adds its entry on every check and
    answers allowed exactly when the count including that entry is at most
    [maxRequests]. *)
Theorem C2_entry_inserted_only_below_limit :
  (∀ identifier config now rnd w,
     let key := key_of config identifier in
     let purged := zremrangebyscore_upto (now - windowMs config) (zget (store w) key now) in
     let c := checkRateLimit None identifier config now rnd w in
     let after := zget (store (world_after c)) key now in
     (zcard purged < maxRequests config → 0 < windowMs config →
        after = zadd now (now, rnd) purged) ∧
     (maxRequests config ≤ zcard purged → after = purged) ∧
     (∀ res, answer c = Returns res → allowed res = false → after = purged) ∧
     (∀ m sc, after !! m = Some sc → now - windowMs config < sc)) ∧
  (∀ identifier config reqs w,
     zcard (zstored (store w) (key_of config identifier)) ≤ maxRequests config →
     zcard (zstored (store (check_all identifier config reqs w).1)
              (key_of config identifier)) ≤ maxRequests config) ∧
  (∀ identifier type now rnd (s : gmap string zkey),
     let config := StaticOptimizer.RATE_LIMITS type in
     let key := "ratelimit:" +:+ StaticOptimizer.type_name type +:+ ":" +:+ identifier in
     let r := StaticOptimizer.checkRateLimit identifier type now rnd s in
     zget r.1 key now =
       zadd now (now, rnd)
         (zremrangebyscore 0 (now - StaticOptimizer.windowMs config) (zget s key now)) ∧
     StaticOptimizer.allowed r.2 =
       (zcard (zget r.1 key now) <=? StaticOptimizer.maxRequests config)).
Proof.
  split_and!.
  - intros identifier config now rnd w.
    pose proof (check_window_step identifier config now rnd w) as H.
    cbv zeta in *. destruct H as (H1 & H2 & H3 & H4 & _). by split_and!.
  - apply check_all_bounded.
  - apply pipeline_check_inserts.
Qed.

Lemma C2_entry_inserted_witness :
  zcard (zstored (store (check_all "u1" (RATE_LIMITS participation)
                           (burst_u1 ++ [(100, 6%N); (200, 7%N)]) fresh).1)
           (key_of (RATE_LIMITS participation) "u1")) ≤ 5.
Proof.
  apply (proj1 (proj2 C2_entry_inserted_only_below_limit) "u1" (RATE_LIMITS participation)).
  vm_compute. discriminate.
Defined.

(** The pipeline limiter under the class with [maxRequests = 5]: the sixth
    check of a burst is rejected, and still its entry is added, so the key
    holds six entries newer than now - windowMs. *)
Lemma C2_pipeline_limiter_counterexample :
  let s := (StaticOptimizer.check_all "u1" StaticOptimizer.participation burst_u1 ∅).1 in
  let r := StaticOptimizer.checkRateLimit "u1" StaticOptimizer.participation 100 6 s in
  StaticOptimizer.allowed r.2 = false ∧
  zget r.1 "ratelimit:participation:u1" 100 !! (100, 6%N) = Some 100 ∧
  zcard (zget r.1 "ratelimit:participation:u1" 100) = 6 ∧
  StaticOptimizer.maxRequests (StaticOptimizer.RATE_LIMITS StaticOptimizer.participation) = 5.
Proof. vm_compute. done. Qed.

(** C7, in the form that holds on the code: when the call to the window
    store throws, [checkRateLimit]
    returns allowed=true with remaining = total = maxRequests,
    resetAt = now + windowMs and no retryAfter; its only effect is the
    console error line: the store and the statistics are left as they were,
    so no metric is recorded. *)
Theorem C7_fail_open_logs_only (err identifier : string) (config : RateLimitConfig)
    (now : Z) (rnd : N) (w : world) :
  let c := checkRateLimit (Some err) identifier config now rnd w in
  answer c = Returns (mkResult true (maxRequests config) (maxRequests config)
                        (now + windowMs config) None) ∧
  effects c = [ConsoleError "[RateLimit] Redis error:" err] ∧
  world_after c = w ∧
  ¬ records_metric w (world_after c).
Proof.
  simpl. split_and!; try done. by intros [?|?].
Qed.

(** An unreachable store at a check of "u1" under the api class: the check
    is allowed, and no metric is recorded. *)
Lemma C7_no_metric_counterexample :
  let c := checkRateLimit (Some "ECONNREFUSED") "u1" (RATE_LIMITS api) 0 1 fresh in
  ¬ ((∃ res, answer c = Returns res ∧ allowed res = true) ∧
     records_metric fresh (world_after c)).
Proof. simpl. intros [_ [?|?]]; done. Qed.

End RateLimiterFacts.

Module ViewCounterFacts.
Import ViewCounter.

Implicit Types (s : gmap string entry) (db : gmap string Z) (id key : string)
  (updates : list (string * Z)).

Lemma app_String a (s1 s2 : string) : String a s1 +:+ s2 = String a (s1 +:+ s2).
Proof. reflexivity. Qed.

Lemma app_empty_l (s2 : string) : "" +:+ s2 = s2.
Proof. reflexivity. Qed.

Lemma app_empty_r (s1 : string) : s1 +:+ "" = s1.
Proof. induction s1 as [|a s1 IH]; [done|]. by rewrite app_String, IH. Qed.

Lemma append_snoc (acc : string) c rest :
  (acc +:+ String c "") +:+ rest = acc +:+ String c rest.
Proof.
  induction acc as [|a acc IH]; [done|]. by rewrite !app_String, IH.
Qed.

(** Exposes the characters of the key prefix. *)
Ltac unfold_key := unfold VIEW_COUNTER; rewrite !app_String, app_empty_l.

Lemma last_segment_from_no_colon acc id :
  no_colon id = true → last_segment_from acc id = acc +:+ id.
Proof.
  revert acc. induction id as [|c id IH]; intros acc Hnc; simpl.
  - by rewrite app_empty_r.
  - simpl in Hnc. apply andb_true_iff in Hnc as [Hc Hnc].
    apply negb_true_iff in Hc. rewrite Hc, IH by done. apply append_snoc.
Qed.

Lemma last_segment_VIEW_COUNTER id :
  no_colon id = true → last_segment (VIEW_COUNTER id) = id.
Proof.
  intros Hnc. unfold last_segment. unfold_key. simpl.
  by rewrite last_segment_from_no_colon.
Qed.

Lemma prefix_VIEW_COUNTER id : String.prefix "counter:views:" (VIEW_COUNTER id) = true.
Proof. unfold_key. simpl. by destruct id. Qed.

Lemma VIEW_COUNTER_inj id1 id2 : VIEW_COUNTER id1 = VIEW_COUNTER id2 → id1 = id2.
Proof. unfold VIEW_COUNTER. apply (inj _). Qed.

Lemma elem_of_view_counter_keys s k :
  k ∈ view_counter_keys s ↔ is_Some (s !! k) ∧ String.prefix "counter:views:" k = true.
Proof.
  unfold view_counter_keys. rewrite list_elem_of_filter, list_elem_of_fmap. split.
  - intros [Hp ([k' e] & -> & Hin)]. apply elem_of_map_to_list in Hin. eauto.
  - intros [[e He] Hp]. split; [done|]. exists (k, e). split; [done|].
    by apply elem_of_map_to_list.
Qed.

Lemma NoDup_view_counter_keys s : NoDup (view_counter_keys s).
Proof. apply NoDup_filter, NoDup_fst_map_to_list. Qed.

Lemma view_counter_keys_del s : view_counter_keys (del (view_counter_keys s) s) = [].
Proof.
  apply elem_of_nil_inv. intros k [[e He] Hp]%elem_of_view_counter_keys.
  unfold del in He. apply lookup_foldr_delete_Some in He as [Hnin Hs].
  apply Hnin, elem_of_view_counter_keys. eauto.
Qed.

(** The first increment creates the counter with value 1 and the 24h TTL;
    later ones add one and leave the TTL alone. *)
Lemma increment_first id s :
  s !! VIEW_COUNTER id = None →
  incrementViewCount id s =
    mkIncr (<[VIEW_COUNTER id := mkEntry 1 (Some 86400)]> s) 1
      [INCR (VIEW_COUNTER id); EXPIRE (VIEW_COUNTER id) 86400].
Proof.
  intros Hs. unfold incrementViewCount, incr, expire. rewrite Hs. simpl.
  f_equal. apply map_eq. intros k. destruct (decide (k = VIEW_COUNTER id)) as [->|Hne].
  - by rewrite lookup_alter_eq, !lookup_insert_eq.
  - by rewrite lookup_alter_ne, !lookup_insert_ne.
Qed.

Lemma increment_next id s v t :
  s !! VIEW_COUNTER id = Some (mkEntry v t) → 1 ≤ v →
  incrementViewCount id s =
    mkIncr (<[VIEW_COUNTER id := mkEntry (v + 1) t]> s) (v + 1) [INCR (VIEW_COUNTER id)].
Proof.
  intros Hs Hv. unfold incrementViewCount, incr. rewrite Hs. simpl.
  destruct (Z.eqb_spec (v + 1) 1); [lia|done].
Qed.

Lemma increment_times_next n id s v t :
  s !! VIEW_COUNTER id = Some (mkEntry v t) → 1 ≤ v →
  increment_times n id s = <[VIEW_COUNTER id := mkEntry (v + Z.of_nat n) t]> s.
Proof.
  revert s v. induction n as [|n IH]; intros s v Hs Hv.
  - simpl. rewrite Z.add_0_r. symmetry. by apply insert_id.
  - cbn [increment_times]. rewrite (increment_next id s v t) by done. cbn [kv_next].
    rewrite (IH _ (v + 1)); [|by rewrite lookup_insert_eq|lia].
    rewrite insert_insert_eq.
    by replace (v + 1 + Z.of_nat n) with (v + Z.of_nat (S n)) by lia.
Qed.

Lemma increment_times_fresh n id s :
  s !! VIEW_COUNTER id = None →
  increment_times (S n) id s =
    <[VIEW_COUNTER id := mkEntry (Z.of_nat (S n)) (Some 86400)]> s.
Proof.
  intros Hs. cbn [increment_times]. rewrite increment_first by done. cbn [kv_next].
  rewrite (increment_times_next n id _ 1 (Some 86400)); [|by rewrite lookup_insert_eq|lia].
  rewrite insert_insert_eq.
  by replace (1 + Z.of_nat n) with (Z.of_nat (S n)) by lia.
Qed.

Lemma delta_for_nil id : delta_for id [] = 0.
Proof. reflexivity. Qed.

Lemma delta_for_cons id (u : string * Z) updates :
  delta_for id (u :: updates) =
    (if decide (u.1 = id) then u.2 else 0) + delta_for id updates.
Proof. unfold delta_for. rewrite filter_cons. by destruct (decide (u.1 = id)). Qed.

(** A transaction whose posts all exist commits, and adds to every post the
    sum of the updates addressed to it. *)
Lemma apply_updates_commits updates db :
  (∀ u, u ∈ updates → is_Some (db !! u.1)) →
  ∃ db', apply_updates db updates = Some db' ∧
         ∀ id, db' !! id = (λ v, v + delta_for id updates) <$> db !! id.
Proof.
  revert db. induction updates as [|[id0 n0] updates IH]; intros db Hex.
  - exists db. split; [done|]. intros id. rewrite delta_for_nil.
    destruct (db !! id) as [v|]; simpl; [|done]. by rewrite Z.add_0_r.
  - destruct (Hex (id0, n0)) as [v0 Hv0]; [by left|]. simpl in Hv0.
    destruct (IH (<[id0 := v0 + n0]> db)) as (db' & Hdb' & Hlook).
    { intros u Hu. destruct (decide (id0 = u.1)) as [->|Hne].
      - rewrite lookup_insert_eq. eauto.
      - rewrite lookup_insert_ne by done. apply Hex. by right. }
    exists db'. simpl. rewrite Hv0. split; [done|]. intros id. rewrite Hlook.
    rewrite delta_for_cons. simpl.
    destruct (decide (id0 = id)) as [->|Hne].
    + rewrite lookup_insert_eq, Hv0. simpl. by rewrite Z.add_assoc.
    + rewrite lookup_insert_ne by done. destruct (db !! id); simpl; [|done].
      by rewrite Z.add_0_l.
Qed.

Lemma updates_of_cons s k keys :
  updates_of s (k :: keys) =
    match update_of s k with
    | Some u => u :: updates_of s keys
    | None => updates_of s keys
    end.
Proof. reflexivity. Qed.

(** The updates addressed to a post whose counter key is the only key with
    its id as last segment. *)
Lemma updates_for_post s id n keys :
  NoDup keys →
  update_of s (VIEW_COUNTER id) = Some (id, n) →
  (∀ k, k ∈ keys → k ≠ VIEW_COUNTER id → last_segment k ≠ id) →
  filter (λ u : string * Z, u.1 = id) (updates_of s keys) =
    if decide (VIEW_COUNTER id ∈ keys) then [(id, n)] else [].
Proof.
  intros Hnd Hown Hother. induction keys as [|k keys IH]; [done|].
  apply NoDup_cons in Hnd as [Hk Hnd].
  specialize (IH Hnd (λ k' Hin, Hother k' (list_elem_of_further _ _ _ Hin))).
  rewrite updates_of_cons. destruct (decide (k = VIEW_COUNTER id)) as [->|Hne].
  - rewrite Hown, filter_cons, decide_True by done. rewrite decide_False in IH by done.
    rewrite IH. rewrite decide_True; [done|by left].
  - assert (filter (λ u : string * Z, u.1 = id)
              match update_of s k with
              | Some u => u :: updates_of s keys
              | None => updates_of s keys
              end = filter (λ u : string * Z, u.1 = id) (updates_of s keys)) as ->.
    { destruct (update_of s k) as [[id' n']|] eqn:Hu; [|done].
      rewrite filter_cons, decide_False; [done|]. simpl.
      unfold update_of in Hu. case_decide; [|done]. injection Hu as <- <-.
      apply Hother; [by left|done]. }
    rewrite IH. destruct (decide (VIEW_COUNTER id ∈ keys)) as [Hin|Hnin].
    + rewrite decide_True; [done|by right].
    + rewrite decide_False; [done|]. intros [?|?]%elem_of_cons; congruence.
Qed.

Lemma expire_issued_iff id s :
  EXPIRE (VIEW_COUNTER id) 86400 ∈ issued (incrementViewCount id s) ↔
  newCount (incrementViewCount id s) = 1.
Proof.
  unfold incrementViewCount, incr.
  destruct (Z.eqb_spec (default 0 (value <$> s !! VIEW_COUNTER id) + 1) 1) as [Heq|Hne];
    simpl.
  - split; [done|]. intros _. right. by left.
  - split; [|done]. intros [=]%list_elem_of_singleton.
Qed.

(** What one increment stores: the count grows by one, the TTL of the key
    becomes 24h when the new count is 1 and is left as it was otherwise, and
    no other key changes. *)
Lemma increment_stores id s :
  let r := incrementViewCount id s in
  newCount r = default 0 (value <$> s !! VIEW_COUNTER id) + 1 ∧
  kv_next r !! VIEW_COUNTER id =
    Some (mkEntry (newCount r)
            (if decide (newCount r = 1) then Some 86400 else s !! VIEW_COUNTER id ≫= ttl)) ∧
  (∀ k, k ≠ VIEW_COUNTER id → kv_next r !! k = s !! k).
Proof.
  cbv zeta. unfold incrementViewCount, incr.
  destruct (Z.eqb_spec (default 0 (value <$> s !! VIEW_COUNTER id) + 1) 1) as [Heq|Hne];
    cbn [newCount kv_next].
  - split_and!; [done| |].
    + unfold expire. rewrite lookup_alter_eq, lookup_insert_eq. cbn [fmap option_fmap
        option_map value]. by rewrite decide_True.
    + intros k Hk. unfold expire. by rewrite lookup_alter_ne, lookup_insert_ne.
  - split_and!; [done| |].
    + rewrite lookup_insert_eq. by rewrite decide_False.
    + intros k Hk. by rewrite lookup_insert_ne.
Qed.




(** C5: when the transaction of a flush fails, the flush throws the error
    and leaves every key of the key-value store and the relational store as
    they were; in every flush either nothing is deleted, or the transaction
    committed and the keys deleted are those the flush had read. *)
Theorem C5_failed_transaction_keeps_counters (db_error : option string)
    (s : gmap string entry) (db : gmap string Z) :
  let r := flushViewCounters db_error s db in
  let updates := updates_of s (view_counter_keys s) in
  (∀ err, updates ≠ [] → transaction db_error db updates = Throws err →
     returned r = Throws err ∧ kv_after r = s ∧ db_after r = db ∧
     deleted r = [] ∧ committed r = []) ∧
  ((kv_after r = s ∧ deleted r = [] ∧ db_after r = db ∧ committed r = []) ∨
   (∃ db', transaction db_error db updates = Returns db' ∧
           committed r = [updates] ∧ db_after r = db' ∧
           deleted r = view_counter_keys s ∧
           kv_after r = del (view_counter_keys s) s)).
Proof.
  cbv zeta. unfold flushViewCounters.
  destruct (view_counter_keys s) as [|k keys] eqn:Hkeys.
  - split; [by intros err []|]. by left.
  - destruct (updates_of s (k :: keys)) as [|u us] eqn:Hups.
    + split; [by intros err []|]. by left.
    + destruct (transaction db_error db (u :: us)) as [db'|err'] eqn:Htx; simpl.
      * split; [by intros err _ [=]|]. right. by exists db'.
      * split; [by intros err _ [= <-]|]. by left.
Qed.

Lemma C5_failed_transaction_witness :
  kv_after (flushViewCounters (Some "deadlock detected") sample_kv sample_db) = sample_kv.
Proof.
  refine (proj1 (proj2 (proj1 (C5_failed_transaction_keeps_counters
            (Some "deadlock detected") sample_kv sample_db) "deadlock detected" _ eq_refl))).
  vm_compute. discriminate.
Defined.

End ViewCounterFacts.

Module MonitorFacts.
Import Monitor.

Lemma app_string_cons a (s1 s2 : string) : String a s1 +:+ s2 = String a (s1 +:+ s2).
Proof. reflexivity. Qed.

(** Stripping the query leaves no ['?'] behind. *)
Lemma replace_query_no_qmark s skip :
  has_char "?" (replace_all match_query "" skip s) = false.
Proof.
  revert skip. induction s as [|c rest IH]; intros skip; [done|].
  destruct skip as [|k]; [|apply IH]. cbn [replace_all match_query].
  destruct (Ascii.eqb c "?") eqn:Hc; [apply IH|].
  cbn [has_char]. by rewrite Hc, IH.
Qed.

Lemma normalizePath_no_query p : has_char "?" (normalizePath p) = false.
Proof. apply replace_query_no_qmark. Qed.

Lemma dot_of_digit c : is_digit c = true → is_dot c = true.
Proof. by destruct c as [[] [] [] [] [] [] [] []]. Qed.

Lemma digit_not_slash c : is_digit c = true → Ascii.eqb c "/" = false.
Proof. by destruct c as [[] [] [] [] [] [] [] []]. Qed.

Lemma digit_not_qmark c : is_digit c = true → Ascii.eqb c "?" = false.
Proof. by destruct c as [[] [] [] [] [] [] [] []]. Qed.

(** Replacing numeric segments: what follows a kept ['/'] is not a digit. *)
Lemma replace_num_start s :
  starts_with is_digit s = false →
  starts_with is_digit (replace_all match_num "/:num" 0 s) = false.
Proof.
  destruct s as [|c rest]; [done|]. cbn [replace_all match_num starts_with]. intros Hc.
  destruct (Ascii.eqb c "/"); [|done].
  by destruct (1 <=? run_length is_digit rest)%nat.
Qed.

Lemma run_length_0 p s : run_length p s = O → starts_with p s = false.
Proof. destruct s as [|c rest]; [done|]. simpl. by destruct (p c). Qed.

Lemma replace_num_no_slash_digit s skip :
  slash_digit (replace_all match_num "/:num" skip s) = false.
Proof.
  revert skip. induction s as [|c rest IH]; intros skip; [done|].
  destruct skip as [|k]; [|apply IH]. cbn [replace_all match_num].
  destruct (Ascii.eqb c "/") eqn:Hc.
  - destruct (run_length is_digit rest) as [|n] eqn:Hrun.
    + cbn [Nat.leb slash_digit]. rewrite Hc, IH, replace_num_start; [done|].
      by apply run_length_0.
    + cbn [Nat.leb]. rewrite !app_string_cons. cbn. apply IH.
  - cbn [slash_digit]. by rewrite Hc, IH.
Qed.

(** Stripping the query: the output resumes at a line terminator. *)
Lemma replace_query_resume s :
  starts_with is_digit (replace_all match_query "" (run_length is_dot s) s) = false.
Proof.
  induction s as [|c rest IH]; [done|]. cbn [run_length].
  destruct (is_dot c) eqn:Hdot; [apply IH|].
  cbn [replace_all match_query].
  destruct (is_digit c) eqn:Hd; [by rewrite (dot_of_digit c Hd) in Hdot|].
  destruct (Ascii.eqb c "?"); [|by cbn; rewrite Hd].
  apply IH.
Qed.

Lemma replace_query_start s :
  starts_with is_digit s = false →
  starts_with is_digit (replace_all match_query "" 0 s) = false.
Proof.
  destruct s as [|c rest]; [done|]. cbn [replace_all match_query starts_with]. intros Hc.
  destruct (Ascii.eqb c "?"); [|done]. apply replace_query_resume.
Qed.

Lemma replace_query_no_slash_digit s skip :
  slash_digit s = false →
  slash_digit (replace_all match_query "" skip s) = false.
Proof.
  revert skip. induction s as [|c rest IH]; intros skip Hs; [done|].
  cbn [slash_digit] in Hs. apply orb_false_iff in Hs as [Hhere Hrest].
  destruct skip as [|k]; [|by apply IH]. cbn [replace_all match_query].
  destruct (Ascii.eqb c "?") eqn:Hq; [by apply IH|].
  cbn [slash_digit]. rewrite IH by done.
  destruct (Ascii.eqb c "/"); [|done]. simpl in Hhere.
  by rewrite replace_query_start.
Qed.

(** No numeric segment survives normalization: no ['/'] of a normalized
    path is directly followed by a digit. *)
Lemma normalizePath_no_numeric p : slash_digit (normalizePath p) = false.
Proof. apply replace_query_no_slash_digit, replace_num_no_slash_digit. Qed.

Example normalize_numeric : normalizePath "/posts/123?page=2" = "/posts/:num".
Proof. reflexivity. Qed.

Example normalize_cuid :
  normalizePath "/events/clh3x9f0q0000qzrmn1f4g7ab/result" = "/events/:id/result".
Proof. reflexivity. Qed.

(** A hyphenated UUID is not a run of 24 alphanumerics. *)
Example normalize_uuid :
  normalizePath "/users/a23e4567-e89b-12d3-a456-426614174000" =
    "/users/a23e4567-e89b-12d3-a456-426614174000".
Proof. reflexivity. Qed.

Lemma insert_by_count_perm x l : insert_by_count x l ≡ₚ x :: l.
Proof.
  induction l as [|y l IH]; [done|]. cbn [insert_by_count].
  destruct (count y <=? count x); [done|]. rewrite IH. apply Permutation_swap.
Qed.

Lemma sort_by_count_perm l : sort_by_count l ≡ₚ l.
Proof.
  induction l as [|x l IH]; [done|]. cbn [sort_by_count foldr].
  fold (sort_by_count l). by rewrite insert_by_count_perm, IH.
Qed.

Lemma descending_insert x l : descending l → descending (insert_by_count x l).
Proof.
  induction l as [|y l IH]; intros Hl; [done|]. cbn [insert_by_count].
  destruct (Z.leb_spec (count y) (count x)) as [Hle|Hgt]; [done|].
  destruct l as [|z l]; [simpl; lia|].
  destruct Hl as [Hzy Hl]. specialize (IH Hl). cbn [insert_by_count] in *.
  destruct (Z.leb_spec (count z) (count x)); simpl in *; (split; [lia|done]).
Qed.

Lemma descending_sort l : descending (sort_by_count l).
Proof. induction l as [|x l IH]; [done|]. by apply descending_insert. Qed.

Lemma descending_take n l : descending l → descending (take n l).
Proof.
  revert l. induction n as [|n IH]; intros [|x [|y l]] Hl; try done.
  - by destruct n.
  - destruct Hl as [Hyx Hl]. specialize (IH (y :: l) Hl).
    destruct n as [|n]; [done|]. by split.
Qed.

(** X18: The report has at most ten entries, in order of decreasing parsed
    count: it is the head of the parsed endpoints sorted by count. *)
Lemma parseEndpointStats_bounded stats :
  (length (parseEndpointStats stats) ≤ 10)%nat ∧
  descending (parseEndpointStats stats) ∧
  ∃ sorted, parseEndpointStats stats = take 10 sorted ∧ descending sorted ∧
            sorted ≡ₚ to_stat <$> foldl parse_entry [] stats.
Proof.
  unfold parseEndpointStats. split_and!.
  - rewrite length_take. lia.
  - apply descending_take, descending_sort.
  - eexists. split_and!; [done|apply descending_sort|apply sort_by_count_perm].
Qed.

(** C9, at the failing inputs: the request GET /posts/101 is recorded under
    the field "GET:/posts/:num:count", which the report reads back as
    endpoint "/posts/" with count 0; and in a minute with three such requests
    and one request to each of ten other pages, the report lists the ten
    pages with count 1 and not the endpoint with three requests. *)
Theorem C9_placeholder_endpoints_lost :
  hgetall (ENDPOINT_STATS "202501051000")
    (recordRequest "202501051000" "/posts/101" "GET" 200 12) =
    [("GET:/posts/:num:count", 1); ("GET:/posts/:num:latency", 12)] ∧
  topEndpoints "202501051000" [("/posts/101", "GET", 200, 12)] =
    [mkStat "/posts/" "GET" 0 0] ∧
  topEndpoints "202501051000" sample_traffic =
    [mkStat "/a" "GET" 1 5; mkStat "/b" "GET" 1 5; mkStat "/c" "GET" 1 5;
     mkStat "/d" "GET" 1 5; mkStat "/e" "GET" 1 5; mkStat "/f" "GET" 1 5;
     mkStat "/g" "GET" 1 5; mkStat "/h" "GET" 1 5; mkStat "/i" "GET" 1 5;
     mkStat "/j" "GET" 1 5].
Proof. split_and!; vm_compute; reflexivity. Qed.

End MonitorFacts.

Module ScannerFacts.
Import Scanner.

Lemma deductions_foldl (vs : list Vulnerability) (a : Z) :
  foldl (λ sum v, sum + severityWeights (v_severity v)) a vs = a + totalDeductions vs.
Proof.
  unfold totalDeductions. revert a. induction vs as [|v vs IH] using rev_ind; intros a.
  - simpl. lia.
  - rewrite !foldl_app. simpl. rewrite IH. lia.
Qed.

Lemma deductions_cons v vs :
  totalDeductions (v :: vs) = severityWeights (v_severity v) + totalDeductions vs.
Proof. unfold totalDeductions at 1. simpl. rewrite deductions_foldl. lia. Qed.

Lemma deductions_app vs ws :
  totalDeductions (vs ++ ws) = totalDeductions vs + totalDeductions ws.
Proof.
  induction vs as [|v vs IH]; [done|]. simpl. rewrite !deductions_cons, IH. lia.
Qed.

Lemma weight_pos s : 1 ≤ severityWeights s ≤ 25.
Proof. destruct s; simpl; lia. Qed.

Lemma deductions_length vs : Z.of_nat (length vs) ≤ totalDeductions vs.
Proof.
  induction vs as [|v vs IH]; [done|]. rewrite deductions_cons.
  pose proof (weight_pos (v_severity v)). simpl length. lia.
Qed.

Lemma deductions_perm vs ws : vs ≡ₚ ws → totalDeductions vs = totalDeductions ws.
Proof.
  induction 1 as [|v vs ws _ IH|v w vs|vs ws us _ IH1 _ IH2];
    rewrite ?deductions_cons; lia.
Qed.

Lemma score_deductions vs : getSecurityScore vs = Z.max 0 (100 - totalDeductions vs).
Proof. by destruct vs. Qed.

(** X1: The security score lies between 0 and 100; it is 100 exactly when there
    is no vulnerability; it does not depend on the order of the findings; and
    further findings never raise it: each one lowers a score that is still
    positive. *)
Theorem score_bounds_and_monotone (vs : list Vulnerability) :
  0 ≤ getSecurityScore vs ≤ 100 ∧
  (getSecurityScore vs = 100 ↔ vs = []) ∧
  (∀ ws, vs ≡ₚ ws → getSecurityScore vs = getSecurityScore ws) ∧
  (∀ ws, getSecurityScore (vs ++ ws) ≤ getSecurityScore vs) ∧
  (∀ v, 0 < getSecurityScore vs → getSecurityScore (vs ++ [v]) < getSecurityScore vs).
Proof.
  pose proof (deductions_length vs) as Hlen.
  refine (conj _ (conj _ (conj _ (conj _ _)))).
  - rewrite score_deductions. lia.
  - split; [|by intros ->]. rewrite score_deductions. destruct vs; [done|].
    simpl length in Hlen. lia.
  - intros ws Hp. by rewrite !score_deductions, (deductions_perm vs ws).
  - intros ws. rewrite !score_deductions, deductions_app.
    pose proof (deductions_length ws). lia.
  - intros v. rewrite !score_deductions, deductions_app, deductions_cons.
    pose proof (weight_pos (v_severity v)). change (totalDeductions []) with 0. lia.
Qed.

Lemma score_bounds_witness :
  getSecurityScore [mkVuln "a" high "x"; mkVuln "b" low "y"; mkVuln "c" critical "z"]
    < getSecurityScore [mkVuln "a" high "x"; mkVuln "b" low "y"].
Proof.
  apply (proj2 (proj2 (proj2 (proj2
    (score_bounds_and_monotone [mkVuln "a" high "x"; mkVuln "b" low "y"]))))
    (mkVuln "c" critical "z")).
  vm_compute. reflexivity.
Defined.

End ScannerFacts.

Module ShardingFacts.
Import Sharding.

Lemma to_int32_range x : - 2 ^ 31 ≤ to_int32 x < 2 ^ 31.
Proof.
  unfold to_int32. pose proof (Z.mod_pos_bound (x + 2 ^ 31) (2 ^ 32)). lia.
Qed.

(** [to_int32] depends only on the residue modulo 2^32. *)
Lemma to_int32_congr x y : x mod 2 ^ 32 = y mod 2 ^ 32 → to_int32 x = to_int32 y.
Proof.
  intros H. unfold to_int32.
  rewrite <- (Zplus_mod_idemp_l x), <- (Zplus_mod_idemp_l y). by rewrite H.
Qed.

Lemma to_int32_mod x : to_int32 x mod 2 ^ 32 = x mod 2 ^ 32.
Proof.
  unfold to_int32. rewrite Zminus_mod, Z.mod_mod by lia.
  rewrite <- Zminus_mod. f_equal. lia.
Qed.

Lemma to_int32_idemp x : to_int32 (to_int32 x) = to_int32 x.
Proof. apply to_int32_congr, to_int32_mod. Qed.

Lemma hash_step_poly hash char :
  hash_step hash char = to_int32 (31 * hash + Z.of_nat (nat_of_ascii char)).
Proof.
  unfold hash_step, and32, shl32. cbv zeta.
  rewrite Z.land_diag, to_int32_idemp, Z.shiftl_mul_pow2 by lia.
  apply to_int32_congr.
  rewrite Zplus_mod, Zminus_mod, to_int32_mod, Zmult_mod, to_int32_mod.
  rewrite <- Zmult_mod, <- Zminus_mod, <- Zplus_mod. f_equal. lia.
Qed.

Lemma poly31_congr userId a b :
  a mod 2 ^ 32 = b mod 2 ^ 32 → to_int32 (poly31 a userId) = to_int32 (poly31 b userId).
Proof.
  revert a b. induction userId as [|c rest IH]; intros a b Hab; simpl.
  - by apply to_int32_congr.
  - apply IH. by rewrite Zplus_mod, Zmult_mod, Hab, <- Zmult_mod, <- Zplus_mod.
Qed.

Lemma hash_loop_poly userId hash :
  to_int32 (hash_loop hash userId) = to_int32 (poly31 hash userId).
Proof.
  revert hash. induction userId as [|c rest IH]; intros hash; [done|].
  simpl. rewrite IH. apply poly31_congr. rewrite hash_step_poly. apply to_int32_mod.
Qed.

Lemma hash_loop_int32 userId hash :
  - 2 ^ 31 ≤ hash < 2 ^ 31 → - 2 ^ 31 ≤ hash_loop hash userId < 2 ^ 31.
Proof.
  revert hash. induction userId as [|c rest IH]; intros hash Hh; [done|].
  simpl. apply IH. rewrite hash_step_poly. apply to_int32_range.
Qed.

Lemma to_int32_small x : - 2 ^ 31 ≤ x < 2 ^ 31 → to_int32 x = x.
Proof. intros H. unfold to_int32. rewrite Z.mod_small; lia. Qed.

(** X2: [getUserShard] is the 31-polynomial string hash in 32-bit arithmetic,
    taken in absolute value modulo the number of shards; it is a shard
    number, and the channel [getShardedChannel] names is one of the sixteen
    pairwise distinct channels [broadcastToAllShards] addresses. *)
Theorem sharded_channel_is_broadcast (baseChannel userId : string) :
  getUserShard userId = Z.abs (to_int32 (poly31 0 userId)) mod 16 ∧
  0 ≤ getUserShard userId < SHARD_COUNT ∧
  getShardedChannel baseChannel userId ∈ shard_channels baseChannel ∧
  NoDup (shard_channels baseChannel) ∧
  length (shard_channels baseChannel) = 16%nat.
Proof.
  assert (0 ≤ getUserShard userId < SHARD_COUNT) as Hrange.
  { unfold getUserShard, SHARD_COUNT. apply Z.rem_bound_pos; lia. }
  refine (conj _ (conj Hrange (conj _ (conj _ eq_refl)))).
  - unfold getUserShard, SHARD_COUNT. rewrite Z.rem_mod_nonneg by lia.
    rewrite <- hash_loop_poly, to_int32_small; [done|].
    apply hash_loop_int32. lia.
  - unfold getShardedChannel, shard_channels. apply list_elem_of_fmap.
    exists (getUserShard userId). split; [done|]. apply elem_of_seqZ. lia.
  - unfold shard_channels. apply NoDup_fmap_2; [|apply NoDup_seqZ].
    intros i j Hij. by apply (inj _), (inj _), (inj _) in Hij.
Qed.

Lemma ceil_div_50_step (n : nat) :
  (1 ≤ n)%nat → ((n + 49) / 50)%nat = S ((n - 50 + 49) / 50).
Proof.
  intros Hn. destruct (le_lt_dec n 50) as [Hle|Hgt].
  - replace (n - 50 + 49)%nat with 49%nat by lia.
    symmetry. apply (Nat.div_unique (n + 49) 50 1 (n - 1)); lia.
  - replace (n + 49)%nat with ((n - 50 + 49) + 1 * 50)%nat by lia.
    rewrite Nat.div_add by lia. lia.
Qed.

Lemma batches_from_spec (channels : list string) fuel i :
  (length channels - i < fuel)%nat →
  concat (batches_from fuel i channels) = drop i channels ∧
  Forall (λ b, (0 < length b ≤ batchSize)%nat) (batches_from fuel i channels) ∧
  length (batches_from fuel i channels) = ((length channels - i + 49) / 50)%nat.
Proof.
  revert i. induction fuel as [|fuel IH]; intros i Hfuel; [lia|].
  cbn [batches_from]. destruct (Nat.ltb_spec i (length channels)) as [Hi|Hi].
  - destruct (IH (i + batchSize)%nat) as (Hc & Hf & Hl); [unfold batchSize; lia|].
    split_and!.
    + simpl. rewrite Hc, <- drop_drop. apply take_drop.
    + constructor; [|done]. rewrite length_take, length_drop. unfold batchSize. lia.
    + cbn [length]. rewrite Hl. unfold batchSize.
      replace (length channels - (i + 50))%nat with (length channels - i - 50)%nat by lia.
      symmetry. apply ceil_div_50_step. lia.
  - split_and!.
    + simpl. symmetry. apply drop_ge. lia.
    + constructor.
    + cbn [length]. replace (length channels - i)%nat with 0%nat by lia. done.
Qed.

Lemma broadcast_each_prefix broadcast (bs : list (list string)) :
  (broadcast_each broadcast bs).1 `prefix_of` bs ∧
  (Forall (λ b, broadcast b = Returns ()) bs →
     broadcast_each broadcast bs = (bs, Returns ())) ∧
  (∀ e, (broadcast_each broadcast bs).2 = Throws e →
     ∃ b, last (broadcast_each broadcast bs).1 = Some b ∧ broadcast b = Throws e).
Proof.
  induction bs as [|b bs (IH1 & IH2 & IH3)]; simpl.
  - split_and!; [done|done|by intros e [=]].
  - destruct (broadcast b) as [[]|e] eqn:Hb.
    + destruct (broadcast_each broadcast bs) as [sent res] eqn:Heach. simpl in *.
      split_and!.
      * by apply prefix_cons.
      * intros Hall. apply Forall_cons in Hall as [_ Hall]. specialize (IH2 Hall).
        by simplify_eq.
      * intros e He. destruct (IH3 e He) as (b' & Hlast & Hb'). exists b'. split; [|done].
        destruct sent; [done|]. done.
    + simpl. split_and!.
      * apply prefix_cons, prefix_nil.
      * intros Hall. apply Forall_cons in Hall as [Hall _]. congruence.
      * intros e' [= <-]. by exists b.
Qed.

(** X3: [sendBulkNotifications] addresses ["$user:<id>"] for the ids in order, in
    broadcasts of 1 to 50 channels, ceil(n/50) of them when all succeed; the
    broadcasts attempted are always an initial part of these, and when the
    call throws, the error is that of the last broadcast attempted, so the
    users of the following batches are not notified. *)
Theorem bulk_notifications_batched (broadcast : list string → outcome unit)
    (userIds : list string) :
  let channels := (λ id, "$user:" +:+ id) <$> userIds in
  let r := sendBulkNotifications broadcast userIds in
  concat (batches channels) = channels ∧
  Forall (λ b, (0 < length b ≤ 50)%nat) (batches channels) ∧
  length (batches channels) = ((length userIds + 49) / 50)%nat ∧
  r.1 `prefix_of` batches channels ∧
  (Forall (λ b, broadcast b = Returns ()) (batches channels) →
     r = (batches channels, Returns ())) ∧
  (∀ e, r.2 = Throws e → ∃ b, last r.1 = Some b ∧ broadcast b = Throws e).
Proof.
  intros channels r.
  destruct (batches_from_spec channels (S (length channels)) 0) as (Hc & Hf & Hl); [lia|].
  destruct (broadcast_each_prefix broadcast (batches channels)) as (Hp & Hall & Hthrow).
  split_and!; try done.
  unfold batches. rewrite Hl. subst channels. rewrite length_fmap. f_equal. lia.
Qed.

Lemma bulk_notifications_witness :
  sendBulkNotifications (λ _, Returns ()) ["u1"; "u2"; "u3"] =
    ([["$user:u1"; "$user:u2"; "$user:u3"]], Returns ()).
Proof.
  apply (proj1 (proj2 (proj2 (proj2 (proj2
    (bulk_notifications_batched (λ _, Returns ()) ["u1"; "u2"; "u3"])))))).
  repeat constructor.
Defined.

End ShardingFacts.

Module ClientIPFacts.
Import Monitor ClientIP.

Lemma all_chars_impl (p q : ascii → bool) s :
  (∀ c, p c = true → q c = true) → all_chars p s = true → all_chars q s = true.
Proof.
  intros Hpq. induction s as [|c rest IH]; [done|]. simpl.
  intros [Hc Hrest]%andb_true_iff. by rewrite (Hpq c Hc), IH.
Qed.

(** A string is in a class once its run of [p] and the rest after it are. *)
Lemma all_chars_run (p q : ascii → bool) s :
  (∀ c, p c = true → q c = true) →
  all_chars q (string_drop (run_length p s) s) = true → all_chars q s = true.
Proof.
  intros Hpq. induction s as [|c rest IH]; [done|]. simpl.
  destruct (p c) eqn:Hc; [|done]. simpl. intros Hrest. by rewrite (Hpq c Hc), IH.
Qed.

Lemma match_groups_chars p max sep groups s :
  match_groups p max sep groups s = true →
  all_chars (λ c, p c || Ascii.eqb c sep) s = true.
Proof.
  revert s. induction groups as [|g IH]; intros s; cbn [match_groups];
    destruct (_ && _); try done;
    destruct (string_drop (run_length p s) s) as [|c rest] eqn:Hdrop; try done; intros H;
    apply (all_chars_run p); try (by intros c' ->); rewrite Hdrop; [done|].
  apply andb_true_iff in H as [Hc Hrest]. simpl. rewrite Hc, orb_true_r. by apply IH.
Qed.

Lemma digit_is_hex c : is_digit c = true → is_hex c = true.
Proof. unfold is_hex. by intros ->. Qed.

Lemma valid_ip_chars ip :
  isValidIP ip = true →
  all_chars (λ c, is_hex c || Ascii.eqb c "." || Ascii.eqb c ":") ip = true.
Proof.
  unfold isValidIP. intros [H|H]%orb_true_iff; apply match_groups_chars in H;
    revert H; apply all_chars_impl; intros c [Hc|Hc]%orb_true_iff.
  - by rewrite (digit_is_hex c Hc).
  - by rewrite Hc, orb_true_r.
  - by rewrite Hc.
  - by rewrite Hc, !orb_true_r.
Qed.

Lemma first_valid_spec (hs : gmap string string) names ip :
  first_valid hs names = Some ip →
  isValidIP ip = true ∧
  ∃ header value, header ∈ names ∧ hs !! header = Some value ∧ value ≠ "" ∧
                  ip = trim (before_comma value).
Proof.
  induction names as [|h names IH]; [done|]. simpl.
  assert (first_valid hs names = Some ip →
          isValidIP ip = true ∧
          ∃ header value, header ∈ h :: names ∧ hs !! header = Some value ∧ value ≠ "" ∧
                          ip = trim (before_comma value)) as Hrest.
  { intros [Hv (h' & v' & Hin & Hrest)]%IH. split; [done|]. exists h', v'.
    split; [by right|done]. }
  destruct (hs !! h) as [value|] eqn:Hh; [|done].
  destruct (decide (value = "")); [done|].
  destruct (isValidIP (trim (before_comma value))) eqn:Hvalid; [|done].
  intros [= <-]. split; [done|]. exists h, value. split; [by left|done].
Qed.

(** X4: The address [getClientIP] returns always passes [isValidIP] and consists
    of hexadecimal digits, ['.'] and [':'] only; it is the loopback default or
    the trimmed first comma-separated part of a non-empty proxy header; and a
    valid address in [cf-connecting-ip] wins over all other headers. *)
Theorem client_ip_always_valid (hs : gmap string string) :
  isValidIP (getClientIP hs) = true ∧
  all_chars (λ c, is_hex c || Ascii.eqb c "." || Ascii.eqb c ":") (getClientIP hs) = true ∧
  (getClientIP hs = "127.0.0.1" ∨
   ∃ header value, header ∈ proxy_headers ∧ hs !! header = Some value ∧ value ≠ "" ∧
                   getClientIP hs = trim (before_comma value)) ∧
  (∀ value, hs !! "cf-connecting-ip" = Some value → value ≠ "" →
     isValidIP (trim (before_comma value)) = true →
     getClientIP hs = trim (before_comma value)).
Proof.
  assert (isValidIP (getClientIP hs) = true ∧
          (getClientIP hs = "127.0.0.1" ∨
           ∃ header value, header ∈ proxy_headers ∧ hs !! header = Some value ∧
                           value ≠ "" ∧ getClientIP hs = trim (before_comma value)))
    as [Hvalid Hfrom].
  { unfold getClientIP. destruct (first_valid hs proxy_headers) as [ip|] eqn:Hf; simpl.
    - apply first_valid_spec in Hf as [? ?]. split; [done|by right].
    - split; [by vm_compute|by left]. }
  refine (conj Hvalid (conj (valid_ip_chars _ Hvalid) (conj Hfrom _))).
  intros value Hcf Hne Hv. unfold getClientIP, proxy_headers. cbn [first_valid].
  rewrite Hcf, decide_False, Hv by done. done.
Qed.

Lemma client_ip_witness :
  getClientIP {[ "cf-connecting-ip" := " 203.0.113.7 , 10.0.0.1";
                 "x-real-ip" := "10.0.0.2" ]} = "203.0.113.7".
Proof.
  apply (proj2 (proj2 (proj2 (client_ip_always_valid
    {[ "cf-connecting-ip" := " 203.0.113.7 , 10.0.0.1"; "x-real-ip" := "10.0.0.2" ]})))
    " 203.0.113.7 , 10.0.0.1"); by vm_compute.
Defined.

End ClientIPFacts.

Module RateLimitHttpFacts.
Import Redis RedisFacts RateLimiter RateLimiterFacts ClientIP RateLimitHttp.

Lemma class_facts type :
  onLimit (RATE_LIMITS type) = None ∧
  0 < windowMs (RATE_LIMITS type) ∧
  truthy (Some (ceil_div (windowMs (RATE_LIMITS type)) 1000)) = true.
Proof. by destruct type. Qed.

(** The answer of a check under a configuration without [onLimit]. *)
Lemma check_answer identifier config now rnd w :
  onLimit config = None →
  let count :=
    zcard (zremrangebyscore_upto (now - windowMs config)
             (zget (store w) (key_of config identifier) now)) in
  answer (checkRateLimit None identifier config now rnd w) =
    Returns (if count <? maxRequests config
             then mkResult true (Z.max 0 (maxRequests config - (count + 1)))
                    (maxRequests config) (now + windowMs config) None
             else rejected config now).
Proof.
  intros Hcb count. unfold checkRateLimit. rewrite script_closed. cbv zeta. fold count.
  destruct (Z.ltb_spec count (maxRequests config)); simpl; [done|].
  rewrite Hcb. simpl. unfold rejected. do 2 f_equal. lia.
Qed.

(** X5: [rateLimit] never throws; with the store unreachable it lets the request
    pass; with the store reachable it lets the request pass exactly when the
    check is admitted, and otherwise answers with status 429, remaining 0, the
    limit of the class, the reset time in seconds and a [Retry-After] of
    ceil(windowMs/1000) seconds. *)
Theorem rate_limit_response (request_headers : gmap string string) (type : limit_class)
    (userId : option string) (now : Z) (rnd : N) (w : world) :
  let config := RATE_LIMITS type in
  let key := limiter_key userId request_headers in
  let count :=
    zcard (zremrangebyscore_upto (now - windowMs config)
             (zget (store w) (key_of config key) now)) in
  (∀ err, rateLimit (Some err) request_headers type userId now rnd w = (w, Returns None)) ∧
  (count < maxRequests config →
     (rateLimit None request_headers type userId now rnd w).2 = Returns None) ∧
  (maxRequests config ≤ count →
     ∃ resp,
       (rateLimit None request_headers type userId now rnd w).2 = Returns (Some resp) ∧
       status resp = 429 ∧
       headers resp !! "Retry-After" = Some (pretty (ceil_div (windowMs config) 1000)) ∧
       headers resp !! "X-RateLimit-Remaining" = Some "0" ∧
       headers resp !! "X-RateLimit-Limit" = Some (pretty (maxRequests config)) ∧
       headers resp !! "X-RateLimit-Reset" =
         Some (pretty (ceil_div (now + windowMs config) 1000)) ∧
       headers resp !! "Content-Type" = Some "application/json").
Proof.
  intros config key count. destruct (class_facts type) as (Hcb & HW & Htruthy).
  fold config in Hcb, HW, Htruthy.
  split_and!.
  - done.
  - intros Hlt. unfold rateLimit. fold config key.
    rewrite (check_answer key config now rnd w Hcb). cbv zeta. fold count.
    by destruct (Z.ltb_spec count (maxRequests config)); [|lia].
  - intros Hge. unfold rateLimit. fold config key.
    rewrite (check_answer key config now rnd w Hcb). cbv zeta. fold count.
    destruct (Z.ltb_spec count (maxRequests config)); [lia|]. simpl.
    eexists. split; [done|]. unfold createRateLimitResponse, setRateLimitHeaders, rejected.
    cbn [allowed retryAfter total remaining resetAt negb andb status headers default].
    rewrite Htruthy. split_and!; try done; by simplify_map_eq.
Qed.

Lemma rate_limit_response_witness :
  ∃ resp,
    (rateLimit None ∅ participation (Some "u1") 100 6
       (check_all "u1" (RATE_LIMITS participation) burst_u1 fresh).1).2 =
      Returns (Some resp) ∧
    status resp = 429 ∧ headers resp !! "Retry-After" = Some "1".
Proof.
  destruct (proj2 (proj2 (rate_limit_response ∅ participation (Some "u1") 100 6
              (check_all "u1" (RATE_LIMITS participation) burst_u1 fresh).1)))
    as (resp & Hresp & Hstatus & Hretry & _).
  - vm_compute. discriminate.
  - exists resp. split; [exact Hresp|]. split; [exact Hstatus|].
    rewrite Hretry. vm_compute. reflexivity.
Defined.

Lemma blocked_calls_cons k (a : bool) calls :
  blocked_calls ((k, a) :: calls) = (if a then 0 else 1) + blocked_calls calls.
Proof.
  unfold blocked_calls. rewrite filter_cons.
  destruct (decide _) as [H|H]; simpl in H; destruct a; try done; simpl length; lia.
Qed.

Lemma blocked_calls_of_cons key k (a : bool) calls :
  blocked_calls_of key ((k, a) :: calls) =
    (if decide (k = key) then if a then 0 else 1 else 0) + blocked_calls_of key calls.
Proof.
  unfold blocked_calls_of. rewrite filter_cons.
  destruct (decide _) as [[H1 H2]|H]; simpl in *.
  - subst. rewrite decide_True by done. simpl length. lia.
  - destruct (decide (k = key)), a; try done; try lia. naive_solver.
Qed.

Lemma record_all_counts (calls : list (string * bool)) (st : Stats) :
  totalChecks (record_all calls st) = totalChecks st + Z.of_nat (length calls) ∧
  blocked (record_all calls st) = blocked st + blocked_calls calls ∧
  ∀ key, default 0 (blockedIPs (record_all calls st) !! key) =
         default 0 (blockedIPs st !! key) + blocked_calls_of key calls.
Proof.
  revert st. induction calls as [|[k a] calls IH]; intros st.
  - unfold blocked_calls, blocked_calls_of. simpl.
    refine (conj _ (conj _ _)); [lia|lia|intros key; lia].
  - destruct (IH (recordRateLimitStat k a st)) as (H1 & H2 & H3).
    change (record_all ((k, a) :: calls) st)
      with (record_all calls (recordRateLimitStat k a st)).
    rewrite H1, H2, blocked_calls_cons. simpl length.
    refine (conj _ (conj _ _)).
    + destruct a; simpl; lia.
    + destruct a; simpl; lia.
    + intros key. rewrite H3, blocked_calls_of_cons.
      destruct a; simpl; [destruct (decide (k = key)); lia|].
      destruct (decide (k = key)) as [->|Hne].
      * rewrite lookup_insert_eq. simpl. lia.
      * rewrite lookup_insert_ne by done. lia.
Qed.

(** X6: After any sequence of [recordRateLimitStat] calls on reset statistics,
    [totalChecks] is the number of calls, [blocked] the number of blocked
    calls (so never more than [totalChecks]), and the count kept for each key
    the number of blocked calls with that key. *)
Theorem rate_limit_stats_count (calls : list (string * bool)) :
  let st := record_all calls resetRateLimitStats in
  totalChecks st = Z.of_nat (length calls) ∧
  blocked st = blocked_calls calls ∧
  0 ≤ blocked st ≤ totalChecks st ∧
  ∀ key, default 0 (blockedIPs st !! key) = blocked_calls_of key calls.
Proof.
  destruct (record_all_counts calls resetRateLimitStats) as (H1 & H2 & H3).
  cbv zeta. rewrite H1, H2. simpl. refine (conj eq_refl (conj eq_refl (conj _ _))).
  - unfold blocked_calls. pose proof (length_filter (λ c : string * bool, c.2 = false) calls).
    lia.
  - intros key. rewrite H3. unfold resetRateLimitStats. cbn [blockedIPs].
    rewrite lookup_empty. simpl. lia.
Qed.

End RateLimitHttpFacts.

Module PipelineBurstFacts.
Import Redis RedisFacts StaticOptimizer PipelineBurst.

(** One check of the pipeline limiter in closed form. *)
Lemma pipeline_closed identifier type now rnd (s : gmap string zkey) :
  let config := RATE_LIMITS type in
  let key := key_of type identifier in
  let z := zadd now (now, rnd)
             (zremrangebyscore 0 (now - windowMs config) (zget s key now)) in
  checkRateLimit identifier type now rnd s =
    (<[key := mkZKey z (Some (now + windowMs config))]> s,
     mkResult (zcard z <=? maxRequests config) (Z.max 0 (maxRequests config - zcard z))
       (now + windowMs config)).
Proof.
  intros config key z. unfold checkRateLimit. cbv zeta. fold config. fold (key_of type identifier).
  fold key. unfold ZREMRANGEBYSCORE, ZCARD.
  rewrite PEXPIRE_ZADD, zget_ZADD, zget_zput, insert_zput.
  assert (0 < windowMs config) by (subst config; by destruct type).
  by destruct (Z.leb_spec (windowMs config) 0); [lia|].
Qed.

Lemma range_purge_none (lo hi : Z) (z : gmap member Z) :
  (∀ m sc, z !! m = Some sc → hi < sc) → zremrangebyscore lo hi z = z.
Proof.
  intros Hall. unfold zremrangebyscore. apply map_filter_id.
  intros m sc Hm. simpl. specialize (Hall m sc Hm). lia.
Qed.

Lemma pipeline_burst identifier type t0 reqs served (s : gmap string zkey) :
  RateLimiter.window_inv (key_of type identifier) (t0 + windowMs (RATE_LIMITS type))
    served s →
  Forall (λ m, t0 ≤ m.1) served → NoDup (served ++ reqs) →
  Forall (λ m, t0 ≤ m.1 < t0 + windowMs (RATE_LIMITS type)) reqs →
  (check_all identifier type reqs s).2 = tally type (Z.of_nat (length served)) reqs.
Proof.
  revert served s. induction reqs as [|[t r] reqs IH]; intros served s Hinv Hsc Hnd Hreq;
    [done|].
  apply Forall_cons in Hreq as [Ht Hreq]. simpl in Ht.
  pose proof Hnd as Hnd'. apply NoDup_app in Hnd' as (Hnd1 & Hfresh & _).
  cbn [check_all tally]. rewrite pipeline_closed. cbv zeta.
  set (key := key_of type identifier) in *. set (W := windowMs (RATE_LIMITS type)) in *.
  assert (zget s key t = zset_of served) as Hz.
  { destruct Hinv as [[-> Hs]|(e & Hs & He)]; [by apply zget_None|].
    eapply zget_live; [done|lia]. }
  rewrite Hz, range_purge_none.
  2:{ intros m sc [Hin ->]%zset_of_score. rewrite Forall_forall in Hsc.
      specialize (Hsc m Hin). simpl in Hsc. lia. }
  assert (zcard (zadd t (t, r) (zset_of served)) = Z.of_nat (length served) + 1) as Hcard.
  { unfold zcard, zadd. rewrite map_size_insert_None, zset_of_size by
      (done || (rewrite zset_of_lookup, decide_False; [done|];
                intros Hin; apply (Hfresh _ Hin); by left)).
    lia. }
  rewrite Hcard.
  specialize (IH (served ++ [(t, r)])
    (<[key:=mkZKey (zadd t (t, r) (zset_of served)) (Some (t + W))]> s)).
  rewrite <- app_assoc, length_app in IH. simpl in IH.
  destruct (check_all identifier type reqs _) as [s' rs] eqn:Hrest. simpl in *.
  rewrite IH; try done.
  - by replace (Z.of_nat (length served + 1)) with (Z.of_nat (length served) + 1) by lia.
  - right. exists (t + W). split; [|lia]. by rewrite lookup_insert_eq, zset_of_snoc.
  - apply Forall_app. split; [done|]. constructor; [simpl; lia|constructor].
Qed.

(** X7: On a key that holds nothing yet, the pipeline limiter answers the j-th
    check of a burst inside one window (with pairwise distinct entries)
    allowed exactly when j ≤ maxRequests, with remaining max(0, maxRequests - j):
    rejected checks are counted as well. *)
Theorem pipeline_limiter_counts_every_check (identifier : string) (type : limit_type)
    (t0 : Z) (reqs : list member) (s : gmap string zkey) :
  s !! key_of type identifier = None →
  NoDup reqs →
  Forall (λ m, t0 ≤ m.1 < t0 + windowMs (RATE_LIMITS type)) reqs →
  (check_all identifier type reqs s).2 = tally type 0 reqs.
Proof.
  intros Hs Hnd Hreq.
  apply (pipeline_burst identifier type t0 reqs [] s); try done. by left.
Qed.

Lemma pipeline_limiter_witness :
  allowed <$> (check_all "u1" participation
                 [(0, 1%N); (0, 2%N); (0, 3%N); (0, 4%N); (0, 5%N); (10, 6%N); (20, 7%N)] ∅).2
    = [true; true; true; true; true; false; false].
Proof.
  rewrite (pipeline_limiter_counts_every_check "u1" participation 0
             [(0, 1%N); (0, 2%N); (0, 3%N); (0, 4%N); (0, 5%N); (10, 6%N); (20, 7%N)] ∅).
  - reflexivity.
  - vm_compute. reflexivity.
  - by apply (bool_decide_unpack _).
  - repeat constructor; simpl; lia.
Defined.

End PipelineBurstFacts.

Module ViewCounterStoreFacts.
Import ViewCounter ViewCounterFacts ViewCounterStore.

Implicit Types (s : gmap string entry) (db : gmap string Z).

(** X8: A flush changes no key outside the view-counter prefix and creates no
    key; in particular the participation counters are left as they are. *)
Theorem flush_leaves_other_keys (db_error : option string) s db (k : string) :
  let r := flushViewCounters db_error s db in
  (String.prefix "counter:views:" k = false → kv_after r !! k = s !! k) ∧
  (kv_after r !! k = s !! k ∨ kv_after r !! k = None) ∧
  (∀ eventId, kv_after r !! PARTICIPATION_COUNTER eventId =
              s !! PARTICIPATION_COUNTER eventId).
Proof.
  assert (∀ k', kv_after (flushViewCounters db_error s db) !! k' = s !! k' ∨
                (kv_after (flushViewCounters db_error s db) !! k' = None ∧
                 String.prefix "counter:views:" k' = true)) as Hcases.
  { intros k'. unfold flushViewCounters.
    destruct (view_counter_keys s) as [|k0 keys] eqn:Hkeys; [by left|].
    destruct (updates_of s (k0 :: keys)); [by left|].
    destruct (transaction db_error db _); cbn [kv_after]; [|by left].
    unfold del.
    destruct (decide (k' ∈ k0 :: keys)) as [Hin|Hnin].
    - right. split; [by apply lookup_foldr_delete|].
      rewrite <- Hkeys in Hin. by apply elem_of_view_counter_keys in Hin as [_ ?].
    - left. by apply lookup_foldr_delete_not_elem_of. }
  cbv zeta. split_and!.
  - intros Hp. destruct (Hcases k) as [?|[_ ?]]; [done|congruence].
  - destruct (Hcases k) as [?|[? _]]; [by left|by right].
  - intros eventId. destruct (Hcases (PARTICIPATION_COUNTER eventId)) as [?|[_ Hp]]; [done|].
    exfalso. revert Hp. unfold PARTICIPATION_COUNTER. rewrite !app_String. by simpl.
Qed.

Lemma flush_leaves_other_keys_witness :
  kv_after (flushViewCounters None
              (<["metrics:cache:hits" := mkEntry 5 None]> sample_kv) sample_db)
    !! "metrics:cache:hits" = Some (mkEntry 5 None).
Proof.
  rewrite (proj1 (flush_leaves_other_keys None
                    (<["metrics:cache:hits" := mkEntry 5 None]> sample_kv) sample_db
                    "metrics:cache:hits") eq_refl).
  vm_compute. reflexivity.
Defined.

Lemma apply_updates_missing (updates : list (string * Z)) db (u : string * Z) :
  u ∈ updates → db !! u.1 = None → apply_updates db updates = None.
Proof.
  revert db. induction updates as [|[id0 n0] updates IH]; intros db Hin Hmiss.
  - by apply elem_of_nil in Hin.
  - simpl. destruct (db !! id0) as [v0|] eqn:Hid0; [|done].
    apply elem_of_cons in Hin as [->|Hin]; [simpl in Hmiss; congruence|].
    apply IH; [done|]. rewrite lookup_insert_ne; [done|]. intros ->. congruence.
Qed.

(** X9: One counter whose post does not exist makes the whole flush fail: the
    flush throws, applies no delta and deletes no key, so the views counted
    for all other posts stay unflushed as well. *)
Theorem flush_blocked_by_missing_post s db (k id : string) (n : Z) :
  k ∈ view_counter_keys s →
  update_of s k = Some (id, n) →
  db !! id = None →
  flushViewCounters None s db = mkFlush s db [] [] (Throws "Record to update not found").
Proof.
  intros Hk Hu Hmiss. unfold flushViewCounters.
  assert ((id, n) ∈ updates_of s (view_counter_keys s)) as Hin.
  { apply list_elem_of_omap. eauto. }
  destruct (view_counter_keys s) as [|k0 keys]; [by apply elem_of_nil in Hk|].
  destruct (updates_of s (k0 :: keys)) as [|u us] eqn:Hups; [by apply elem_of_nil in Hin|].
  unfold transaction. by rewrite (apply_updates_missing (u :: us) db (id, n)).
Qed.

Lemma flush_blocked_witness :
  flushViewCounters None (increment_times 3 "gone" sample_kv) sample_db =
    mkFlush (increment_times 3 "gone" sample_kv) sample_db [] []
      (Throws "Record to update not found").
Proof.
  apply (flush_blocked_by_missing_post _ _ (VIEW_COUNTER "gone") "gone" 3).
  - assert (view_counter_keys (increment_times 3 "gone" sample_kv) =
            [VIEW_COUNTER "gone"; VIEW_COUNTER "p2"]) as -> by (vm_compute; reflexivity).
    by left.
  - vm_compute. reflexivity.
  - vm_compute. reflexivity.
Defined.

Lemma updates_for_none s id keys :
  (∀ k, k ∈ keys → last_segment k = id → update_of s k = None) →
  filter (λ u : string * Z, u.1 = id) (updates_of s keys) = [].
Proof.
  induction keys as [|k keys IH]; intros Hnone; [done|].
  rewrite updates_of_cons.
  specialize (IH (λ k' Hin, Hnone k' (list_elem_of_further _ _ _ Hin))).
  destruct (update_of s k) as [[id' n']|] eqn:Hu; [|done].
  rewrite filter_cons, decide_False; [done|]. simpl. intros ->.
  assert (last_segment k = id) as Hseg.
  { unfold update_of in Hu. case_decide; [|done]. by injection Hu as <- _. }
  rewrite (Hnone k) in Hu; [done|by left|done].
Qed.

(** The delta a flush computes for a post is what is pending for it. *)
Lemma delta_is_pending s db id :
  counters_of_posts s db → id ≠ "" → no_colon id = true →
  delta_for id (updates_of s (view_counter_keys s)) = pending s id.
Proof.
  intros Hposts Hne Hnc. unfold pending, delta_for.
  assert (∀ k, k ∈ view_counter_keys s → k ≠ VIEW_COUNTER id → last_segment k ≠ id)
    as Hothers.
  { intros k Hk Hkne. destruct (Hposts k Hk) as (id' & -> & Hnc' & _).
    rewrite last_segment_VIEW_COUNTER by done. by intros ->. }
  destruct (s !! VIEW_COUNTER id) as [e|] eqn:He.
  - destruct (Z.lt_ge_cases 0 (value e)) as [Hpos|Hneg].
    + rewrite (updates_for_post s id (value e)); try done.
      * rewrite decide_True; [simpl; lia|].
        apply elem_of_view_counter_keys. split; [eauto|apply prefix_VIEW_COUNTER].
      * apply NoDup_view_counter_keys.
      * unfold update_of. rewrite last_segment_VIEW_COUNTER, He by done. simpl.
        by rewrite decide_True.
    + rewrite updates_for_none; [simpl; lia|].
      intros k Hk Hseg. destruct (decide (k = VIEW_COUNTER id)) as [->|Hkne].
      * unfold update_of. rewrite last_segment_VIEW_COUNTER, He by done. simpl.
        rewrite decide_False; [done|]. intros [_ ?]. lia.
      * by destruct (Hothers k Hk Hkne).
  - rewrite updates_for_none; [done|].
    intros k Hk Hseg. destruct (decide (k = VIEW_COUNTER id)) as [->|Hkne].
    + apply elem_of_view_counter_keys in Hk as [[? ?] _]. congruence.
    + by destruct (Hothers k Hk Hkne).
Qed.

(** X10: When every view counter of the store belongs to an existing post, a
    flush returns normally and adds to every post exactly the views pending
    for it (nothing to a post without a counter); and when it found something
    to apply, no view counter is left afterwards. *)
Theorem flush_applies_every_counter s db :
  counters_of_posts s db →
  let r := flushViewCounters None s db in
  (∃ n, returned r = Returns n) ∧
  (∀ id, id ≠ "" → no_colon id = true →
     db_after r !! id = (λ v, v + pending s id) <$> db !! id) ∧
  (committed r ≠ [] → view_counter_keys (kv_after r) = []).
Proof.
  intros Hposts.
  destruct (apply_updates_commits (updates_of s (view_counter_keys s)) db)
    as (db' & Hcommit & Hlook).
  { intros u (k & Hk & Hu)%list_elem_of_omap.
    destruct (Hposts k Hk) as (id & -> & Hnc & Hin).
    unfold update_of in Hu. rewrite last_segment_VIEW_COUNTER in Hu by done.
    case_decide; [|done]. by injection Hu as <-. }
  pose proof (delta_is_pending s db) as Hdelta.
  cbv zeta. unfold flushViewCounters.
  destruct (view_counter_keys s) as [|k0 keys] eqn:Hkeys.
  - simpl. split_and!; [eauto| |done].
    intros id Hne Hnc. rewrite <- (Hdelta id Hposts Hne Hnc). unfold delta_for. simpl.
    destruct (db !! id); simpl; [f_equal; lia|done].
  - destruct (updates_of s (k0 :: keys)) as [|u us] eqn:Hups.
    + simpl. split_and!; [eauto| |done].
      intros id Hne Hnc. rewrite <- (Hdelta id Hposts Hne Hnc). unfold delta_for. simpl.
      destruct (db !! id); simpl; [f_equal; lia|done].
    + unfold transaction. rewrite Hcommit. cbn [returned db_after kv_after committed].
      split_and!; [eauto| |].
      * intros id Hne Hnc. by rewrite Hlook, (Hdelta id Hposts Hne Hnc).
      * intros _. rewrite <- Hkeys. apply view_counter_keys_del.
Qed.

Lemma flush_applies_witness :
  db_after (flushViewCounters None (increment_times 2 "p1" sample_kv) sample_db) !! "p2"
    = Some 23.
Proof.
  assert (Hposts : counters_of_posts (increment_times 2 "p1" sample_kv) sample_db).
  { intros k Hk.
    assert (view_counter_keys (increment_times 2 "p1" sample_kv) =
            [VIEW_COUNTER "p1"; VIEW_COUNTER "p2"]) as Hkeys by (vm_compute; reflexivity).
    rewrite Hkeys in Hk. apply elem_of_cons in Hk as [->|Hk].
    - exists "p1". split_and!; [done|done|]. exists 10. vm_compute. reflexivity.
    - apply list_elem_of_singleton in Hk as ->.
      exists "p2". split_and!; [done|done|]. exists 20. vm_compute. reflexivity. }
  rewrite (proj1 (proj2 (flush_applies_every_counter _ _ Hposts)) "p2") by done.
  vm_compute. reflexivity.
Defined.

End ViewCounterStoreFacts.

Module CircuitIsolationFacts.
Import CircuitBreaker CircuitBreakerFacts.

(** X11: Calls on other operations never touch the circuit of an operation:
    after any sequence of calls none of which is on [name], the stored state
    of [name] is what it was. *)
Theorem circuits_are_independent {T : Type} (name : string)
    (cs : gmap string CircuitState) (cl : list (call T)) :
  Forall (λ c, c_name c ≠ name) cl →
  run cs cl !! name = cs !! name.
Proof.
  revert cs. induction cl as [|c cl IH]; intros cs Hall; [done|].
  apply Forall_cons in Hall as [Hc Hall].
  change (run cs (c :: cl)) with (run (step cs c) cl).
  rewrite IH by done. unfold step. by apply states_other.
Qed.

Lemma circuits_independent_witness :
  run tripped [mkReq "cache" (Throws "miss") None 6; mkReq "cache" (Returns 1) None 7;
               mkReq "queue" (Throws "full") (Some (Returns 0)) 8] !! "db"
    = Some (mkCircuit 5 5 open).
Proof.
  rewrite (circuits_are_independent "db" tripped
             [mkReq "cache" (Throws "miss") None 6; mkReq "cache" (Returns 1) None 7;
              mkReq "queue" (Throws "full") (Some (Returns 0)) 8]).
  - vm_compute. reflexivity.
  - repeat constructor; by simpl.
Defined.

Lemma nonneg_step {T : Type} (cs : gmap string CircuitState) (c : call T) :
  (∀ name st, cs !! name = Some st → 0 ≤ failures st) →
  ∀ name st, step cs c !! name = Some st → 0 ≤ failures st.
Proof.
  intros Hpos name st. unfold step.
  destruct (decide (c_name c = name)) as [<-|Hne];
    [|rewrite states_other; [apply Hpos | done]].
  pose proof (Hpos (c_name c)) as Hn.
  unfold withCircuitBreaker, attempt, on_failure, get_state in *.
  destruct (cs !! c_name c) as [st0|] eqn:Hst0; simpl.
  - specialize (Hn st0 eq_refl).
    repeat (case_match; simpl); rewrite ?lookup_insert_eq, ?Hst0;
      intros [= <-]; simpl; lia.
  - repeat (case_match; simpl); rewrite ?lookup_insert_eq, ?Hst0;
      intros [= <-]; simpl; lia.
Qed.

(** X12: What is stored between calls, in every state the breaker can reach from
    the empty map: no circuit is half-open, the failure count is not
    negative, and a circuit is open exactly when its count has reached the
    threshold. *)
Theorem stored_circuit_invariant {T : Type} (cs : gmap string CircuitState)
    (name : string) (st : CircuitState) :
  reachable T cs →
  cs !! name = Some st →
  state st ≠ half_open ∧ 0 ≤ failures st ∧
  (state st = open ↔ CIRCUIT_THRESHOLD ≤ failures st).
Proof.
  intros Hr Hst.
  destruct (reachable_well_formed _ Hr name st Hst) as (Hh & Htrip & Hclosed).
  assert (∀ name st, cs !! name = Some st → 0 ≤ failures st) as Hpos.
  { clear name st Hst Hh Htrip Hclosed.
    induction Hr as [|cs c _ IH]; [by intros ? ? ?|by apply nonneg_step]. }
  split_and!; [done|by eapply Hpos|].
  unfold tripped_ok in Htrip. split.
  - intros Ho. apply Htrip. by rewrite Ho.
  - intros Hge. destruct (state st); [specialize (Hclosed eq_refl); lia|done|done].
Qed.

Lemma stored_circuit_witness :
  state (mkCircuit 5 5 open) = open ↔ CIRCUIT_THRESHOLD ≤ failures (mkCircuit 5 5 open).
Proof.
  assert (Hr : reachable Z tripped) by (apply reachable_run; constructor).
  assert (Hst : tripped !! "db" = Some (mkCircuit 5 5 open)) by (vm_compute; reflexivity).
  exact (proj2 (proj2 (stored_circuit_invariant tripped "db" _ Hr Hst))).
Defined.

End CircuitIsolationFacts.

Module BatcherOpsFacts.
Import MessageBatcher BatcherOps.

Section Ops.
Variable publishToChannel : string → json → outcome unit.

Lemma flush_spec (b : batcher) :
  published (flushMessageQueue publishToChannel b) =
    map (λ g, (g.1, payload_of g.2)) (channelGroups (messageQueue b)) ∧
  after (flushMessageQueue publishToChannel b) = mkBatcher [] None ∧
  returns (flushMessageQueue publishToChannel b) = Returns ().
Proof.
  unfold flushMessageQueue. cbv zeta.
  destruct (messageQueue b) as [|m q]; [done|].
  by destruct (Promise_all _).
Qed.

Lemma batcher_ok_empty : batcher_ok (mkBatcher [] None).
Proof. split; [simpl; unfold maxSize; lia|done]. Qed.

Lemma batcher_ok_step (b : batcher) (o : op) :
  batcher_ok (after (apply_op publishToChannel b o)).
Proof.
  destruct o as [c d now|]; unfold apply_op.
  - unfold queueMessage. cbv zeta. destruct (decide _) as [Hfull|Hroom].
    + destruct (flush_spec (mkBatcher (messageQueue b ++ [mkMsg c d now]) (batchTimer b)))
        as (_ & -> & _). apply batcher_ok_empty.
    + destruct (batchTimer b); (split; [simpl; lia|by eauto]).
  - destruct (flush_spec b) as (_ & -> & _). apply batcher_ok_empty.
Qed.

End Ops.

(** X13: Whatever the queue and the delivery service, one enqueue or one flush
    returns normally and loses and invents nothing: it publishes exactly the
    channel groups of the messages it takes out of the queue, the messages
    taken out followed by the queue afterwards are the queue before followed
    by the message enqueued, and it takes out all or nothing. *)
Theorem batcher_step_conserves (publishToChannel : string → json → outcome unit)
    (b : batcher) (o : op) :
  let r := apply_op publishToChannel b o in
  returns r = Returns () ∧
  ∃ flushed,
    published r = map (λ g, (g.1, payload_of g.2)) (channelGroups flushed) ∧
    flushed ++ messageQueue (after r) = messageQueue b ++ enqueued o ∧
    (flushed = [] ∨ messageQueue (after r) = []).
Proof.
  cbv zeta. destruct o as [c d now|]; unfold apply_op, enqueued.
  - unfold queueMessage. cbv zeta. destruct (decide _) as [Hfull|Hroom].
    + destruct (flush_spec publishToChannel
                  (mkBatcher (messageQueue b ++ [mkMsg c d now]) (batchTimer b)))
        as (Hp & Ha & Hr).
      split; [done|]. exists (messageQueue b ++ [mkMsg c d now]).
      rewrite Ha. simpl in *. rewrite app_nil_r. eauto.
    + destruct (batchTimer b); (split; [done|]); exists []; simpl; eauto.
  - destruct (flush_spec publishToChannel b) as (Hp & Ha & Hr).
    split; [done|]. exists (messageQueue b). rewrite Ha. simpl. rewrite !app_nil_r. eauto.
Qed.

(** X14: Between operations the queue always holds fewer than [maxSize]
    messages, and the flush timer is armed whenever it holds one. *)
Theorem batcher_queue_bounded (publishToChannel : string → json → outcome unit)
    (ops : list op) :
  batcher_ok (run_ops publishToChannel (mkBatcher [] None) ops).
Proof.
  induction ops as [|o ops IH] using rev_ind.
  - apply batcher_ok_empty.
  - unfold run_ops. rewrite foldl_app. simpl. apply batcher_ok_step.
Qed.

End BatcherOpsFacts.

Module MonitorStoreFacts.
Import Monitor MonitorStore.

Lemma pipelines_snoc reqs r :
  pipelines (reqs ++ [r]) =
    pipelines reqs ++
    recordRequest (r_minute r) (r_path r) (r_method r) (r_status r) (r_latency r).
Proof. unfold pipelines. rewrite fmap_app, concat_app. simpl. by rewrite app_nil_r. Qed.

Lemma key_app_String a s1 s2 : String a s1 +:+ s2 = String a (s1 +:+ s2).
Proof. reflexivity. Qed.

Lemma key_app_empty s : "" +:+ s = s.
Proof. reflexivity. Qed.

Ltac unfold_keys :=
  unfold REQUEST_COUNT, REQUEST_LATENCY, ERROR_COUNT, ERROR_BY_TYPE, ENDPOINT_STATS in *;
  rewrite ?key_app_String, ?key_app_empty in *.

Lemma REQUEST_LATENCY_inj m m' : REQUEST_LATENCY m = REQUEST_LATENCY m' → m = m'.
Proof. unfold_keys. by intros [=]. Qed.

Lemma REQUEST_COUNT_inj m m' : REQUEST_COUNT m = REQUEST_COUNT m' → m = m'.
Proof. unfold_keys. by intros [=]. Qed.

Lemma ERROR_COUNT_inj m m' : ERROR_COUNT m = ERROR_COUNT m' → m = m'.
Proof. unfold_keys. by intros [=]. Qed.

Lemma ERROR_BY_TYPE_inj t t' : ERROR_BY_TYPE t = ERROR_BY_TYPE t' → t = t'.
Proof. unfold_keys. by intros [=]. Qed.

Lemma ERROR_COUNT_not_type m t :
  String.prefix "type:" m = false → ERROR_COUNT m ≠ ERROR_BY_TYPE t.
Proof.
  intros Hp Heq. unfold_keys. injection Heq as ->.
  rewrite ?key_app_String in Hp. simpl in Hp. by destruct t.
Qed.

Lemma REQUEST_COUNT_not_error m k : REQUEST_COUNT m ≠ ERROR_COUNT k.
Proof. unfold_keys. by intros [=]. Qed.

Lemma REQUEST_COUNT_not_type m t : REQUEST_COUNT m ≠ ERROR_BY_TYPE t.
Proof. unfold_keys. by intros [=]. Qed.

(** [LTRIM key 0 999] keeps the first thousand elements. *)
Lemma ltrim_0_999 (l : list Z) : ltrim 0 999 l = take 1000 l.
Proof.
  unfold ltrim. cbv zeta.
  change (0 <? 0) with false. change (999 <? 0) with false. cbv iota.
  destruct l as [|x l]; [done|].
  set (len := Z.of_nat (length (x :: l))).
  assert (1 ≤ len) by (subst len; simpl length; lia).
  rewrite (proj2 (Z.ltb_ge (Z.min 999 (len - 1)) 0)) by lia.
  rewrite (proj2 (Z.leb_gt len 0)) by lia. cbn [orb].
  change (Z.to_nat 0) with 0%nat. rewrite drop_0.
  destruct (Z.le_gt_cases len 1000) as [Hle|Hgt].
  - rewrite !take_ge; [done| |]; subst len; lia.
  - f_equal. lia.
Qed.

(** The latency list after one [recordRequest]. *)
Lemma lrange_step (minute : string) (l : list Z) m' p me st lat :
  foldl (λ l cmd,
           match cmd with
           | LPUSH k v => if decide (k = REQUEST_LATENCY minute) then v :: l else l
           | LTRIM k start stop =>
               if decide (k = REQUEST_LATENCY minute) then ltrim start stop l else l
           | _ => l
           end) l (recordRequest m' p me st lat) =
    if decide (m' = minute) then take 1000 (lat :: l) else l.
Proof.
  unfold recordRequest. rewrite !foldl_app. cbv zeta.
  assert (∀ x, foldl (λ l cmd,
           match cmd with
           | LPUSH k v => if decide (k = REQUEST_LATENCY minute) then v :: l else l
           | LTRIM k start stop =>
               if decide (k = REQUEST_LATENCY minute) then ltrim start stop l else l
           | _ => l
           end) x
           (if 400 <=? st
            then [INCR (ERROR_COUNT m'); EXPIRE (ERROR_COUNT m') 3600;
                  INCR (ERROR_BY_TYPE (if 500 <=? st then "5xx" else "4xx"))]
            else []) = x) as -> by (intros x; by destruct (400 <=? st)).
  cbn [foldl].
  destruct (decide (m' = minute)) as [->|Hne].
  - rewrite !decide_True by done. apply ltrim_0_999.
  - rewrite !decide_False; [done|by intros ?%REQUEST_LATENCY_inj..].
Qed.

(** X15: The latency samples kept for a minute are the latencies of the last
    thousand requests recorded in that minute, newest first: from request
    1001 on, the oldest samples are dropped. *)
Theorem latency_samples_capped (minute : string) (reqs : list request) :
  lrange_all (REQUEST_LATENCY minute) (pipelines reqs) =
    take 1000 (reverse (r_latency <$> in_minute minute reqs)).
Proof.
  unfold lrange_all. induction reqs as [|r reqs IH] using rev_ind; [done|].
  rewrite pipelines_snoc, foldl_app, IH, lrange_step.
  unfold in_minute. rewrite filter_app, filter_cons, filter_nil.
  destruct (decide (r_minute r = minute)) as [Hm|Hm].
  - rewrite fmap_app, reverse_app. simpl.
    set (ls := reverse (r_latency <$> filter (λ r, r_minute r = minute) reqs)).
    change (take 1000 (r_latency r :: take 1000 ls)) with
      (r_latency r :: take 999 (take 1000 ls)).
    rewrite take_take. by replace (999 `min` 1000)%nat with 999%nat by lia.
  - by rewrite app_nil_r.
Qed.

(** A counter after one [recordRequest]. *)
Lemma counter_step (key : string) (n : Z) m' p me st lat :
  foldl (λ n cmd,
           match cmd with
           | INCR k => if decide (k = key) then n + 1 else n
           | _ => n
           end) n (recordRequest m' p me st lat) =
    n + (if decide (REQUEST_COUNT m' = key) then 1 else 0)
      + (if 400 <=? st
         then (if decide (ERROR_COUNT m' = key) then 1 else 0) +
              (if decide (ERROR_BY_TYPE (if 500 <=? st then "5xx" else "4xx") = key)
               then 1 else 0)
         else 0).
Proof.
  unfold recordRequest. rewrite !foldl_app. cbv zeta.
  destruct (400 <=? st); cbn [foldl]; repeat destruct (decide _); lia.
Qed.

Lemma get_counter_snoc key reqs r :
  get_counter key (pipelines (reqs ++ [r])) =
    get_counter key (pipelines reqs)
      + (if decide (REQUEST_COUNT (r_minute r) = key) then 1 else 0)
      + (if 400 <=? r_status r
         then (if decide (ERROR_COUNT (r_minute r) = key) then 1 else 0) +
              (if decide (ERROR_BY_TYPE (if 500 <=? r_status r then "5xx" else "4xx") = key)
               then 1 else 0)
         else 0).
Proof. unfold get_counter. by rewrite pipelines_snoc, foldl_app, counter_step. Qed.

Lemma length_filter_snoc {A} (P : A → Prop) `{!∀ x, Decision (P x)} (l : list A) (x : A) :
  Z.of_nat (length (filter P (l ++ [x]))) =
    Z.of_nat (length (filter P l)) + (if decide (P x) then 1 else 0).
Proof.
  rewrite filter_app, length_app, filter_cons, filter_nil.
  destruct (decide (P x)); simpl; lia.
Qed.

(** X16: The counters of the monitor count what their names say: the request
    counter of a minute holds the number of requests recorded in that minute,
    its error counter the number of those with status 400 or more, and the two
    global counters the number of all requests with status 500 or more, and
    with status 400 to 499. *)
Theorem counters_count_requests (minute : string) (reqs : list request) :
  String.prefix "type:" minute = false →
  Forall (λ r, String.prefix "type:" (r_minute r) = false) reqs →
  let cmds := pipelines reqs in
  get_counter (REQUEST_COUNT minute) cmds = Z.of_nat (length (in_minute minute reqs)) ∧
  get_counter (ERROR_COUNT minute) cmds =
    Z.of_nat (length (filter (λ r, r_minute r = minute ∧ 400 ≤ r_status r) reqs)) ∧
  get_counter (ERROR_BY_TYPE "5xx") cmds =
    Z.of_nat (length (filter (λ r, 500 ≤ r_status r) reqs)) ∧
  get_counter (ERROR_BY_TYPE "4xx") cmds =
    Z.of_nat (length (filter (λ r, 400 ≤ r_status r < 500) reqs)).
Proof.
  intros Hminute Hreqs. cbv zeta.
  induction reqs as [|r reqs IH] using rev_ind; [done|].
  apply Forall_app in Hreqs as [Hreqs [Hr _]%Forall_cons].
  destruct (IH Hreqs) as (IH1 & IH2 & IH3 & IH4).
  unfold in_minute in *.
  rewrite !get_counter_snoc, !length_filter_snoc, IH1, IH2, IH3, IH4.
  destruct (Z.leb_spec 400 (r_status r)), (Z.leb_spec 500 (r_status r));
    split_and!;
    repeat match goal with
      | |- context [decide (REQUEST_COUNT ?a = REQUEST_COUNT ?b)] =>
          destruct (decide (REQUEST_COUNT a = REQUEST_COUNT b)) as [?%REQUEST_COUNT_inj|?]
      | |- context [decide (ERROR_COUNT ?a = ERROR_COUNT ?b)] =>
          destruct (decide (ERROR_COUNT a = ERROR_COUNT b)) as [?%ERROR_COUNT_inj|?]
      | |- context [decide (REQUEST_COUNT ?a = ERROR_COUNT ?b)] =>
          rewrite (decide_False (P := REQUEST_COUNT a = ERROR_COUNT b))
            by apply REQUEST_COUNT_not_error
      | |- context [decide (REQUEST_COUNT ?a = ERROR_BY_TYPE ?b)] =>
          rewrite (decide_False (P := REQUEST_COUNT a = ERROR_BY_TYPE b))
            by apply REQUEST_COUNT_not_type
      | |- context [decide (ERROR_COUNT ?a = REQUEST_COUNT ?b)] =>
          rewrite (decide_False (P := ERROR_COUNT a = REQUEST_COUNT b))
            by (intros Heq; by apply (REQUEST_COUNT_not_error b a))
      | |- context [decide (ERROR_BY_TYPE ?a = REQUEST_COUNT ?b)] =>
          rewrite (decide_False (P := ERROR_BY_TYPE a = REQUEST_COUNT b))
            by (intros Heq; by apply (REQUEST_COUNT_not_type b a))
      | |- context [decide (ERROR_COUNT ?a = ERROR_BY_TYPE ?b)] =>
          rewrite (decide_False (P := ERROR_COUNT a = ERROR_BY_TYPE b))
            by (by apply ERROR_COUNT_not_type)
      | |- context [decide (ERROR_BY_TYPE ?a = ERROR_COUNT ?b)] =>
          rewrite (decide_False (P := ERROR_BY_TYPE a = ERROR_COUNT b))
            by (intros Heq; by apply (ERROR_COUNT_not_type b a))
      | |- context [decide (ERROR_BY_TYPE ?a = ERROR_BY_TYPE ?b)] =>
          destruct (decide (ERROR_BY_TYPE a = ERROR_BY_TYPE b)) as [?%ERROR_BY_TYPE_inj|?]
      end;
    repeat case_decide; simplify_eq; try lia; try done; try (intuition lia);
    destruct_and?; by simplify_eq.
Qed.

Lemma counters_count_witness :
  get_counter (ERROR_COUNT "202401011200")
    (pipelines [mkRequest "202401011200" "/a" "GET" 200 5;
                mkRequest "202401011200" "/b" "GET" 404 7;
                mkRequest "202401011201" "/c" "POST" 500 9;
                mkRequest "202401011200" "/d" "GET" 503 11]) = 2.
Proof.
  assert (Forall (λ r, String.prefix "type:" (r_minute r) = false)
            [mkRequest "202401011200" "/a" "GET" 200 5;
             mkRequest "202401011200" "/b" "GET" 404 7;
             mkRequest "202401011201" "/c" "POST" 500 9;
             mkRequest "202401011200" "/d" "GET" 503 11]) as Hreqs
    by (repeat (apply Forall_cons; split; [reflexivity|]); apply Forall_nil_2).
  rewrite (proj1 (proj2 (counters_count_requests "202401011200" _ eq_refl Hreqs))).
  vm_compute. reflexivity.
Defined.

Lemma key_app_snoc (acc : string) c rest :
  (acc +:+ String c "") +:+ rest = acc +:+ String c rest.
Proof. induction acc as [|a acc IH]; [done|]. by rewrite !key_app_String, IH. Qed.

Lemma key_app_empty_r (s : string) : s +:+ "" = s.
Proof. induction s as [|a s IH]; [done|]. by rewrite key_app_String, IH. Qed.

(** [split(':')] on strings built from colon-free parts. *)
Lemma split_from_free acc s : colon_free s = true → split_from acc s = [acc +:+ s].
Proof.
  unfold colon_free. revert acc. induction s as [|c s IH]; intros acc Hfree; simpl.
  - by rewrite key_app_empty_r.
  - simpl in Hfree. destruct (Ascii.eqb c ":") eqn:Hc; [done|].
    rewrite IH by done. by rewrite key_app_snoc.
Qed.

Lemma split_from_colon acc s rest :
  colon_free s = true →
  split_from acc (s +:+ ":" +:+ rest) = (acc +:+ s) :: split_from "" rest.
Proof.
  unfold colon_free. revert acc. induction s as [|c s IH]; intros acc Hfree.
  - rewrite key_app_empty, key_app_String, key_app_empty, key_app_empty_r. done.
  - simpl in Hfree. destruct (Ascii.eqb c ":") eqn:Hc; [done|].
    rewrite key_app_String. simpl. rewrite Hc, IH by done. by rewrite key_app_snoc.
Qed.

Lemma split_count_field me p :
  colon_free me = true → colon_free p = true →
  split_colon (count_field me p) = [me; p; "count"].
Proof.
  intros Hme Hp. unfold split_colon, count_field.
  change (p +:+ ":count") with (p +:+ ":" +:+ "count").
  rewrite split_from_colon by done. rewrite split_from_colon by done.
  by rewrite split_from_free.
Qed.

Lemma split_latency_field me p :
  colon_free me = true → colon_free p = true →
  split_colon (latency_field me p) = [me; p; "latency"].
Proof.
  intros Hme Hp. unfold split_colon, latency_field.
  change (p +:+ ":latency") with (p +:+ ":" +:+ "latency").
  rewrite split_from_colon by done. rewrite split_from_colon by done.
  by rewrite split_from_free.
Qed.

Lemma split_endpoint_key me p :
  colon_free me = true → colon_free p = true →
  split_colon (me +:+ ":" +:+ p) = [me; p].
Proof.
  intros Hme Hp. unfold split_colon.
  rewrite split_from_colon by done. by rewrite split_from_free.
Qed.

Lemma count_not_latency me p : count_field me p ≠ latency_field me p.
Proof.
  unfold count_field, latency_field. intros Heq.
  apply (inj _) in Heq. apply (inj _) in Heq. apply (inj _) in Heq. done.
Qed.

(** The endpoint hash of [minute] after one [recordRequest]. *)
Lemma hgetall_step (minute : string) (hash : list (string * Z)) m' p me st lat :
  foldl (λ hash cmd,
           match cmd with
           | HINCRBY k field by_ =>
               if decide (k = ENDPOINT_STATS minute) then hincrby field by_ hash else hash
           | _ => hash
           end) hash (recordRequest m' p me st lat) =
    if decide (ENDPOINT_STATS m' = ENDPOINT_STATS minute)
    then hincrby (latency_field me (normalizePath p)) lat
           (hincrby (count_field me (normalizePath p)) 1 hash)
    else hash.
Proof.
  unfold recordRequest. rewrite !foldl_app. cbv zeta.
  assert (∀ x, foldl (λ hash cmd,
           match cmd with
           | HINCRBY k field by_ =>
               if decide (k = ENDPOINT_STATS minute) then hincrby field by_ hash else hash
           | _ => hash
           end) x
           (if 400 <=? st
            then [INCR (ERROR_COUNT m'); EXPIRE (ERROR_COUNT m') 3600;
                  INCR (ERROR_BY_TYPE (if 500 <=? st then "5xx" else "4xx"))]
            else []) = x) as -> by (intros x; by destruct (400 <=? st)).
  cbn [foldl]. by destruct (decide _).
Qed.

Lemma latency_sum_snoc reqs (r : string * string * Z * Z) :
  latency_sum (reqs ++ [r]) = latency_sum reqs + r.2.
Proof.
  unfold latency_sum. rewrite fmap_app, foldr_app. simpl.
  generalize (snd <$> reqs). intros l. induction l as [|x l IH]; simpl; lia.
Qed.

(** The hash of a minute in which every request went to one endpoint. *)
Lemma single_endpoint_hash minute me p (reqs : list (string * string * Z * Z)) :
  reqs ≠ [] →
  Forall (λ r, r.1.1.2 = me ∧ normalizePath r.1.1.1 = p) reqs →
  hgetall (ENDPOINT_STATS minute)
    (concat ((λ r, recordRequest minute r.1.1.1 r.1.1.2 r.1.2 r.2) <$> reqs)) =
    [(count_field me p, Z.of_nat (length reqs)); (latency_field me p, latency_sum reqs)].
Proof.
  unfold hgetall. induction reqs as [|r reqs IH] using rev_ind; [done|].
  intros _ [Hall [[Hme Hp] _]%Forall_cons]%Forall_app.
  rewrite fmap_app, concat_app, foldl_app.
  change (concat ((λ r, recordRequest minute r.1.1.1 r.1.1.2 r.1.2 r.2) <$> [r]))
    with (recordRequest minute r.1.1.1 r.1.1.2 r.1.2 r.2 ++ []).
  rewrite app_nil_r, hgetall_step, decide_True by done. rewrite Hme, Hp.
  rewrite length_app, latency_sum_snoc. simpl length.
  destruct reqs as [|r0 reqs0].
  - simpl. rewrite decide_False by apply count_not_latency. done.
  - rewrite IH by done. simpl hincrby. rewrite decide_True by done.
    simpl hincrby. rewrite decide_False by apply count_not_latency.
    rewrite decide_True by done.
    replace (Z.of_nat (length (r0 :: reqs0) + 1)) with (Z.of_nat (S (length reqs0)) + 1)
      by (simpl length; lia).
    done.
Qed.

(** X17: When every request of a minute went to one endpoint whose method and
    normalized path contain no [':'], the report for that minute is that one
    endpoint with the number of requests as count and the rounded mean of
    their latencies as average: without a placeholder in the path the hash
    fields are read back as written. *)
Theorem colon_free_endpoint_reported (minute me p : string)
    (reqs : list (string * string * Z * Z)) :
  reqs ≠ [] →
  Forall (λ r, r.1.1.2 = me ∧ normalizePath r.1.1.1 = p) reqs →
  colon_free me = true →
  colon_free p = true →
  topEndpoints minute reqs =
    [mkStat p me (Z.of_nat (length reqs))
       (round_div (latency_sum reqs) (Z.of_nat (length reqs)))].
Proof.
  intros Hne Hall Hme Hp. unfold topEndpoints.
  rewrite (single_endpoint_hash minute me p) by done.
  unfold parseEndpointStats. cbn [foldl].
  unfold parse_entry at 2. cbn [fst snd]. rewrite split_count_field by done.
  cbn [endpoints_update]. rewrite decide_True by done.
  unfold parse_entry. cbn [fst snd]. rewrite split_latency_field by done.
  cbn [endpoints_update]. rewrite decide_True by done.
  rewrite decide_False by done. rewrite decide_True by done.
  cbn [fmap list_fmap sort_by_count foldr insert_by_count take].
  unfold to_stat. cbn [fst snd d_count totalLatency].
  rewrite split_endpoint_key by done. cbn [nth].
  destruct reqs as [|r reqs]; [done|].
  by destruct (Z.ltb_spec 0 (Z.of_nat (length (r :: reqs)))); [|simpl length in *; lia].
Qed.

Lemma colon_free_endpoint_witness :
  topEndpoints "202401011200"
    [("/about", "GET", 200, 10); ("/about?ref=home", "GET", 200, 13);
     ("/about", "GET", 304, 14)] = [mkStat "/about" "GET" 3 12].
Proof.
  rewrite (colon_free_endpoint_reported "202401011200" "GET" "/about"
             [("/about", "GET", 200, 10); ("/about?ref=home", "GET", 200, 13);
              ("/about", "GET", 304, 14)]).
  - vm_compute. reflexivity.
  - done.
  - repeat (apply Forall_cons; split; [split; vm_compute; reflexivity|]).
    apply Forall_nil_2.
  - reflexivity.
  - reflexivity.
Defined.

End MonitorStoreFacts.

Module ConditionalFacts.
Import Monitor ClientIP Conditional.

Lemma str_app_String a s1 s2 : String a s1 +:+ s2 = String a (s1 +:+ s2).
Proof. reflexivity. Qed.

Lemma str_app_snoc (acc : string) c rest :
  (acc +:+ String c "") +:+ rest = acc +:+ String c rest.
Proof. induction acc as [|a acc IH]; [done|]. by rewrite !str_app_String, IH. Qed.

Lemma str_app_empty_r (s : string) : s +:+ "" = s.
Proof. induction s as [|a s IH]; [done|]. by rewrite str_app_String, IH. Qed.

Lemma has_char_app c s1 s2 : has_char c (s1 +:+ s2) = has_char c s1 || has_char c s2.
Proof.
  induction s1 as [|a s1 IH]; [done|].
  rewrite str_app_String. simpl. rewrite IH. by destruct (Ascii.eqb a c).
Qed.

(** [split(',')] of a string without a comma is the string itself. *)
Lemma split_comma_free acc s :
  has_char "," s = false → split_comma_from acc s = [acc +:+ s].
Proof.
  revert acc. induction s as [|c s IH]; intros acc Hfree; simpl.
  - by rewrite str_app_empty_r.
  - simpl in Hfree. destruct (Ascii.eqb c ",") eqn:Hc; [done|].
    rewrite IH by done. by rewrite str_app_snoc.
Qed.

(** No part of a split contains a comma. *)
Lemma split_comma_parts acc s :
  has_char "," acc = false →
  Forall (λ t, has_char "," t = false) (split_comma_from acc s).
Proof.
  revert acc. induction s as [|c s IH]; intros acc Hacc; simpl.
  - by constructor.
  - destruct (Ascii.eqb c ",") eqn:Hc.
    + constructor; [done|]. by apply IH.
    + apply IH. rewrite has_char_app, Hacc. simpl. by rewrite Hc.
Qed.

Lemma has_char_rev_app c s1 s2 :
  has_char c (String.rev_app s1 s2) = has_char c s1 || has_char c s2.
Proof.
  revert s2. induction s1 as [|a s1 IH]; intros s2; [done|].
  simpl. rewrite IH. simpl. by destruct (Ascii.eqb a c), (has_char c s1).
Qed.

Lemma has_char_rev c s : has_char c (String.rev s) = has_char c s.
Proof. unfold String.rev. rewrite has_char_rev_app. simpl. by rewrite orb_false_r. Qed.

Lemma has_char_trim_start c s : has_char c (trim_start s) = true → has_char c s = true.
Proof.
  induction s as [|a s IH]; [done|]. simpl.
  destruct (is_space a); [|done]. intros ->%IH. by destruct (Ascii.eqb a c).
Qed.

Lemma has_char_trim c s : has_char c s = false → has_char c (trim s) = false.
Proof.
  intros Hfree. unfold trim. rewrite has_char_rev.
  destruct (has_char c (trim_start _)) eqn:Hin; [|done].
  apply has_char_trim_start in Hin. rewrite has_char_rev in Hin.
  apply has_char_trim_start in Hin. congruence.
Qed.

(** Every tag read from an [If-None-Match] header is free of commas. *)
Lemma tags_comma_free v t : t ∈ tags_of v → has_char "," t = false.
Proof.
  unfold tags_of. intros (t0 & -> & Hin)%list_elem_of_fmap.
  apply has_char_trim.
  pose proof (split_comma_parts "" v eq_refl) as Hall.
  rewrite Forall_forall in Hall. by apply Hall.
Qed.

Lemma tags_of_single e : has_char "," e = false → trim e = e → tags_of e = [e].
Proof.
  intros Hfree Htrim. unfold tags_of, split_comma.
  rewrite split_comma_free by done. change ("" +:+ e) with e.
  by rewrite fmap_cons, Htrim.
Qed.

(** Reversal of strings. *)
Lemma rev_app_append s1 s2 : String.rev_app s1 s2 = String.rev s1 +:+ s2.
Proof.
  unfold String.rev. revert s2. induction s1 as [|a s1 IH]; intros s2; [done|].
  simpl. rewrite (IH (String a s2)), (IH (String a "")). by rewrite str_app_snoc.
Qed.

Lemma rev_String a s : String.rev (String a s) = String.rev s +:+ String a "".
Proof. unfold String.rev at 1. simpl. by rewrite rev_app_append. Qed.

Lemma rev_snoc a s : String.rev (s +:+ String a "") = String a (String.rev s).
Proof.
  induction s as [|b s IH]; [done|].
  rewrite str_app_String, !rev_String, IH. by rewrite str_app_String.
Qed.

Lemma rev_involutive s : String.rev (String.rev s) = s.
Proof. induction s as [|a s IH]; [done|]. by rewrite rev_String, rev_snoc, IH. Qed.

(** A string that neither starts nor ends with white space is its own
    trim. *)
Lemma trim_quoted a b s :
  is_space a = false → is_space b = false →
  trim (String a (s +:+ String b "")) = String a (s +:+ String b "").
Proof.
  intros Ha Hb. unfold trim.
  assert (trim_start (String a (s +:+ String b "")) = String a (s +:+ String b "")) as ->
    by (simpl; by rewrite Ha).
  rewrite rev_String, rev_snoc, str_app_String. simpl. rewrite Hb.
  by rewrite <- str_app_String, <- rev_snoc, <- rev_String, rev_involutive.
Qed.

Lemma all_chars_substring p n m s :
  all_chars p s = true → all_chars p (String.substring n m s) = true.
Proof.
  revert n m. induction s as [|c s IH]; intros n m Hall.
  - by destruct n, m.
  - simpl in Hall. apply andb_true_iff in Hall as [Hc Hs].
    destruct n as [|n]; simpl; [|by apply IH].
    destruct m as [|m]; simpl; [done|]. rewrite Hc. by apply IH.
Qed.

Lemma hex_no_comma s : all_chars is_hex s = true → has_char "," s = false.
Proof.
  induction s as [|c s IH]; [done|]. simpl.
  intros [Hc Hs]%andb_true_iff. rewrite IH by done.
  destruct (Ascii.eqb_spec c ","); [by subst|done].
Qed.

Section Library.
Variable md5_hex : string → string.
Variable toUTCString : Z → string.
Variable parseDate : string → option Z.


Lemma check_headers_etag h e lm :
  c_headers (checkConditionalRequest toUTCString parseDate h e lm) !! "ETag" = Some e.
Proof.
  unfold checkConditionalRequest. cbv zeta.
  repeat case_match; simpl; by simplify_map_eq.
Qed.

Lemma create_headers_etag jsonString h policy etag lm :
  headers (createOptimizedJsonResponse md5_hex toUTCString parseDate
             jsonString h policy etag lm) !! "ETag" =
    Some (responseETag md5_hex jsonString etag).
Proof.
  unfold createOptimizedJsonResponse. cbv zeta.
  pose proof (check_headers_etag h (responseETag md5_hex jsonString etag) lm) as He.
  destruct (notModified _); simpl.
  - rewrite lookup_insert_ne by done. exact He.
  - rewrite <- (assoc_L (∪)). by apply lookup_union_Some_l.
Qed.

Lemma check_matching_tag h e lm :
  e ≠ "" → has_char "," e = false → trim e = e →
  h !! "if-none-match" = Some e →
  notModified (checkConditionalRequest toUTCString parseDate h e lm) = true.
Proof.
  intros Hne Hfree Htrim Hh. unfold checkConditionalRequest. cbv zeta.
  rewrite Hh, decide_False, tags_of_single by done.
  rewrite (bool_decide_eq_true_2 (e ∈ [e])) by apply list_elem_of_here.
  done.
Qed.

Lemma create_not_modified jsonString policy etag lm h :
  notModified (checkConditionalRequest toUTCString parseDate h
                 (responseETag md5_hex jsonString etag) lm) = true →
  createOptimizedJsonResponse md5_hex toUTCString parseDate jsonString h policy etag lm =
    createNotModifiedResponse
      (c_headers (checkConditionalRequest toUTCString parseDate h
                    (responseETag md5_hex jsonString etag) lm)).
Proof. intros Hnm. unfold createOptimizedJsonResponse. cbv zeta. by rewrite Hnm. Qed.

Lemma generated_etag_shape content :
  all_chars is_hex (md5_hex content) = true →
  generateETag md5_hex content ≠ "" ∧
  has_char "," (generateETag md5_hex content) = false ∧
  trim (generateETag md5_hex content) = generateETag md5_hex content.
Proof.
  intros Hhex. unfold generateETag, dquote. rewrite str_app_String.
  change ("" +:+ ?s) with s. split_and!.
  - done.
  - simpl. rewrite has_char_app. simpl. rewrite orb_false_r.
    by apply hex_no_comma, all_chars_substring.
  - by apply trim_quoted.
Qed.

End Library.

(** X20: The entity tag a response carries is accepted back: when the tag has no
    comma and no white space around it, every response carries it in its
    [ETag] header, and a request that presents it in [If-None-Match] is
    answered 304 with no body, the same [ETag] and [Content-Length: 0]. *)
Theorem etag_round_trip (md5_hex : string → string) (toUTCString : Z → string)
    (parseDate : string → option Z) (jsonString : string) (policy : cache_policy)
    (etag : option string) (lastModified : option Z) (h1 h2 : gmap string string) :
  let e := responseETag md5_hex jsonString etag in
  e ≠ "" → has_char "," e = false → trim e = e →
  h2 !! "if-none-match" = Some e →
  headers (createOptimizedJsonResponse md5_hex toUTCString parseDate
             jsonString h1 policy etag lastModified) !! "ETag" = Some e ∧
  let r2 := createOptimizedJsonResponse md5_hex toUTCString parseDate
              jsonString h2 policy etag lastModified in
  status r2 = 304 ∧ body r2 = None ∧
  headers r2 !! "ETag" = Some e ∧ headers r2 !! "Content-Length" = Some "0".
Proof.
  intros e Hne Hfree Htrim Hh2. split; [apply create_headers_etag|].
  cbv zeta. split_and!; [| |apply create_headers_etag|];
    rewrite create_not_modified by (by apply check_matching_tag);
    unfold createNotModifiedResponse; cbn [status body headers];
    [done|done|by rewrite lookup_insert_eq].
Qed.

Lemma etag_round_trip_witness :
  status (createOptimizedJsonResponse sample_digest (λ _, "") (λ _, None)
            "{}" {[ "if-none-match" := "v42" ]} api (Some "v42") None) = 304.
Proof.
  apply (etag_round_trip sample_digest (λ _, "") (λ _, None) "{}" api (Some "v42") None
           ∅ {[ "if-none-match" := "v42" ]}); by vm_compute.
Defined.

(** X21: Tags the module generates itself always round-trip: with a digest
    function that returns hex digits and no tag supplied by the caller, a
    request presenting the [ETag] of an earlier response for the same data is
    answered 304 without a body. *)
Theorem generated_etag_round_trip (md5_hex : string → string) (toUTCString : Z → string)
    (parseDate : string → option Z) (jsonString : string) (policy : cache_policy)
    (lastModified : option Z) (h1 h2 : gmap string string) (e : string) :
  (∀ content, all_chars is_hex (md5_hex content) = true) →
  headers (createOptimizedJsonResponse md5_hex toUTCString parseDate
             jsonString h1 policy None lastModified) !! "ETag" = Some e →
  h2 !! "if-none-match" = Some e →
  let r2 := createOptimizedJsonResponse md5_hex toUTCString parseDate
              jsonString h2 policy None lastModified in
  status r2 = 304 ∧ body r2 = None ∧ headers r2 !! "ETag" = Some e.
Proof.
  intros Hhex He Hh2.
  rewrite create_headers_etag in He. injection He as <-.
  destruct (generated_etag_shape md5_hex jsonString (Hhex jsonString))
    as (Hne & Hfree & Htrim).
  cbv zeta. split_and!; [| |apply create_headers_etag];
    rewrite create_not_modified by (by apply check_matching_tag); done.
Qed.

Lemma generated_etag_witness :
  status (createOptimizedJsonResponse sample_digest (λ _, "") (λ _, None)
            "{}" {[ "if-none-match" := dquote +:+ "9e107d9d372bb682" +:+ dquote ]}
            api None None) = 304.
Proof.
  apply (generated_etag_round_trip sample_digest (λ _, "") (λ _, None) "{}" api None
           ∅ {[ "if-none-match" := dquote +:+ "9e107d9d372bb682" +:+ dquote ]}
           (dquote +:+ "9e107d9d372bb682" +:+ dquote)).
  - intros content. reflexivity.
  - vm_compute. reflexivity.
  - vm_compute. reflexivity.
Defined.

(** X22: A tag that contains a comma is never recognised: whatever the request
    sends, short of a wildcard tag, the full response is produced again. *)
Theorem etag_with_comma_never_matches (md5_hex : string → string)
    (toUTCString : Z → string) (parseDate : string → option Z) (jsonString : string)
    (policy : cache_policy) (etag : option string) (h : gmap string string) :
  has_char "," (responseETag md5_hex jsonString etag) = true →
  (∀ v, h !! "if-none-match" = Some v → "*" ∉ tags_of v) →
  let r := createOptimizedJsonResponse md5_hex toUTCString parseDate
             jsonString h policy etag None in
  status r = 200 ∧ body r = Some jsonString.
Proof.
  intros Hcomma Hstar. cbv zeta.
  unfold createOptimizedJsonResponse, checkConditionalRequest. cbv zeta.
  set (e := responseETag md5_hex jsonString etag) in *.
  destruct (h !! "if-none-match") as [v|] eqn:Hv; [|done].
  destruct (decide (v = "")); [done|].
  rewrite (bool_decide_eq_false_2 (e ∈ tags_of v)).
  2:{ intros Hin%tags_comma_free. congruence. }
  rewrite (bool_decide_eq_false_2 ("*" ∈ tags_of v)) by by apply Hstar.
  done.
Qed.

Lemma etag_with_comma_witness :
  status (createOptimizedJsonResponse sample_digest (λ _, "") (λ _, None)
            "{}" {[ "if-none-match" := "v1,draft" ]} api (Some "v1,draft") None) = 200.
Proof.
  apply (etag_with_comma_never_matches sample_digest (λ _, "") (λ _, None) "{}" api
           (Some "v1,draft") {[ "if-none-match" := "v1,draft" ]}).
  - reflexivity.
  - intros v Hv. apply lookup_singleton_Some in Hv as [_ Hv]. subst v.
    assert (tags_of "v1,draft" = ["v1"; "draft"]) as -> by (vm_compute; reflexivity).
    by apply (bool_decide_unpack _).
Defined.

Lemma includes_app sub pre post : includes sub (pre +:+ sub +:+ post) = true.
Proof.
  induction pre as [|a pre IH].
  - change ("" +:+ ?s) with s.
    assert (String.prefix sub (sub +:+ post) = true) as Hp.
    { clear. induction sub as [|c sub IH]; [by destruct post|].
      rewrite str_app_String. simpl. rewrite IH. by destruct (ascii_dec c c). }
    destruct (sub +:+ post); simpl; simpl in Hp; by rewrite Hp.
  - rewrite str_app_String. simpl. rewrite IH. apply orb_true_r.
Qed.

(** X23: Encodings and content types are recognised by substring: [br] is chosen
    whenever the two letters occur anywhere in the [Accept-Encoding] header,
    whatever surrounds them (inside another token, or with a quality value
    that refuses it), and a content type is compressible whenever ["text/"]
    occurs anywhere in it. *)
Theorem compression_by_substring (pre post : string) :
  detectCompressionSupport (Some (pre +:+ "br" +:+ post)) = Some "br" ∧
  isCompressible (pre +:+ "text/" +:+ post) = true.
Proof.
  split.
  - unfold detectCompressionSupport. simpl default. by rewrite includes_app.
  - unfold isCompressible. cbn [existsb]. by rewrite includes_app.
Qed.

End ConditionalFacts.

Module HealthFacts.
Import Health.

(** X24: The health report is consistent: there is one warning per failed check
    and none for a passed one, the status is healthy exactly when there is no
    warning, and unhealthy exactly when all three checks failed. *)
Theorem health_status_matches_checks (ping query info : outcome unit) :
  let r := checkSystemHealth ping query info in
  redis r = succeeded ping ∧ database r = succeeded query ∧
  centrifugo r = succeeded info ∧
  length (warnings r) =
    length (filter (λ b, b = false) [database r; redis r; centrifugo r]) ∧
  (h_status r = healthy ↔ warnings r = []) ∧
  (h_status r = unhealthy ↔ length (warnings r) = 3%nat).
Proof.
  destruct ping, query, info; vm_compute; split_and!; try done; split; done.
Qed.

End HealthFacts.

Module RequestTrackerFacts.
Import Monitor MonitorStore MonitorStoreFacts RequestTracker.

(** The counters after a single recorded request. *)
Lemma counters_of_one (key : string) (r : request) :
  get_counter key (pipelines [r]) =
    (if decide (REQUEST_COUNT (r_minute r) = key) then 1 else 0)
    + (if 400 <=? r_status r
       then (if decide (ERROR_COUNT (r_minute r) = key) then 1 else 0) +
            (if decide (ERROR_BY_TYPE (if 500 <=? r_status r then "5xx" else "4xx") = key)
             then 1 else 0)
       else 0).
Proof.
  change [r] with ([] ++ [r]). rewrite get_counter_snoc.
  change (get_counter key (pipelines [])) with 0. lia.
Qed.



End RequestTrackerFacts.

Module MonitorPathFacts.
Import Monitor MonitorFacts.

(** X19: Whatever the path, what [normalizePath] returns contains no ['?'], so
    no query string, and no ['/'] directly followed by a digit, so no numeric
    segment: paths that differ only in their query or in numeric ids are
    recorded under one endpoint. *)
Theorem normalized_path_shape (p : string) :
  has_char "?" (normalizePath p) = false ∧ slash_digit (normalizePath p) = false.
Proof. split; [apply normalizePath_no_query|apply normalizePath_no_numeric]. Qed.

End MonitorPathFacts.
